(** * torrent-dht: routing table, transaction registry and info-hash store

    A shallow embedding of the TypeScript sources of the DHT node
    (bucket.ts, routing_table.ts, id.ts, node.ts, peer.ts,
    krpc/transcation_manager.ts, info_hash_manager.ts and the KRPC
    request and error handlers), followed by the properties checked
    against them.

    Conventions of the embedding:
    - [Date.now()] is the explicit argument [now] of every operation that
      reads the clock;
    - a JavaScript object whose identity the code observes ([===] on
      [Id] objects, [Set<Peer>] membership) carries its object identity
      in an [obj] field;
    - the singletons ([TranscationManager.get()], [InfoHashManager.get()],
      [RoutingTable.get()]) are passed and returned explicitly, and
      [Math.random()] is an explicit sequence of draws;
    - the [logger] calls of the handlers are returned as a list of
      [LogEvent]s and their [Sender.sendMessage] calls as a list of sent
      messages; the [logger] calls of the registries are left out. *)

From Stdlib Require Import ZArith Lia List String Ascii Strings.Byte.
From stdpp Require Import base option list gmap strings sorting pretty.

Local Open Scope Z_scope.

(** ** JavaScript runtime operations used by the sources *)

Module Js.

(** [Array.prototype.sort(cmp)]: every element is inserted, in array
    order, before the first element of the sorted prefix it is ordered
    before ([cmp p y < 0]). This is the order a stable insertion sort
    produces. *)
Fixpoint insert {A} (cmp : A -> A -> Z) (p : A) (l : list A) : list A :=
  match l with
  | [] => [p]
  | y :: ys => if cmp p y <? 0 then p :: y :: ys else y :: insert cmp p ys
  end.

Definition sort {A} (cmp : A -> A -> Z) (l : list A) : list A :=
  fold_left (fun acc p => insert cmp p acc) l [].

(** [Array.prototype.slice(0, e)] for an integer [e]: a negative [e]
    counts from the end of the array. *)
Definition slice0 {A} (l : list A) (e : Z) : list A :=
  let len := Z.of_nat (length l) in
  let k := if e <? 0 then Z.max (len + e) 0 else Z.min e len in
  take (Z.to_nat k) l.

(** Truthiness of a string: every string but the empty one. *)
Definition truthy (s : string) : bool := negb (String.eqb s "").

(** Truthiness of a number (NaN does not occur on integers). *)
Definition truthyZ (n : Z) : bool := negb (n =? 0).

End Js.

(** ** The toolkit's BitArray, as its bit length and unsigned value *)

Module BitArray.

Record t := mk { length : Z; value : Z }.

(** [BitArray.fromBinaryString('0'.repeat(n))] and
    [BitArray.fromBinaryString('1'.repeat(n))]. *)
Definition zeros (n : Z) : t := mk n 0.
Definition ones (n : Z) : t := mk n (2 ^ n - 1).

Definition toBigInt (a : t) : Z := value a.

(** [BitArray.fromBigInt(v, n)]: defined on the values that fit [n]
    bits. *)
Definition fromBigInt (v n : Z) : option t :=
  if (0 <=? v) && (v <? 2 ^ n) then Some (mk n v) else None.

(** Big-endian value of a byte string. *)
Definition bytes_value (bs : list byte) : Z :=
  fold_left (fun acc b => acc * 256 + Z.of_N (Byte.to_N b)) bs 0.

Definition fromUnit8Array (bs : list byte) : t :=
  mk (8 * Z.of_nat (List.length bs)) (bytes_value bs).

Definition equals (a b : t) : bool :=
  (length a =? length b) && (value a =? value b).
Definition xor (a b : t) : t := mk (length a) (Z.lxor (value a) (value b)).
Definition lessThan (a b : t) : bool := value a <? value b.
Definition greaterThan (a b : t) : bool := value a >? value b.
Definition lessThanOrEqual (a b : t) : bool := value a <=? value b.
Definition greaterThanOrEqual (a b : t) : bool := value a >=? value b.

End BitArray.

(** ** id.ts *)

Module Id.

Definition BYTES_LENGTH : Z := 20.
Definition BIT_LENGTH : Z := BYTES_LENGTH * 8.

(** An [Id] object: its identity and the [#value] it wraps. *)
Record t := mk { obj : positive; bits : BitArray.t }.

Definition isValidId (id : option (list byte)) : bool :=
  match id with
  | Some bs => Z.of_nat (List.length bs) =? BYTES_LENGTH
  | None => false
  end.

(** [Id.fromUnit8Array(bytes)]: a new object ([o] is its identity); the
    constructor throws unless there are exactly 20 bytes. *)
Definition fromUnit8Array (o : positive) (bs : list byte) : option t :=
  if Z.of_nat (List.length bs) =? BYTES_LENGTH
  then Some (mk o (BitArray.fromUnit8Array bs))
  else None.

Definition equals (a b : t) : bool := BitArray.equals (bits a) (bits b).

(** [a === b] on two [Id] objects: reference identity. *)
Definition same (a b : t) : bool := Pos.eqb (obj a) (obj b).

End Id.

(** ** peer.ts and node.ts *)

Module Peer.

(** [NetUtil.isNetPort]: an integer in the range 0 to 65535. *)
Definition isNetPort (p : Z) : bool := (0 <=? p) && (p <=? 65535).

(** A constructed [Peer]: [port] and [addr] have passed the checks of
    their setters. [obj] is the identity of the object. *)
Record t := mk { obj : positive; port : Z; addr : string }.

(** [new Peer(port, addr)] with an [addr] read from an existing [Peer]
    or [Node] (whose setter accepted it already): only the port check
    can throw. *)
Definition new (o : positive) (p : Z) (a : string) : option t :=
  if isNetPort p then Some (mk o p a) else None.

End Peer.

Module Node.

Definition ACTIVE_RANGE : Z := 5 * 60 * 1000.

Record t := mk { id : Id.t; port : Z; addr : string; activedAt : Z }.

Definition new (now : Z) (i : Id.t) (p : Z) (a : string) : option t :=
  if Peer.isNetPort p then Some (mk i p a now) else None.

Definition updateActivedAt (now : Z) (n : t) : t :=
  mk (id n) (port n) (addr n) now.

Definition isActive (now : Z) (n : t) : bool :=
  now - activedAt n <? ACTIVE_RANGE.

(** [update(port, addr)] with a port and an address read from another
    constructed node: the setters accept them again. *)
Definition update (now : Z) (p : Z) (a : string) (n : t) : t :=
  updateActivedAt now (mk (id n) p a (activedAt n)).

End Node.

(** ** bucket.ts *)

Module Bucket.

Record t := mk {
  nodes : list Node.t;
  capacity : Z;
  updatedAt : Z;
  start : BitArray.t;
  end_ : BitArray.t
}.

Definition set_nodes (ns : list Node.t) (b : t) : t :=
  mk ns (capacity b) (updatedAt b) (start b) (end_ b).
Definition touch (now : Z) (b : t) : t :=
  mk (nodes b) (capacity b) now (start b) (end_ b).

(** The constructor; [None] stands for its [throw]s. *)
Definition new (now : Z) (cap : Z) (s e : BitArray.t) : option t :=
  if cap <=? 0 then None
  else if BitArray.greaterThan s e then None
  else if negb (BitArray.length s =? BitArray.length e)
          || negb (BitArray.length s =? 160) then None
  else Some (mk [] cap now s e).

Definition size (b : t) : Z := Z.of_nat (List.length (nodes b)).
Definition oldest (b : t) : option Node.t := last (nodes b).
Definition latest (b : t) : option Node.t := head (nodes b).

Definition withinRnage (i : Id.t) (b : t) : bool :=
  BitArray.greaterThanOrEqual (Id.bits i) (start b)
  && BitArray.lessThanOrEqual (Id.bits i) (end_ b).

Definition isFull (b : t) : bool := size b >=? capacity b.
Definition isEmpty (b : t) : bool := size b =? 0.

(** Index of the first member whose [id] is the same object as [i]. *)
Fixpoint find_same (i : Id.t) (ns : list Node.t) : option nat :=
  match ns with
  | [] => None
  | n :: ns' =>
      if Id.same (Node.id n) i then Some O
      else option_map S (find_same i ns')
  end.

Definition remove (now : Z) (node : Node.t) (b : t) : bool * t :=
  let b := touch now b in
  match find_same (Node.id node) (nodes b) with
  | Some i => (true, set_nodes (delete i (nodes b)) b)
  | None => (false, b)
  end.

(** [add]. The result is [None] only for a full bucket without members,
    that is for a capacity that is not positive: a bucket the code
    cannot build, since the constructor refuses such a capacity. (On it
    the source passes [undefined] to [remove], whose loop runs zero
    times, and goes on to insert the node.) *)
Definition add (now : Z) (node : Node.t) (b : t) : option (bool * t) :=
  let b := touch now b in
  match find_same (Node.id node) (nodes b) with
  | Some i =>
      Some (false,
            set_nodes
              (alter (Node.update now (Node.port node) (Node.addr node)) i
                     (nodes b)) b)
  | None =>
      let evicted :=
        if isFull b then
          match oldest b with
          | Some o => Some (snd (remove now o b))
          | None => None
          end
        else Some b in
      match evicted with
      | Some b' =>
          Some (true, set_nodes (Node.updateActivedAt now node :: nodes b') b')
      | None => None
      end
  end.

Definition obtainNodes (count : Z) (b : t) : list Node.t :=
  Js.slice0 (nodes b) (Z.min count (size b)).

(** [cloestNodes(targetNodeId, count)]: [Array.prototype.sort] sorts
    [this.#nodes] in place, so the bucket keeps the sorted order; the
    result is a copy of its first [maxCount] elements. *)
Definition cloestNodes (targetNodeId : Id.t) (count : Z) (b : t)
    : list Node.t * t :=
  let maxCount := Z.min count (size b) in
  let sorted :=
    Js.sort
      (fun a b' =>
         if BitArray.lessThan
              (BitArray.xor (Id.bits (Node.id a)) (Id.bits targetNodeId))
              (BitArray.xor (Id.bits (Node.id b')) (Id.bits targetNodeId))
         then -1 else 1)
      (nodes b) in
  (Js.slice0 sorted maxCount, set_nodes sorted b).

End Bucket.

(** ** routing_table.ts *)

Module RoutingTable.

Definition BUCKET_CAPACITY : Z := 8.

(** Result of a computation that can [throw], or that the recursion
    budget of the embedding cuts short. *)
Inductive result (A : Type) : Type :=
| Ok (a : A)
| Throw
| OutOfFuel.
Arguments Ok {A} a.
Arguments Throw {A}.
Arguments OutOfFuel {A}.

Record t := mk { localNode : Node.t; buckets : list Bucket.t }.

(** [generateBuckets(start, end)]. BigInt division truncates, hence
    [Z.quot]. [fuel] bounds the depth of the recursion. *)
Fixpoint generateBuckets (fuel : nat) (now : Z) (localId : Id.t)
    (start end_ : BitArray.t) : result (list Bucket.t) :=
  match fuel with
  | O => OutOfFuel
  | S fuel' =>
    let leftStart := start in
    match BitArray.fromBigInt
            (Z.quot (BitArray.toBigInt start + BitArray.toBigInt end_ - 1) 2)
            160 with
    | None => Throw
    | Some leftEnd =>
      match BitArray.fromBigInt (BitArray.toBigInt leftEnd + 1) 160 with
      | None => Throw
      | Some rightStart =>
        let rightEnd := end_ in
        if BitArray.equals start end_
           && BitArray.equals start (Id.bits localId)
        then Ok []
        else
          match Bucket.new now BUCKET_CAPACITY leftStart leftEnd with
          | None => Throw
          | Some leftBu =>
            match Bucket.new now BUCKET_CAPACITY rightStart rightEnd with
            | None => Throw
            | Some rightBu =>
              if Bucket.withinRnage localId leftBu then
                match generateBuckets fuel' now localId leftStart leftEnd with
                | Ok bs => Ok (rightBu :: bs)
                | Throw => Throw
                | OutOfFuel => OutOfFuel
                end
              else if Bucket.withinRnage localId rightBu then
                match generateBuckets fuel' now localId rightStart rightEnd with
                | Ok bs => Ok (leftBu :: bs)
                | Throw => Throw
                | OutOfFuel => OutOfFuel
                end
              else Throw
            end
          end
      end
    end
  end.

(** [initBuckets()] on the empty [#buckets] of a new table. *)
Definition initBuckets (fuel : nat) (now : Z) (localId : Id.t)
    : result (list Bucket.t) :=
  generateBuckets fuel now localId (BitArray.zeros 160) (BitArray.ones 160).

(** The constructor, reached through [RoutingTable.init(localNode)]. *)
Definition init (fuel : nat) (now : Z) (ln : Node.t) : result t :=
  match initBuckets fuel now (Node.id ln) with
  | Ok bs => Ok (mk ln bs)
  | Throw => Throw
  | OutOfFuel => OutOfFuel
  end.

Definition nodeCount (rt : t) : Z :=
  fold_left (fun count b => count + Bucket.size b) (buckets rt) 0.

Definition getAllNodes (rt : t) : list Node.t :=
  fold_left
    (fun ns b => if Bucket.isEmpty b then ns else ns ++ Bucket.nodes b)
    (buckets rt) [].

(** The comparator of [findClosestNodes]. *)
Definition closer (targetNodeId : Id.t) (a b : Node.t) : Z :=
  if BitArray.lessThan
       (BitArray.xor (Id.bits (Node.id a)) (Id.bits targetNodeId))
       (BitArray.xor (Id.bits (Node.id b)) (Id.bits targetNodeId))
  then -1 else 1.

Definition findClosestNodes (targetNodeId : Id.t) (count : Z) (rt : t)
    : list Node.t :=
  let nodes := Js.sort (closer targetNodeId) (getAllNodes rt) in
  let MAX_NODE_COUNT := Z.min (nodeCount rt) count in
  Js.slice0 nodes MAX_NODE_COUNT.

(** [add(node)]: the first bucket whose range holds the id of the node
    gets it; [false] when there is none. [None] where [Bucket.add]
    throws. *)
Fixpoint add_to (now : Z) (node : Node.t) (bs : list Bucket.t)
    : option (bool * list Bucket.t) :=
  match bs with
  | [] => Some (false, [])
  | b :: bs' =>
      if Bucket.withinRnage (Node.id node) b then
        match Bucket.add now node b with
        | Some (r, b') => Some (r, b' :: bs')
        | None => None
        end
      else
        match add_to now node bs' with
        | Some (r, bs'') => Some (r, b :: bs'')
        | None => None
        end
  end.

Definition add (now : Z) (node : Node.t) (rt : t) : option (bool * t) :=
  match add_to now node (buckets rt) with
  | Some (r, bs) => Some (r, mk (localNode rt) bs)
  | None => None
  end.

Fixpoint addNodes (now : Z) (nodes : list Node.t) (rt : t) : option t :=
  match nodes with
  | [] => Some rt
  | node :: nodes' =>
      match add now node rt with
      | Some (_, rt') => addNodes now nodes' rt'
      | None => None
      end
  end.

(** [remove(node)]: [Bucket.remove] on the first bucket whose range
    holds the id of the node, then [break]. *)
Fixpoint remove_from (now : Z) (node : Node.t) (bs : list Bucket.t)
    : list Bucket.t :=
  match bs with
  | [] => []
  | b :: bs' =>
      if Bucket.withinRnage (Node.id node) b
      then snd (Bucket.remove now node b) :: bs'
      else b :: remove_from now node bs'
  end.

Definition remove (now : Z) (node : Node.t) (rt : t) : t :=
  mk (localNode rt) (remove_from now node (buckets rt)).

Definition removeNodes (now : Z) (nodes : list Node.t) (rt : t) : t :=
  fold_left (fun rt node => remove now node rt) nodes rt.

(** [removeByNodeId(nodeId)]: the first node of [getAllNodes()] with an
    equal id is removed, then [break]. *)
Definition removeByNodeId (now : Z) (nodeId : Id.t) (rt : t) : t :=
  match List.find (fun node => Id.equals (Node.id node) nodeId)
                  (getAllNodes rt) with
  | Some node => remove now node rt
  | None => rt
  end.

(** [removeByIp(ip)]: the loop runs over the array [getAllNodes()]
    built before the first removal. *)
Definition removeByIp (now : Z) (ip : string) (rt : t) : t :=
  fold_left
    (fun rt node => if String.eqb (Node.addr node) ip
                    then remove now node rt else rt)
    (getAllNodes rt) rt.

(** [removeClosestNode(targetNode)]: [findClosestNodes] with its default
    count of 8; an array, even an empty one, is truthy. *)
Definition removeClosestNode (now : Z) (targetNode : Node.t) (rt : t) : t :=
  removeNodes now (findClosestNodes (Node.id targetNode) 8 rt) rt.

Fixpoint getRandomNode_in (bs : list Bucket.t) : option Node.t :=
  match bs with
  | [] => None
  | b :: bs' =>
      if Bucket.isEmpty b then getRandomNode_in bs' else Bucket.latest b
  end.

Definition getRandomNode (rt : t) : option Node.t :=
  getRandomNode_in (buckets rt).

Fixpoint findNode_in (nodeId : Id.t) (bs : list Bucket.t) : option Node.t :=
  match bs with
  | [] => None
  | b :: bs' =>
      if Bucket.isEmpty b then findNode_in nodeId bs'
      else
        match List.find (fun node => Id.equals (Node.id node) nodeId)
                        (Bucket.nodes b) with
        | Some node => Some node
        | None => findNode_in nodeId bs'
        end
  end.

Definition findNode (nodeId : Id.t) (rt : t) : option Node.t :=
  findNode_in nodeId (buckets rt).

End RoutingTable.

(** ** message_factory.ts: the parts of a KRPC message the handlers read *)

Module Message.

Inductive MessageType := QUERY | RESPONSE | ERROR.
Inductive QueryType := PING | FIND_NODE | GET_PEERS | ANNOUNCE_PEER.

Definition GENERIC : Z := 201.
Definition SERVER : Z := 202.
Definition PROTOCOL : Z := 203.
Definition METHOD_UNKNOWN : Z := 204.

(** The query arguments [a]; an absent field is [None]. *)
Record Args := mkArgs {
  id : option (list byte);
  target : option (list byte);
  info_hash : option (list byte);
  implied_port : option Z;
  port : option Z;
  token : option string
}.

Record t := mk {
  t_ : string;
  y : MessageType;
  q : option QueryType;
  a : option Args;
  e : option (Z * string)
}.

(** What [MessageFactory] builds for the replies of the handlers. *)
Inductive Reply :=
| responseError (tid : string) (errorCode : Z) (errorMessage : string)
| responseAnnouncePeer (tid : string).

(** One [sendMessage(port, addr, message)]. *)
Record Sent := mkSent { to_port : Z; to_addr : string; reply : Reply }.

End Message.

(** The [logger] calls of the handlers. *)
Inductive Level := info | warn | error.
Inductive LogEvent :=
| Log (level : Level) (text : string)
| LogReceivedError (tid address : string) (port errorCode : Z)
    (errorMessage : string).

(** ** krpc/transcation_manager.ts *)

Module TranscationManager.

(** The attached data of the singleton, [TranscationManager<Request>]. *)
Record Request := mkRequest {
  type : Message.QueryType;
  addr : string;
  port : Z;
  infoHash : option (list byte)
}.

(** A transaction id as the code can hold it: a string, or [undefined]
    ([None]) when [borrowTid] reads an empty pool. *)
Definition Tid : Type := option string.

Record Transcation := mkTranscation {
  expiredAt : Z;
  data : option Request
}.

(** [#tidPool] is a [Set] and [#transcations] a [Map]: both keep their
    entries in insertion order, which [borrowTid] and [forcePutback]
    read. *)
Record t := mk {
  tidPool : list Tid;
  transcations : list (Tid * Transcation);
  expiredTime : Z
}.

Definition EXPIRED_TIME : Z := 1000 * 60 * 60 * 24.
Definition CHARS : string :=
  "0123456789abcdefghijklmnopqrstuvwxyzABCDEFGHIJKLMNOPQRSTUVWXYZ".
(** [this.#CHARS.length ^ 2]: in JavaScript [^] is bitwise XOR. *)
Definition ID_COUNT_MAX : Z := Z.lxor (Z.of_nat (String.length CHARS)) 2.
Definition ID_COUNT_HALF : Z := ID_COUNT_MAX / 2.

(** *** Set and Map primitives *)

(** Equality of two keys ([string] or [undefined]), as [Set] and [Map]
    compare them. *)
Definition tid_eqb (a b : Tid) : bool :=
  match a, b with
  | Some x, Some y => String.eqb x y
  | None, None => true
  | _, _ => false
  end.

Definition set_has (x : Tid) (s : list Tid) : bool :=
  existsb (fun y => tid_eqb y x) s.
Definition set_add (x : Tid) (s : list Tid) : list Tid :=
  if set_has x s then s else s ++ [x].
Definition set_delete (x : Tid) (s : list Tid) : list Tid :=
  List.filter (fun y => negb (tid_eqb y x)) s.

Fixpoint map_get {V} (k : Tid) (m : list (Tid * V)) : option V :=
  match m with
  | [] => None
  | (k', v) :: m' => if tid_eqb k' k then Some v else map_get k m'
  end.
Definition map_has {V} (k : Tid) (m : list (Tid * V)) : bool :=
  match map_get k m with Some _ => true | None => false end.
Fixpoint map_set {V} (k : Tid) (v : V) (m : list (Tid * V))
    : list (Tid * V) :=
  match m with
  | [] => [(k, v)]
  | (k', v') :: m' =>
      if tid_eqb k' k then (k', v) :: m'
      else (k', v') :: map_set k v m'
  end.
Definition map_delete {V} (k : Tid) (m : list (Tid * V)) : list (Tid * V) :=
  List.filter (fun kv => negb (tid_eqb (fst kv) k)) m.
Definition map_size {V} (m : list (Tid * V)) : Z := Z.of_nat (length m).

(** *** The class *)

Definition chars : list ascii := list_ascii_of_string CHARS.

(** The [collection] of [initIdPool], before it is shuffled. *)
Definition collection : list Tid :=
  fold_left
    (fun acc i =>
       fold_left
         (fun acc j => set_add (Some (String i (String j EmptyString))) acc)
         chars acc)
    chars [].

Definition swap {A} (i j : nat) (l : list A) : list A :=
  match l !! i, l !! j with
  | Some x, Some y => <[j := x]> (<[i := y]> l)
  | _, _ => l
  end.

(** The shuffle loop over [i = 0 .. array.length - 1]; [draw i] is the
    value of [Math.floor(Math.random() * array.length)] in round [i], an
    index of the array. *)
Definition shuffle {A} (draw : nat -> nat) (array : list A) : list A :=
  fold_left (fun array i => swap i (draw i) array)
            (seq 0 (length array)) array.

Definition initIdPool (draw : nat -> nat) : list Tid :=
  fold_left (fun s x => set_add x s) (shuffle draw collection) [].

(** The constructor; [expredTime || EXPIRED_TIME]. *)
Definition new (draw : nat -> nat) (expredTime : option Z) : t :=
  let expiredTime :=
    match expredTime with
    | Some e => if Js.truthyZ e then e else EXPIRED_TIME
    | None => EXPIRED_TIME
    end in
  mk (initIdPool draw) [] expiredTime.

Definition isExpiredTid (now : Z) (tid : Tid) (m : t) : bool :=
  match map_get tid (transcations m) with
  | None => false
  | Some tr => expiredAt tr <? now
  end.

Definition isValid (now : Z) (tid : Tid) (m : t) : bool :=
  map_has tid (transcations m) && negb (isExpiredTid now tid m).

Definition putbackTid (tid : Tid) (m : t) : t :=
  if negb (map_has tid (transcations m)) then m
  else mk (set_add tid (tidPool m)) (map_delete tid (transcations m))
          (expiredTime m).

Definition clearExpiredTid (now : Z) (m : t) : t :=
  let expiredTids :=
    List.filter (fun kv => isExpiredTid now (fst kv) m) (transcations m) in
  fold_left (fun m kv => putbackTid (fst kv) m) expiredTids m.

(** [forcePutback]: the loop [for (i = 0; i < size / 2; i++)] runs
    for the first [ceil(size / 2)] entries of the sorted array. *)
Definition forcePutback (m : t) : t :=
  let returnCount := (map_size (transcations m) + 1) / 2 in
  let sortedTids :=
    Js.sort (fun a b => expiredAt (snd a) - expiredAt (snd b))
            (transcations m) in
  fold_left (fun m kv => putbackTid (fst kv) m)
            (take (Z.to_nat returnCount) sortedTids) m.

Definition borrowTid (now : Z) (m : t) : Tid * t :=
  let m := if map_size (transcations m) >? ID_COUNT_HALF
           then clearExpiredTid now m else m in
  let m := if map_size (transcations m) >=? ID_COUNT_MAX
           then forcePutback m else m in
  let tid : Tid := match tidPool m with [] => None | x :: _ => x end in
  (tid, mk (set_delete tid (tidPool m)) (transcations m) (expiredTime m)).

Definition create (now : Z) (d : option Request) (m : t) : Tid * t :=
  let '(tid, m) := borrowTid now m in
  let expiredAt := now + expiredTime m in
  (tid, mk (tidPool m)
           (map_set tid (mkTranscation expiredAt d) (transcations m))
           (expiredTime m)).

Definition getData (now : Z) (tid : Tid) (m : t) : option Request :=
  if negb (isValid now tid m) then None
  else match map_get tid (transcations m) with
       | Some tr => data tr
       | None => None
       end.

Definition finish (now : Z) (tid : Tid) (m : t) : t :=
  if negb (isValid now tid m) then m else putbackTid tid m.

End TranscationManager.

(** ** info_hash_manager.ts *)

Module InfoHashManager.

Definition MAX_PEER_NUM_EACH_INFO_HASH : Z := 100.
Definition MAX_INFO_HASH_NUM : Z := 1024 * 1024.

(** [#infoHashes : Map<string, Set<Peer>>] and
    [#tokenMap : Map<string, string>]. A [Set<Peer>] holds objects:
    membership is by object identity, and the list keeps insertion
    order. *)
Record t := mk {
  infoHashes : gmap string (list Peer.t);
  tokenMap : gmap string string
}.

Definition empty : t := mk ∅ ∅.

Definition set_has (p : Peer.t) (s : list Peer.t) : bool :=
  existsb (fun x => Pos.eqb (Peer.obj x) (Peer.obj p)) s.
Definition set_add (p : Peer.t) (s : list Peer.t) : list Peer.t :=
  if set_has p s then s else s ++ [p].

Definition find (infoHash : string) (m : t) : option (list Peer.t) :=
  infoHashes m !! infoHash.

Definition findToken (infoHash : string) (m : t) : option string :=
  tokenMap m !! infoHash.

(** [prevToken && prevToken !== token] *)
Definition token_mismatch (prevToken : option string) (token : string)
    : bool :=
  match prevToken with
  | Some pt => Js.truthy pt && negb (String.eqb pt token)
  | None => false
  end.

(** [peers && peers.size >= MAX_PEER_NUM_EACH_INFO_HASH] *)
Definition peers_full (peers : option (list Peer.t)) : bool :=
  match peers with
  | Some ps => Z.of_nat (length ps) >=? MAX_PEER_NUM_EACH_INFO_HASH
  | None => false
  end.

(** [!prevToken] *)
Definition no_token (prevToken : option string) : bool :=
  match prevToken with
  | Some pt => negb (Js.truthy pt)
  | None => true
  end.

Definition add (infoHash : string) (peer : Peer.t) (token : string) (m : t)
    : t :=
  if Z.of_nat (size (infoHashes m)) >=? MAX_INFO_HASH_NUM then m
  else
    let prevToken := tokenMap m !! infoHash in
    if token_mismatch prevToken token then m
    else
      let peers := infoHashes m !! infoHash in
      if peers_full peers then m
      else
        let peers' := match peers with Some ps => ps | None => [] end in
        let tokens' :=
          if no_token prevToken then <[infoHash := token]> (tokenMap m)
          else tokenMap m in
        mk (<[infoHash := set_add peer peers']> (infoHashes m)) tokens'.

Definition addList (infoHash : string) (peers : list Peer.t)
    (token : string) (m : t) : t :=
  fold_left (fun m peer => add infoHash peer token m) peers m.

Definition remove (infoHash : string) (m : t) : t :=
  match infoHashes m !! infoHash with
  | None => m
  | Some _ => mk (delete infoHash (infoHashes m))
                 (delete infoHash (tokenMap m))
  end.

End InfoHashManager.

(** ** The toolkit's [BytesUtil.bytes2HexStr]: two lower-case hexadecimal
    digits for every byte *)

Module BytesUtil.

Definition hex_digit (n : N) : ascii :=
  match n with
  | 0%N => "0"%char | 1%N => "1"%char | 2%N => "2"%char | 3%N => "3"%char
  | 4%N => "4"%char | 5%N => "5"%char | 6%N => "6"%char | 7%N => "7"%char
  | 8%N => "8"%char | 9%N => "9"%char | 10%N => "a"%char | 11%N => "b"%char
  | 12%N => "c"%char | 13%N => "d"%char | 14%N => "e"%char | _ => "f"%char
  end.

Fixpoint bytes2HexStr (bs : list byte) : string :=
  match bs with
  | [] => EmptyString
  | b :: bs' =>
      let n := Byte.to_N b in
      String (hex_digit (N.div n 16))
             (String (hex_digit (N.modulo n 16)) (bytes2HexStr bs'))
  end.

End BytesUtil.

(** ** krpc/handler/request_handler.ts *)

Module RequestHandler.

(** What the handler reads and writes: the info-hash store, and the
    identity the next allocated object gets. *)
Record World := mkWorld {
  next_obj : positive;
  store : InfoHashManager.t
}.

Inductive Completion := Returned | Thrown.

Record Outcome := mkOutcome {
  world : World;
  sent : list Message.Sent;
  logs : list LogEvent;
  completion : Completion
}.

Definition send (n : Node.t) (r : Message.Reply) : Message.Sent :=
  Message.mkSent (Node.port n) (Node.addr n) r.

Definition handleAnnouncePeerQueryRequest (reqMsg : Message.t)
    (reqNode : Node.t) (tid : string) (w : World) : Outcome :=
  let l0 := [Log info "QUERY-ANNOUNCE_PEER received"] in
  let infoHash := a ← Message.a reqMsg; Message.info_hash a in
  let port := a ← Message.a reqMsg; Message.port a in
  let token := Message.t_ reqMsg in
  if negb (Id.isValidId infoHash) then
    mkOutcome w
      [send reqNode (Message.responseError tid Message.PROTOCOL "invalid info hash")]
      (l0 ++ [Log error "invalid info hash"]) Returned
  else if negb (match port with Some p => Js.truthyZ p | None => false end) then
    mkOutcome w
      [send reqNode (Message.responseError tid Message.PROTOCOL "invalid port")]
      (l0 ++ [Log error "invalid port"]) Returned
  else if negb (Js.truthy token) then
    mkOutcome w
      [send reqNode (Message.responseError tid Message.PROTOCOL "invalid token")]
      (l0 ++ [Log error "invalid token"]) Returned
  else
    (* past the checks, [infoHash] and [port] are present *)
    let infoHash := default [] infoHash in
    let port := default 0 port in
    let impliedPort :=
      match a ← Message.a reqMsg; Message.implied_port a with
      | Some ip => if Js.truthyZ ip then ip else 0
      | None => 0
      end in
    let tokenOfInfoHash :=
      InfoHashManager.findToken (BytesUtil.bytes2HexStr infoHash) (store w) in
    if InfoHashManager.token_mismatch tokenOfInfoHash token then
      mkOutcome w
        [send reqNode (Message.responseError tid Message.PROTOCOL "token not match")]
        (l0 ++ [Log error "invalid token"]) Returned
    else
      let infoHashHex := BytesUtil.bytes2HexStr infoHash in
      let downloadPort := if impliedPort =? 1 then Node.port reqNode else port in
      match Peer.new (next_obj w) downloadPort (Node.addr reqNode) with
      | None => mkOutcome w [] l0 Thrown
      | Some peer =>
          mkOutcome
            (mkWorld (Pos.succ (next_obj w))
                     (InfoHashManager.add infoHashHex peer token (store w)))
            [send reqNode (Message.responseAnnouncePeer tid)]
            l0 Returned
      end.

(** [handle] on an incoming query from [addr:port], the IPv4 address
    and port of the datagram (an address the [Peer] setter accepts);
    [None] for the query kinds whose handlers are not part of this
    development. [completion] is how the path that handles the query
    ends: [Thrown] is an exception in [handle] itself or in the
    sub-handler it calls; [handle] does not await the sub-handler, so
    in the second case the exception rejects the promise of the
    sub-handler and the promise of [handle] resolves. *)
Definition handle (now : Z) (reqMsg : Message.t) (addr : string) (port : Z)
    (w : World) : option Outcome :=
  let tid := Message.t_ reqMsg in
  let reqNodeId := a ← Message.a reqMsg; Message.id a in
  if negb (Id.isValidId reqNodeId) then
    Some (mkOutcome w
            [Message.mkSent port addr
               (Message.responseError tid Message.PROTOCOL "invalid node id")]
            [Log warn "invalid node id"] Returned)
  else
    match reqNodeId ≫= Id.fromUnit8Array (next_obj w) with
    | None => Some (mkOutcome w [] [] Thrown)
    | Some i =>
      match Node.new now i port addr with
      | None => Some (mkOutcome w [] [] Thrown)
      | Some reqNode =>
        let w := mkWorld (Pos.succ (next_obj w)) (store w) in
        match Message.q reqMsg with
        | Some Message.ANNOUNCE_PEER =>
            Some (handleAnnouncePeerQueryRequest reqMsg reqNode tid w)
        | Some _ => None
        | None =>
            Some (mkOutcome w [] [Log error "unknown query type"] Returned)
        end
      end
    end.

End RequestHandler.

(** ** krpc/handler/error_handler.ts *)

Module ErrorResponseHandler.

Record Outcome := mkOutcome {
  manager : TranscationManager.t;
  logs : list LogEvent;
  completion : RequestHandler.Completion
}.

Definition handle (now : Z) (response : Message.t) (address : string)
    (port : Z) (tm : TranscationManager.t) : Outcome :=
  let l0 := [Log warn "received invalid error"] in
  let error := Message.e response in
  let tid := Message.t_ response in
  if negb (Js.truthy tid) || TranscationManager.isValid now (Some tid) tm then
    mkOutcome tm (l0 ++ [Log warn "received invalid error"])
              RequestHandler.Returned
  else
    let tm := TranscationManager.finish now (Some tid) tm in
    match error with
    | None => mkOutcome tm l0 RequestHandler.Thrown
    | Some (errorCode, errorMessage) =>
        mkOutcome tm
          (l0 ++ [LogReceivedError tid address port errorCode errorMessage])
          RequestHandler.Returned
    end.

End ErrorResponseHandler.

(** ** krpc/handler/response_handler.ts: the checks of [handle] and the
    responses to ping and announce_peer *)

Module ResponseHandler.

(** What the handler reads and writes: the registry of transactions and
    the routing table, and the identity the next allocated object
    gets. *)
Record World := mkWorld {
  next_obj : positive;
  manager : TranscationManager.t;
  table : RoutingTable.t
}.

Record Outcome := mkOutcome {
  world : World;
  logs : list LogEvent;
  completion : RequestHandler.Completion
}.

(** The body [handlePingResponse] and [handleAnnouncePeerResponse]
    share: the responding node is added to the routing table. *)
Definition addRespNode (now : Z) (respNode : Node.t) (l0 : list LogEvent)
    (w : World) : Outcome :=
  match RoutingTable.add now respNode (table w) with
  | Some (added, rt) =>
      mkOutcome (mkWorld (next_obj w) (manager w) rt)
        (if added then l0
         else l0 ++ [Log error "add node to routing table failed"])
        RequestHandler.Returned
  | None => mkOutcome w l0 RequestHandler.Thrown
  end.

Definition handlePingResponse (now : Z) (respNode : Node.t) (w : World)
    : Outcome :=
  addRespNode now respNode [Log info "RESPONSE-PING received"] w.

Definition handleAnnouncePeerResponse (now : Z) (respNode : Node.t)
    (w : World) : Outcome :=
  addRespNode now respNode [Log info "RESPONSE-ANNOUNCE_PEER received"] w.

(** [handle] on a response with the transaction id [tid] and the node
    id [r.id] ([None] when [r] or [r.id] is absent), from [addr:port].
    The result is [None] for the responses to find_node and get_peers,
    whose handlers decode compact node and peer lists with the toolkit
    and are not part of this development. *)
Definition handle (now : Z) (tid : string) (id : option (list byte))
    (addr : string) (port : Z) (w : World) : option Outcome :=
  if negb (TranscationManager.isValid now (Some tid) (manager w)) then
    Some (mkOutcome w [Log warn "received a invalid tid, drop the message"]
                    RequestHandler.Returned)
  else if negb (Id.isValidId id) then
    Some (mkOutcome w
            [Log warn "response without node id or invalid, drop the message"]
            RequestHandler.Returned)
  else
    let request := TranscationManager.getData now (Some tid) (manager w) in
    let w :=
      mkWorld (next_obj w)
              (TranscationManager.finish now (Some tid) (manager w))
              (table w) in
    match request with
    | None =>
        Some (mkOutcome w
                [Log warn "received a response which is not requested by this node, drop the message"]
                RequestHandler.Returned)
    | Some request =>
        match id ≫= Id.fromUnit8Array (next_obj w) with
        | None => Some (mkOutcome w [] RequestHandler.Thrown)
        | Some i =>
            match Node.new now i port addr with
            | None => Some (mkOutcome w [] RequestHandler.Thrown)
            | Some respNode =>
                let w := mkWorld (Pos.succ (next_obj w)) (manager w)
                                 (table w) in
                match TranscationManager.type request with
                | Message.PING => Some (handlePingResponse now respNode w)
                | Message.ANNOUNCE_PEER =>
                    Some (handleAnnouncePeerResponse now respNode w)
                | Message.FIND_NODE | Message.GET_PEERS => None
                end
            end
        end
    end.

End ResponseHandler.

(** * Predicates and inputs of the statements *)

(** ** Buckets *)

(** The identities of the [Id] objects held by a list of nodes. *)
Definition id_objects (ns : list Node.t) : list positive :=
  map (fun n => Id.obj (Node.id n)) ns.

(** No two members of a bucket hold the same [Id] object: true of a new
    bucket, and kept by [remove] and [add]. *)
Definition distinct_objects (b : Bucket.t) : Prop :=
  NoDup (id_objects (Bucket.nodes b)).

(** One [Id] object wraps one value. *)
Definition one_value (i j : Id.t) : Prop :=
  Id.obj i = Id.obj j -> Id.bits i = Id.bits j.

(** A full bucket of capacity 2 and a node with a third id. *)
Definition full_bucket : Bucket.t :=
  Bucket.mk
    [Node.mk (Id.mk 2 (BitArray.mk 160 9)) 6882 "10.0.0.2" 20;
     Node.mk (Id.mk 1 (BitArray.mk 160 8)) 6881 "10.0.0.1" 10]
    2 20 (BitArray.mk 160 8) (BitArray.mk 160 15).

Definition new_node : Node.t :=
  Node.mk (Id.mk 3 (BitArray.mk 160 12)) 6883 "10.0.0.3" 25.

(** The member [old_member] and a second decoding [same_id_node] of the
    same 20 bytes: equal ids, two [Id] objects. *)
Definition old_member : Node.t :=
  Node.mk (Id.mk 1 (BitArray.mk 160 8)) 6881 "10.0.0.1" 10.
Definition same_id_node : Node.t :=
  Node.mk (Id.mk 2 (BitArray.mk 160 8)) 6999 "10.0.0.9" 40.
Definition one_member_bucket : Bucket.t :=
  Bucket.mk [old_member] 8 10 (BitArray.mk 160 8) (BitArray.mk 160 15).

(** ** Routing table *)

(** The order of a list by a key. *)
Definition key_le {A} (key : A -> Z) (a b : A) : Prop := key a <= key b.

(** The XOR-distance of a node to [target], as an unsigned integer. *)
Definition distance (target : Id.t) (n : Node.t) : Z :=
  BitArray.toBigInt (BitArray.xor (Id.bits (Node.id n)) (Id.bits target)).

(** The population of a routing table: the members of its buckets. *)
Definition population (rt : RoutingTable.t) : list Node.t :=
  concat (map Bucket.nodes (RoutingTable.buckets rt)).

Definition far_node : Node.t :=
  Node.mk (Id.mk 1 (BitArray.mk 160 (2 ^ 160 - 1))) 6881 "10.0.0.1" 0.
Definition node_4 : Node.t :=
  Node.mk (Id.mk 2 (BitArray.mk 160 4)) 6882 "10.0.0.2" 0.
Definition node_1 : Node.t :=
  Node.mk (Id.mk 3 (BitArray.mk 160 1)) 6883 "10.0.0.3" 0.
Definition node_2 : Node.t :=
  Node.mk (Id.mk 4 (BitArray.mk 160 2)) 6884 "10.0.0.4" 0.

(** A table around the local id [0] with four nodes. *)
Definition small_table : RoutingTable.t :=
  RoutingTable.mk
    (Node.mk (Id.mk 5 (BitArray.mk 160 0)) 63333 "10.0.0.5" 0)
    [Bucket.mk [far_node] 8 0 (BitArray.mk 160 (2 ^ 159)) (BitArray.ones 160);
     Bucket.mk [] 8 0 (BitArray.mk 160 8) (BitArray.mk 160 15);
     Bucket.mk [node_4] 8 0 (BitArray.mk 160 4) (BitArray.mk 160 7);
     Bucket.mk [node_2] 8 0 (BitArray.mk 160 2) (BitArray.mk 160 3);
     Bucket.mk [node_1] 8 0 (BitArray.mk 160 1) (BitArray.mk 160 1)].

(** The range of a bucket, [start <= x <= end], on integers. *)
Definition covers (b : Bucket.t) (x : Z) : Prop :=
  BitArray.value (Bucket.start b) <= x <= BitArray.value (Bucket.end_ b).

(** [bs] splits [[s, e]] without the id [local]: every bucket lies in
    the interval and misses [local], every other id of the interval is
    in a bucket, and no id is in two buckets. *)
Definition partitions (local : Z) (bs : list Bucket.t) (s e : Z) : Prop :=
  (forall b x, b ∈ bs -> covers b x -> s <= x <= e /\ x <> local) /\
  (forall x, s <= x <= e -> x <> local -> exists b, b ∈ bs /\ covers b x) /\
  (forall i j bi bj x,
      bs !! i = Some bi -> bs !! j = Some bj ->
      covers bi x -> covers bj x -> i = j).

Definition sample_local_node : Node.t :=
  Node.mk (Id.mk 1 (BitArray.mk 160 (5 * 2 ^ 100 + 77))) 63333 "10.0.0.5" 0.

(** ** Transaction registry *)

(** The registry of a new process whose shuffle drew [j = i] at every
    step, and the same registry after one [create] at time 0. *)
Definition fresh_manager : TranscationManager.t :=
  Eval vm_compute in TranscationManager.new (fun i => i) None.

Definition borrowed_once : TranscationManager.t :=
  snd (TranscationManager.create 0 None fresh_manager).

(** [n] back-to-back [create] calls, one millisecond apart from [now]
    on. *)
Fixpoint create_many (n : nat) (now : Z) (m : TranscationManager.t)
    : TranscationManager.t :=
  match n with
  | O => m
  | S n' =>
      create_many n' (now + 1) (snd (TranscationManager.create now None m))
  end.

(** The TIDs of the borrowed map. *)
Definition borrowed (m : TranscationManager.t) : list TranscationManager.Tid :=
  map fst (TranscationManager.transcations m).

(** An error message under the transaction id ["00"]. *)
Definition error_201 : Message.t :=
  Message.mk "00" Message.ERROR None None
             (Some (201, "A Generic Error Ocurred"%string)).

(** ** Info-hash store *)

(** The three guards of [add], in the order the code tests them. *)
Definition rejected (infoHash : string) (token : string)
    (m : InfoHashManager.t) : bool :=
  (Z.of_nat (size (InfoHashManager.infoHashes m))
   >=? InfoHashManager.MAX_INFO_HASH_NUM)
  || InfoHashManager.token_mismatch
       (InfoHashManager.tokenMap m !! infoHash) token
  || InfoHashManager.peers_full (InfoHashManager.infoHashes m !! infoHash).

(** A store after one announce with token ["aa"], and a second peer. *)
Definition hash_1 : string := "0101010101010101010101010101010101010101".
Definition peer_1 : Peer.t := Peer.mk 1 6881 "10.0.0.1".
Definition peer_2 : Peer.t := Peer.mk 2 6882 "10.0.0.2".
Definition store_1 : InfoHashManager.t :=
  InfoHashManager.add hash_1 peer_1 "aa" InfoHashManager.empty.

Definition nth_hash (i : nat) : string := pretty i.
Definition nth_peer (i : nat) : Peer.t :=
  Peer.mk (Pos.of_succ_nat i) 6881 "10.0.0.1".

(** The store after [n] announces of [n] different info-hashes. *)
Fixpoint fill (n : nat) : InfoHashManager.t :=
  match n with
  | O => InfoHashManager.empty
  | S n' => InfoHashManager.add (nth_hash n') (nth_peer n') "tk" (fill n')
  end.

(** A store that holds 1,048,576 info-hashes, each with one peer and the
    token ["tk"]. *)
Definition full_store : InfoHashManager.t :=
  fill (Z.to_nat InfoHashManager.MAX_INFO_HASH_NUM).

(** ** The announce_peer query *)

Definition twenty (b : byte) : list byte := repeat b 20.

(** The store holds the token ["aa"] for the info-hash; the query
    carries the token ["bb"] in its arguments, and the transaction id
    ["aa"]. *)
Definition announce_query : Message.t :=
  Message.mk "aa" Message.QUERY (Some Message.ANNOUNCE_PEER)
    (Some (Message.mkArgs (Some (twenty x07)) None (Some (twenty x01))
                          (Some 0) (Some 6881) (Some "bb"%string)))
    None.

Definition announce_world : RequestHandler.World :=
  RequestHandler.mkWorld 10 store_1.

(** ** Inputs of the further properties *)

(** A node whose id has the bytes of a member of [full_bucket], in an
    [Id] object of its own. *)
Definition stranger_node : Node.t :=
  Node.mk (Id.mk 9 (BitArray.mk 160 8)) 6889 "10.0.0.9" 40.

(** What [Bucket.add] and [RoutingTable.add] keep of a bucket: a
    positive capacity that is not exceeded, members on distinct [Id]
    objects, and members whose ids lie in the range of the bucket. *)
Definition bucket_ok (b : Bucket.t) : Prop :=
  0 < Bucket.capacity b /\
  Bucket.size b <= Bucket.capacity b /\
  distinct_objects b /\
  Forall (fun n => Bucket.withinRnage (Node.id n) b = true) (Bucket.nodes b).

Definition table_ok (rt : RoutingTable.t) : Prop :=
  Forall bucket_ok (RoutingTable.buckets rt).

(** The range and the capacity of every bucket of a table. *)
Definition ranges (rt : RoutingTable.t) : list (BitArray.t * BitArray.t * Z) :=
  map (fun b => (Bucket.start b, Bucket.end_ b, Bucket.capacity b))
      (RoutingTable.buckets rt).

(** No id lies in the range of two buckets of the table. *)
Definition disjoint_ranges (rt : RoutingTable.t) : Prop :=
  forall i j bi bj x,
    RoutingTable.buckets rt !! i = Some bi ->
    RoutingTable.buckets rt !! j = Some bj ->
    covers bi x -> covers bj x -> i = j.

(** A table of two buckets in which two nodes share the address
    [10.0.0.1]. *)
Definition shared_addr_table : RoutingTable.t :=
  RoutingTable.mk
    (Node.mk (Id.mk 5 (BitArray.mk 160 0)) 63333 "10.0.0.5" 0)
    [Bucket.mk [Node.mk (Id.mk 1 (BitArray.mk 160 9)) 6881 "10.0.0.1" 0;
                Node.mk (Id.mk 2 (BitArray.mk 160 12)) 6882 "10.0.0.2" 0]
               8 0 (BitArray.mk 160 8) (BitArray.mk 160 15);
     Bucket.mk [Node.mk (Id.mk 3 (BitArray.mk 160 5)) 6883 "10.0.0.1" 0]
               8 0 (BitArray.mk 160 4) (BitArray.mk 160 7)].

(** Whether the member [m] of the bucket [bo] survives the removal of
    the nodes of [l] that have the address [ip]. *)
Definition keeps (ip : string) (l : list Node.t) (bo : Bucket.t) (m : Node.t)
    : bool :=
  negb (existsb
          (fun n => String.eqb (Node.addr n) ip
                    && Bucket.withinRnage (Node.id n) bo
                    && Id.same (Node.id m) (Node.id n)) l).

(** The bucket [bc] is the bucket [bo] without the members that
    [keeps ip l] drops. *)
Definition pruned (ip : string) (l : list Node.t) (bo bc : Bucket.t) : Prop :=
  (Bucket.start bc, Bucket.end_ bc, Bucket.capacity bc)
  = (Bucket.start bo, Bucket.end_ bo, Bucket.capacity bo) /\
  Bucket.nodes bc = List.filter (keeps ip l bo) (Bucket.nodes bo).

(** ** The registry of transaction ids *)

(** The TIDs that are borrowed. *)
Definition borrowed_tids (m : TranscationManager.t)
    : list TranscationManager.Tid :=
  map fst (TranscationManager.transcations m).

(** No TID is free twice or borrowed twice, and none is both free and
    borrowed. *)
Definition registry_ok (m : TranscationManager.t) : Prop :=
  NoDup (TranscationManager.tidPool m) /\
  NoDup (borrowed_tids m) /\
  (forall tid, tid ∈ TranscationManager.tidPool m -> tid ∉ borrowed_tids m).

(** Every string of two characters of [CHARS], as a TID. *)
Definition two_chars : list TranscationManager.Tid :=
  flat_map
    (fun i => map (fun j => Some (String i (String j EmptyString)))
                  TranscationManager.chars)
    TranscationManager.chars.

(** The public calls that change the registry, and a run of them. *)
Inductive Call :=
| Create (now : Z) (d : option TranscationManager.Request)
| Finish (now : Z) (tid : TranscationManager.Tid).

Definition call (m : TranscationManager.t) (c : Call) : TranscationManager.t :=
  match c with
  | Create now d => snd (TranscationManager.create now d m)
  | Finish now tid => TranscationManager.finish now tid m
  end.

Definition run (cs : list Call) (m : TranscationManager.t)
    : TranscationManager.t :=
  fold_left call cs m.

(** A registry with three free TIDs and two borrowed ones, the first of
    which expires at time 100 and the second at time 300. *)
Definition small_registry : TranscationManager.t :=
  TranscationManager.mk
    [Some "00"; Some "01"; Some "02"]%string
    [(Some "0a"%string, TranscationManager.mkTranscation 100 None);
     (Some "0b"%string, TranscationManager.mkTranscation 300 None)]
    1000.

(** What a reclamation keeps: [m'] is a well-formed registry with the
    TIDs and the expiry period of [m], no more borrowed TIDs than [m],
    and a free TID if [m] has one. *)
Definition reclaims (m m' : TranscationManager.t) : Prop :=
  registry_ok m' /\
  TranscationManager.tidPool m' ++ borrowed_tids m'
    ≡ₚ TranscationManager.tidPool m ++ borrowed_tids m /\
  TranscationManager.expiredTime m' = TranscationManager.expiredTime m /\
  (TranscationManager.tidPool m <> [] -> TranscationManager.tidPool m' <> []) /\
  TranscationManager.map_size (TranscationManager.transcations m')
  <= TranscationManager.map_size (TranscationManager.transcations m).

(** ** The bounds of the info-hash store *)

(** What [add] and [remove] keep of the store: at most 1,048,576
    info-hashes; under every info-hash at least one and at most 100
    peers, no [Peer] object twice; a token for the info-hashes that hold
    peers, and for no other. *)
Definition store_ok (m : InfoHashManager.t) : Prop :=
  Z.of_nat (size (InfoHashManager.infoHashes m))
  <= InfoHashManager.MAX_INFO_HASH_NUM /\
  (forall h ps,
      InfoHashManager.infoHashes m !! h = Some ps ->
      ps <> [] /\
      Z.of_nat (length ps) <= InfoHashManager.MAX_PEER_NUM_EACH_INFO_HASH /\
      NoDup (map Peer.obj ps)) /\
  (forall h,
      is_Some (InfoHashManager.infoHashes m !! h)
      <-> is_Some (InfoHashManager.tokenMap m !! h)).

(** The calls that change the store, and a run of them. *)
Inductive StoreCall :=
| Add (infoHash : string) (peer : Peer.t) (token : string)
| AddList (infoHash : string) (peers : list Peer.t) (token : string)
| Remove (infoHash : string).

Definition store_call (m : InfoHashManager.t) (c : StoreCall)
    : InfoHashManager.t :=
  match c with
  | Add h p t => InfoHashManager.add h p t m
  | AddList h ps t => InfoHashManager.addList h ps t m
  | Remove h => InfoHashManager.remove h m
  end.

Definition store_run (cs : list StoreCall) (m : InfoHashManager.t)
    : InfoHashManager.t :=
  fold_left store_call cs m.

(** ** Responses *)

(** A world in which the transaction ["0a"] is outstanding for a ping
    sent to [10.0.0.9:6889], with the routing table [small_table]. *)
Definition ping_request : TranscationManager.Request :=
  TranscationManager.mkRequest Message.PING "10.0.0.9" 6889 None.

Definition response_world : ResponseHandler.World :=
  ResponseHandler.mkWorld 30
    (TranscationManager.mk
       [Some "00"; Some "01"]%string
       [(Some "0a"%string,
         TranscationManager.mkTranscation 1000 (Some ping_request))]
       1000)
    small_table.

(** * Properties *)

(** ** Bucket admission *)

Section BucketFacts.

Implicit Types (b : Bucket.t) (n node : Node.t) (ns : list Node.t).

Lemma find_same_None i ns :
  Bucket.find_same i ns = None <->
  Forall (fun n => Id.obj (Node.id n) <> Id.obj i) ns.
Proof.
  induction ns as [|n ns IH]; simpl.
  - split; [constructor | done].
  - unfold Id.same. destruct (Pos.eqb_spec (Id.obj (Node.id n)) (Id.obj i)).
    + split; [done | intros H; by inversion H].
    + destruct (Bucket.find_same i ns); simpl.
      * split; [done | intros H; inversion H; subst].
        by apply IH in H3.
      * split; [intros _; constructor; [done | by apply IH] | done].
Qed.

Lemma find_same_Some i ns k :
  Bucket.find_same i ns = Some k ->
  exists n, ns !! k = Some n /\ Id.obj (Node.id n) = Id.obj i.
Proof.
  revert k. induction ns as [|n ns IH]; intros k; simpl; [done|].
  unfold Id.same. destruct (Pos.eqb_spec (Id.obj (Node.id n)) (Id.obj i)).
  - intros [= <-]. by exists n.
  - destruct (Bucket.find_same i ns) as [k'|]; simpl; [|done].
    intros [= <-]. destruct (IH k' eq_refl) as (m & ? & ?). by exists m.
Qed.

Lemma find_same_snoc front tail :
  Forall (fun n => Id.obj (Node.id n) <> Id.obj (Node.id tail)) front ->
  Bucket.find_same (Node.id tail) (front ++ [tail]) = Some (length front).
Proof.
  induction 1 as [|n front Hn _ IH]; simpl.
  - unfold Id.same. by rewrite Pos.eqb_refl.
  - unfold Id.same. destruct (Pos.eqb_spec (Id.obj (Node.id n))
                                (Id.obj (Node.id tail))); [done|].
    by rewrite IH.
Qed.

Lemma delete_snoc {A} (front : list A) (x : A) :
  delete (length front) (front ++ [x]) = front.
Proof. induction front; simpl; [done | by f_equal]. Qed.

Lemma id_objects_alter_update now p a k ns :
  id_objects (alter (Node.update now p a) k ns) = id_objects ns.
Proof.
  revert k. induction ns as [|n ns IH]; intros [|k]; simpl; try done.
  f_equal. apply IH.
Qed.

Lemma id_objects_delete_NoDup k ns :
  NoDup (id_objects ns) -> NoDup (id_objects (delete k ns)).
Proof.
  intros H. eapply sublist_NoDup; [exact H|].
  apply (fmap_sublist (fun n => Id.obj (Node.id n))), sublist_delete.
Qed.

Lemma id_objects_delete_notin o k ns :
  o ∉ id_objects ns -> o ∉ id_objects (delete k ns).
Proof.
  intros H Hin. apply H.
  eapply elem_of_sublist; [exact Hin|].
  apply (fmap_sublist (fun n => Id.obj (Node.id n))), sublist_delete.
Qed.

Lemma new_distinct_objects now cap s e b :
  Bucket.new now cap s e = Some b -> distinct_objects b /\ 0 < Bucket.capacity b.
Proof.
  unfold Bucket.new. repeat case_match; try done.
  intros [= <-]. split; [constructor | simpl; lia].
Qed.

Lemma remove_distinct_objects now n b :
  distinct_objects b -> distinct_objects (snd (Bucket.remove now n b)).
Proof.
  unfold distinct_objects, Bucket.remove. simpl. intros H.
  destruct (Bucket.find_same _ _); simpl; [|done].
  by apply id_objects_delete_NoDup.
Qed.

Lemma add_distinct_objects now n b r b' :
  distinct_objects b -> Bucket.add now n b = Some (r, b') ->
  distinct_objects b'.
Proof.
  unfold distinct_objects, Bucket.add. simpl. intros H.
  destruct (Bucket.find_same (Node.id n) (Bucket.nodes b)) as [k|] eqn:Hf.
  - intros [= <- <-]. simpl. by rewrite id_objects_alter_update.
  - apply find_same_None in Hf.
    assert (Id.obj (Node.id n) ∉ id_objects (Bucket.nodes b)) as Hnotin.
    { unfold id_objects. intros Hin. apply list_elem_of_fmap in Hin.
      destruct Hin as (m & Heq & Hm).
      rewrite Forall_forall in Hf. by apply (Hf m). }
    destruct (Bucket.isFull _).
    + destruct (Bucket.oldest _) as [o|]; [|done].
      unfold Bucket.remove; simpl.
      destruct (Bucket.find_same (Node.id o) _); simpl; intros [= <- <-]; simpl;
        constructor; auto using id_objects_delete_NoDup, id_objects_delete_notin.
    + intros [= <- <-]. simpl. by constructor.
Qed.

End BucketFacts.

Section BucketAdmission.

Implicit Types (b : Bucket.t) (n node : Node.t).

Lemma BitArray_equals_refl x : BitArray.equals x x = true.
Proof. unfold BitArray.equals. by rewrite !Z.eqb_refl. Qed.

Lemma other_value_other_object i j :
  one_value i j -> Id.equals i j = false -> Id.obj i <> Id.obj j.
Proof.
  unfold one_value, Id.equals. intros Hone Hne Hobj.
  rewrite (Hone Hobj), BitArray_equals_refl in Hne. done.
Qed.

(** [add] recognises a member by the identity of its [Id] object: the
    member is refreshed in place and [add] returns [false]. *)
Lemma add_same_object now node b k :
  Bucket.find_same (Node.id node) (Bucket.nodes b) = Some k ->
  exists b',
    Bucket.add now node b = Some (false, b') /\
    Bucket.nodes b' =
      alter (Node.update now (Node.port node) (Node.addr node)) k
            (Bucket.nodes b) /\
    id_objects (Bucket.nodes b') = id_objects (Bucket.nodes b).
Proof.
  intros Hfind. unfold Bucket.add. simpl. rewrite Hfind.
  eexists. split; [done|]. split; [done|]. apply id_objects_alter_update.
Qed.

(** A node whose [Id] is another object than that of every member is
    admitted as a new member of a bucket that has room, whatever the
    bytes of its id are. *)
Lemma add_other_object now node b :
  Forall (fun m => Id.obj (Node.id m) <> Id.obj (Node.id node)) (Bucket.nodes b) ->
  Bucket.isFull b = false ->
  Bucket.add now node b =
    Some (true, Bucket.set_nodes
                  (Node.updateActivedAt now node :: Bucket.nodes b)
                  (Bucket.touch now b)).
Proof.
  intros Hobj Hfull. unfold Bucket.add.
  apply find_same_None in Hobj. simpl. rewrite Hobj.
  replace (Bucket.isFull (Bucket.touch now b)) with (Bucket.isFull b) by done.
  by rewrite Hfull.
Qed.

(** C9. In a full bucket (positive capacity, as the constructor
    demands, and members that hold distinct [Id] objects, as [add] and
    [remove] keep them), adding a node whose id is byte-equal to no
    member's id removes the member at the tail of the list (the oldest),
    puts the node at the head with [activedAt = now], returns [true],
    and leaves the bucket no larger than its capacity. *)
Theorem add_full_evicts_tail now node b :
  0 < Bucket.capacity b ->
  Bucket.size b = Bucket.capacity b ->
  distinct_objects b ->
  Forall (fun m => one_value (Node.id m) (Node.id node)) (Bucket.nodes b) ->
  Forall (fun m => Id.equals (Node.id m) (Node.id node) = false)
         (Bucket.nodes b) ->
  exists front tail b',
    Bucket.nodes b = front ++ [tail] /\
    Bucket.oldest b = Some tail /\
    Bucket.add now node b = Some (true, b') /\
    Bucket.nodes b' = Node.updateActivedAt now node :: front /\
    Node.activedAt (Node.updateActivedAt now node) = now /\
    Bucket.size b' <= Bucket.capacity b'.
Proof.
  intros Hcap Hsize Hdistinct Hone Hne.
  destruct b as [ns cap upd s e]. unfold Bucket.size, distinct_objects in *.
  simpl in *.
  destruct (decide (ns = [])) as [->|Hnil]; [simpl in *; lia|].
  destruct (exists_last Hnil) as (front & tail & ->).
  assert (Bucket.find_same (Node.id node) (front ++ [tail]) = None) as Hfind.
  { apply find_same_None. rewrite Forall_forall in Hone, Hne |- *.
    intros m Hm. apply other_value_other_object; auto. }
  assert (Bucket.find_same (Node.id tail) (front ++ [tail])
          = Some (length front)) as Htail.
  { apply find_same_snoc. unfold id_objects in Hdistinct.
    rewrite fmap_app in Hdistinct. apply NoDup_app in Hdistinct.
    destruct Hdistinct as (_ & Hdisj & _).
    rewrite Forall_forall. intros m Hm Heq.
    apply (Hdisj (Id.obj (Node.id m))).
    - apply list_elem_of_fmap. by exists m.
    - rewrite Heq. simpl. apply list_elem_of_singleton. done. }
  exists front, tail.
  eexists. split; [done|]. split; [apply last_snoc|].
  unfold Bucket.add, Bucket.isFull, Bucket.oldest, Bucket.remove, Bucket.size.
  simpl. rewrite Hfind, last_snoc. simpl. rewrite Htail, delete_snoc.
  destruct (Z.geb_spec (Z.of_nat (length (front ++ [tail]))) cap); [|lia].
  simpl. split; [done|]. split; [done|]. split; [done|].
  rewrite length_app in Hsize. simpl in *. lia.
Qed.

Lemma add_full_evicts_tail_witness :
  exists front tail b',
    Bucket.nodes full_bucket = front ++ [tail] /\
    Bucket.oldest full_bucket = Some tail /\
    Bucket.add 30 new_node full_bucket = Some (true, b') /\
    Bucket.nodes b' = Node.updateActivedAt 30 new_node :: front /\
    Node.activedAt (Node.updateActivedAt 30 new_node) = 30 /\
    Bucket.size b' <= Bucket.capacity b'.
Proof.
  apply (add_full_evicts_tail 30 new_node full_bucket).
  - simpl. lia.
  - reflexivity.
  - unfold distinct_objects. compute_done.
  - repeat constructor; intros ?; discriminate.
  - repeat constructor.
Defined.

(** C3. [add] finds a member by [n.id === node.id], the identity of
    the [Id] objects: a node whose id is byte-equal to a member's but
    held in another object is not recognised. It is inserted at the
    head, the member is not refreshed, and [add] returns [true]. *)
Theorem add_byte_equal_id_is_inserted :
  Id.equals (Node.id same_id_node) (Node.id old_member) = true /\
  Bucket.add 50 same_id_node one_member_bucket =
    Some (true,
          Bucket.mk [Node.updateActivedAt 50 same_id_node; old_member]
                    8 50 (BitArray.mk 160 8) (BitArray.mk 160 15)).
Proof. split; reflexivity. Qed.

End BucketAdmission.

(** ** Sorting with a comparator that follows a key *)

Section SortFacts.

Context {A : Type} (key : A -> Z) (cmp : A -> A -> Z).
Hypothesis cmp_key : forall a b, (cmp a b <? 0) = (key a <? key b).

Lemma insert_Permutation p l : Js.insert cmp p l ≡ₚ p :: l.
Proof.
  induction l as [|y ys IH]; simpl; [done|].
  destruct (cmp p y <? 0); [done|].
  rewrite IH. apply Permutation_swap.
Qed.

Lemma insert_StronglySorted p l :
  StronglySorted (key_le key) l -> StronglySorted (key_le key) (Js.insert cmp p l).
Proof.
  induction 1 as [|y ys Hys IH Hy]; simpl.
  - repeat constructor.
  - rewrite cmp_key. destruct (Z.ltb_spec (key p) (key y)) as [Hlt|Hge].
    + constructor; [by constructor|].
      constructor; [unfold key_le; lia|].
      eapply Forall_impl; [exact Hy|]. unfold key_le. intros; simpl in *; lia.
    + constructor; [done|].
      rewrite insert_Permutation. by constructor.
Qed.

Lemma sort_from_Permutation l acc :
  fold_left (fun acc p => Js.insert cmp p acc) l acc ≡ₚ acc ++ l.
Proof.
  revert acc. induction l as [|x l IH]; intros acc; simpl.
  - by rewrite app_nil_r.
  - rewrite IH, insert_Permutation. simpl. apply Permutation_middle.
Qed.

Lemma sort_from_StronglySorted l acc :
  StronglySorted (key_le key) acc ->
  StronglySorted (key_le key) (fold_left (fun acc p => Js.insert cmp p acc) l acc).
Proof.
  revert acc. induction l as [|x l IH]; intros acc Hacc; simpl; [done|].
  by apply IH, insert_StronglySorted.
Qed.

Lemma sort_Permutation l : Js.sort cmp l ≡ₚ l.
Proof. unfold Js.sort. by rewrite sort_from_Permutation. Qed.

Lemma sort_StronglySorted l : StronglySorted (key_le key) (Js.sort cmp l).
Proof. apply sort_from_StronglySorted. constructor. Qed.

Lemma StronglySorted_take_drop k l :
  StronglySorted (key_le key) l ->
  StronglySorted (key_le key) (take k l) /\
  (forall a b, a ∈ take k l -> b ∈ drop k l -> key a <= key b).
Proof.
  intros Hl. rewrite <- (take_drop k l) in Hl.
  apply StronglySorted_app in Hl. destruct Hl as (Hle & Ht & _).
  split; [done|]. intros a b Ha Hb. by apply Hle.
Qed.

End SortFacts.

(** ** Closest nodes *)

Section ClosestNodes.

Implicit Types (rt : RoutingTable.t) (target : Id.t).

Lemma closer_distance target a b :
  (RoutingTable.closer target a b <? 0) = (distance target a <? distance target b).
Proof.
  unfold RoutingTable.closer, distance, BitArray.lessThan, BitArray.toBigInt.
  simpl. by destruct (Z.lxor _ _ <? Z.lxor _ _).
Qed.

Lemma getAllNodes_population rt : RoutingTable.getAllNodes rt = population rt.
Proof.
  unfold RoutingTable.getAllNodes, population.
  enough (forall bs acc,
    fold_left (fun ns b => if Bucket.isEmpty b then ns else ns ++ Bucket.nodes b)
              bs acc = acc ++ concat (map Bucket.nodes bs)) as H by apply H.
  induction bs as [|b bs IH]; intros acc; simpl.
  - by rewrite app_nil_r.
  - rewrite IH. unfold Bucket.isEmpty, Bucket.size.
    destruct (Bucket.nodes b); simpl; [done|]. by rewrite <- app_assoc.
Qed.

Lemma nodeCount_population rt :
  RoutingTable.nodeCount rt = Z.of_nat (length (population rt)).
Proof.
  unfold RoutingTable.nodeCount, population.
  enough (forall bs acc,
    fold_left (fun count b => count + Bucket.size b) bs acc
    = acc + Z.of_nat (length (concat (map Bucket.nodes bs)))) as H by apply H.
  induction bs as [|b bs IH]; intros acc; simpl.
  - lia.
  - rewrite IH, length_app. unfold Bucket.size. lia.
Qed.

(** C7. For a count [0 <= k], [findClosestNodes(target, k)] returns
    [min(k, |P|)] nodes, in ascending order of XOR-distance to
    [target]; they are elements of the population [P], and every other
    element of [P] is at least as far from [target] as each of them. *)
Theorem findClosestNodes_least_distance target k rt :
  0 <= k ->
  let result := RoutingTable.findClosestNodes target k rt in
  Z.of_nat (length result) = Z.min k (Z.of_nat (length (population rt))) /\
  StronglySorted (fun a b => distance target a <= distance target b) result /\
  exists others,
    population rt ≡ₚ result ++ others /\
    (forall a b, a ∈ result -> b ∈ others ->
                 distance target a <= distance target b).
Proof.
  intros Hk. unfold RoutingTable.findClosestNodes.
  rewrite nodeCount_population, getAllNodes_population.
  set (P := population rt).
  set (sorted := Js.sort (RoutingTable.closer target) P).
  assert (sorted ≡ₚ P) as Hperm
    by apply (sort_Permutation (RoutingTable.closer target)).
  assert (StronglySorted (key_le (distance target)) sorted) as Hsorted
    by apply (sort_StronglySorted _ _ (closer_distance target)).
  assert (length sorted = length P) as Hlen by by rewrite Hperm.
  unfold Js.slice0. rewrite Hlen.
  destruct (Z.ltb_spec (Z.min (Z.of_nat (length P)) k) 0) as [?|_]; [lia|].
  set (c := Z.to_nat (Z.min (Z.min (Z.of_nat (length P)) k)
                            (Z.of_nat (length P)))).
  destruct (StronglySorted_take_drop (distance target) c sorted Hsorted)
    as [Htake Hle].
  simpl. split; [|split].
  - rewrite length_take, Hlen. unfold c. lia.
  - exact Htake.
  - exists (drop c sorted). split; [|exact Hle].
    by rewrite take_drop.
Qed.

Example findClosestNodes_small_table :
  RoutingTable.findClosestNodes (Id.mk 6 (BitArray.mk 160 0)) 3 small_table
  = [node_1; node_2; node_4].
Proof. reflexivity. Qed.

Lemma findClosestNodes_least_distance_witness :
  let target := Id.mk 6 (BitArray.mk 160 0) in
  let result := RoutingTable.findClosestNodes target 3 small_table in
  Z.of_nat (length result) = Z.min 3 (Z.of_nat (length (population small_table))) /\
  StronglySorted (fun a b => distance target a <= distance target b) result /\
  exists others,
    population small_table ≡ₚ result ++ others /\
    (forall a b, a ∈ result -> b ∈ others ->
                 distance target a <= distance target b).
Proof.
  apply (findClosestNodes_least_distance (Id.mk 6 (BitArray.mk 160 0)) 3
           small_table).
  lia.
Defined.

End ClosestNodes.

(** ** The buckets of a new routing table *)

Section BucketPartition.

Variables (now : Z) (localId : Id.t).
Hypothesis local_length : BitArray.length (Id.bits localId) = 160.

Local Abbreviation local := (BitArray.value (Id.bits localId)).

Lemma withinRnage_covers i b :
  Bucket.withinRnage i b = true <-> covers b (BitArray.value (Id.bits i)).
Proof.
  unfold Bucket.withinRnage, covers, BitArray.greaterThanOrEqual,
    BitArray.lessThanOrEqual.
  rewrite andb_true_iff, Z.geb_le, Z.leb_le. tauto.
Qed.

Lemma partitions_nil s : s = local -> partitions local [] s s.
Proof.
  intros Hs. split; [|split].
  - by intros b x Hb%elem_of_nil.
  - intros x Hx Hne. lia.
  - intros i j bi bj x Hi. by rewrite lookup_nil in Hi.
Qed.

(** A bucket [o] on one half of [[s, e]] in front of a split of the
    other half, the one that holds the local id. *)
Lemma partitions_cons o bs s e so eo sl el :
  (forall x, covers o x <-> so <= x <= eo) ->
  partitions local bs sl el ->
  sl <= local <= el ->
  (forall x, s <= x <= e <-> so <= x <= eo \/ sl <= x <= el) ->
  (forall x, ~ (so <= x <= eo /\ sl <= x <= el)) ->
  partitions local (o :: bs) s e.
Proof.
  intros Ho (Hin & Hall & Hone) Hlocal Hsplit Hdisj. split; [|split].
  - intros b x [->|Hb]%elem_of_cons Hcov.
    + apply Ho in Hcov. split; [apply Hsplit; tauto|].
      intros ->. apply (Hdisj local). tauto.
    + destruct (Hin b x Hb Hcov). split; [apply Hsplit; tauto | done].
  - intros x Hx Hne. apply Hsplit in Hx as [Hx|Hx].
    + exists o. split; [left | by apply Ho].
    + destruct (Hall x Hx Hne) as (b & Hb & Hcov).
      exists b. split; [by right | done].
  - intros [|i] [|j] bi bj x Hi Hj Hci Hcj; simpl in *.
    + done.
    + exfalso. injection Hi as <-. apply Ho in Hci.
      apply list_elem_of_lookup_2 in Hj.
      destruct (Hin bj x Hj Hcj). apply (Hdisj x). tauto.
    + exfalso. injection Hj as <-. apply Ho in Hcj.
      apply list_elem_of_lookup_2 in Hi.
      destruct (Hin bi x Hi Hci). apply (Hdisj x). tauto.
    + f_equal. by apply (Hone i j bi bj x).
Qed.

Lemma fromBigInt_fits v :
  0 <= v < 2 ^ 160 -> BitArray.fromBigInt v 160 = Some (BitArray.mk 160 v).
Proof.
  intros Hv. unfold BitArray.fromBigInt.
  destruct (Z.leb_spec 0 v); [|lia].
  destruct (Z.ltb_spec v (2 ^ 160)); [done | lia].
Qed.

Lemma Bucket_new_range s e :
  s <= e ->
  Bucket.new now RoutingTable.BUCKET_CAPACITY (BitArray.mk 160 s)
             (BitArray.mk 160 e)
  = Some (Bucket.mk [] RoutingTable.BUCKET_CAPACITY now
                    (BitArray.mk 160 s) (BitArray.mk 160 e)).
Proof.
  intros Hse. unfold Bucket.new, BitArray.greaterThan. simpl.
  destruct (Z.gtb_spec s e); [lia | done].
Qed.

Lemma generateBuckets_unfold fuel start end_ :
  RoutingTable.generateBuckets (S fuel) now localId start end_ =
    match BitArray.fromBigInt
            (Z.quot (BitArray.toBigInt start + BitArray.toBigInt end_ - 1) 2)
            160 with
    | None => RoutingTable.Throw
    | Some leftEnd =>
      match BitArray.fromBigInt (BitArray.toBigInt leftEnd + 1) 160 with
      | None => RoutingTable.Throw
      | Some rightStart =>
        if BitArray.equals start end_
           && BitArray.equals start (Id.bits localId)
        then RoutingTable.Ok []
        else
          match Bucket.new now RoutingTable.BUCKET_CAPACITY start leftEnd with
          | None => RoutingTable.Throw
          | Some leftBu =>
            match Bucket.new now RoutingTable.BUCKET_CAPACITY rightStart end_ with
            | None => RoutingTable.Throw
            | Some rightBu =>
              if Bucket.withinRnage localId leftBu then
                match RoutingTable.generateBuckets fuel now localId start leftEnd with
                | RoutingTable.Ok bs => RoutingTable.Ok (rightBu :: bs)
                | RoutingTable.Throw => RoutingTable.Throw
                | RoutingTable.OutOfFuel => RoutingTable.OutOfFuel
                end
              else if Bucket.withinRnage localId rightBu then
                match RoutingTable.generateBuckets fuel now localId rightStart end_ with
                | RoutingTable.Ok bs => RoutingTable.Ok (leftBu :: bs)
                | RoutingTable.Throw => RoutingTable.Throw
                | RoutingTable.OutOfFuel => RoutingTable.OutOfFuel
                end
              else RoutingTable.Throw
            end
          end
      end
    end.
Proof. reflexivity. Qed.

Lemma equals_mk s e :
  BitArray.equals (BitArray.mk 160 s) (BitArray.mk 160 e) = (s =? e).
Proof. reflexivity. Qed.

Lemma equals_local s :
  BitArray.equals (BitArray.mk 160 s) (Id.bits localId) = (s =? local).
Proof. unfold BitArray.equals. simpl. by rewrite local_length. Qed.

Lemma withinRnage_mk ns cap upd s e :
  Bucket.withinRnage localId
    (Bucket.mk ns cap upd (BitArray.mk 160 s) (BitArray.mk 160 e))
  = (local >=? s) && (local <=? e).
Proof. reflexivity. Qed.

Lemma covers_mk ns cap upd s e x :
  covers (Bucket.mk ns cap upd (BitArray.mk 160 s) (BitArray.mk 160 e)) x
  <-> s <= x <= e.
Proof. reflexivity. Qed.

(** The midpoint [(start + end - 1) / 2] of an interval of width
    [2 * w], and of a single id. *)
Lemma quot_mid s w :
  0 <= s -> 1 <= w -> Z.quot (s + (s + 2 * w - 1) - 1) 2 = s + w - 1.
Proof.
  intros Hs Hw. rewrite Z.quot_div_nonneg by lia.
  replace (s + (s + 2 * w - 1) - 1) with ((s + w - 1) * 2) by lia.
  apply Z.div_mul. lia.
Qed.

Lemma quot_single s :
  0 <= s -> Z.quot (s + s - 1) 2 = if s =? 0 then 0 else s - 1.
Proof.
  intros Hs. destruct (Z.eqb_spec s 0) as [->|Hne]; [done|].
  rewrite Z.quot_div_nonneg by lia.
  replace (s + s - 1) with (1 + (s - 1) * 2) by lia.
  rewrite Z.div_add by lia. change (1 / 2) with 0. lia.
Qed.

(** The recursion on an interval of [2 ^ k] ids that holds the local
    id: with more than [k] units of fuel it returns [k] buckets that
    split the interval. *)
Lemma generateBuckets_partitions (k : nat) :
  forall (fuel : nat) (s : Z),
    (k < fuel)%nat -> 0 <= s -> s + 2 ^ Z.of_nat k <= 2 ^ 160 ->
    s <= local < s + 2 ^ Z.of_nat k ->
    exists bs,
      RoutingTable.generateBuckets fuel now localId (BitArray.mk 160 s)
        (BitArray.mk 160 (s + 2 ^ Z.of_nat k - 1)) = RoutingTable.Ok bs /\
      length bs = k /\
      partitions local bs s (s + 2 ^ Z.of_nat k - 1).
Proof.
  induction k as [|k IH]; intros fuel s Hfuel Hs Hfit Hlocal;
    (destruct fuel as [|fuel]; [lia|]); rewrite generateBuckets_unfold;
    cbn [BitArray.toBigInt BitArray.value].
  - change (2 ^ Z.of_nat 0) with 1 in *.
    replace (s + 1 - 1) with s by lia.
    assert (1 < 2 ^ 160) as Hone by done.
    rewrite (quot_single s Hs).
    assert (0 <= (if s =? 0 then 0 else s - 1) < s + 1 - (if s =? 0 then 0 else 1)) as Hq
      by (destruct (Z.eqb_spec s 0); lia).
    rewrite fromBigInt_fits by (destruct (s =? 0); lia).
    cbn [BitArray.toBigInt BitArray.value].
    rewrite fromBigInt_fits by (destruct (s =? 0); lia).
    rewrite equals_mk, equals_local, Z.eqb_refl.
    destruct (Z.eqb_spec s local); [|lia]. simpl.
    exists []. split; [done|]. split; [done|]. by apply partitions_nil.
  - rewrite Nat2Z.inj_succ, Z.pow_succ_r in * by lia.
    set (w := 2 ^ Z.of_nat k) in *.
    assert (1 <= w) as Hw by (unfold w; pose proof (Z.pow_pos_nonneg 2 (Z.of_nat k)); lia).
    rewrite quot_mid by done.
    rewrite fromBigInt_fits by lia.
    cbn [BitArray.toBigInt BitArray.value].
    rewrite fromBigInt_fits by lia.
    rewrite equals_mk.
    destruct (Z.eqb_spec s (s + 2 * w - 1)); [lia|]. simpl andb. cbv iota.
    rewrite !Bucket_new_range by lia.
    rewrite !withinRnage_mk.
    destruct (Z.geb_spec local s); [|lia].
    destruct (Z.leb_spec local (s + w - 1)) as [Hleft|Hright]; simpl andb; cbv iota.
    + destruct (IH fuel s) as (bs & -> & Hlen & Hpart); try lia.
      eexists. split; [done|]. split; [simpl; by rewrite Hlen|].
      eapply partitions_cons; [apply covers_mk | exact Hpart | | |]; lia.
    + destruct (Z.geb_spec local (s + w - 1 + 1)); [|lia].
      destruct (Z.leb_spec local (s + 2 * w - 1)); [|lia]. simpl andb. cbv iota.
      destruct (IH fuel (s + w)) as (bs & Hgen & Hlen & Hpart); try lia.
      replace (s + w - 1 + 1) with (s + w) by lia.
      replace (s + 2 * w - 1) with (s + w + w - 1) by lia.
      rewrite Hgen.
      eexists. split; [done|]. split; [simpl; by rewrite Hlen|].
      eapply partitions_cons; [apply covers_mk | exact Hpart | | |]; lia.
Qed.

End BucketPartition.

(** C8. For a local node with a 160-bit id, the initialisation of the
    routing table returns (the recursion needs no more than 161 levels)
    a table of exactly 160 buckets; no id lies in the ranges of two of
    them; the ids in their ranges are the whole id space
    [[0, 2^160 - 1]] without the local id; so every id other than the
    local one is within the range of exactly one bucket. *)
Theorem init_partitions_id_space (fuel : nat) (now : Z) (ln : Node.t) :
  BitArray.length (Id.bits (Node.id ln)) = 160 ->
  0 <= BitArray.value (Id.bits (Node.id ln)) < 2 ^ 160 ->
  (160 < fuel)%nat ->
  exists bs,
    RoutingTable.init fuel now ln = RoutingTable.Ok (RoutingTable.mk ln bs) /\
    length bs = 160%nat /\
    (forall i j bi bj x,
        bs !! i = Some bi -> bs !! j = Some bj -> i <> j ->
        ~ (covers bi x /\ covers bj x)) /\
    (forall x,
        (x = BitArray.value (Id.bits (Node.id ln))
         \/ exists b, b ∈ bs /\ covers b x)
        <-> 0 <= x < 2 ^ 160) /\
    (forall b, b ∈ bs -> ~ covers b (BitArray.value (Id.bits (Node.id ln)))) /\
    (forall i : Id.t,
        0 <= BitArray.value (Id.bits i) < 2 ^ 160 ->
        BitArray.value (Id.bits i) <> BitArray.value (Id.bits (Node.id ln)) ->
        exists k b,
          bs !! k = Some b /\ Bucket.withinRnage i b = true /\
          forall k' b', bs !! k' = Some b' ->
                        Bucket.withinRnage i b' = true -> k' = k).
Proof.
  intros Hlen Hlocal Hfuel.
  destruct (generateBuckets_partitions now (Node.id ln) Hlen 160 fuel 0)
    as (bs & Hgen & Hlength & Hin & Hall & Hone); [done | done | done | lia |].
  change (Z.of_nat 160) with 160 in *.
  exists bs. split.
  { unfold RoutingTable.init.
    assert (RoutingTable.initBuckets fuel now (Node.id ln) = RoutingTable.Ok bs)
      as -> by exact Hgen.
    done. }
  split; [exact Hlength|].
  split; [|split; [|split]].
  - intros i j bi bj x Hi Hj Hne [Hci Hcj]. apply Hne. by apply (Hone i j bi bj x).
  - intros x. split.
    + intros [->|(b & Hb & Hcov)]; [done|]. destruct (Hin b x Hb Hcov). lia.
    + intros Hx.
      destruct (decide (x = BitArray.value (Id.bits (Node.id ln)))) as [->|Hne];
        [by left | right].
      apply Hall; [lia | done].
  - intros b Hb Hcov. by destruct (Hin b _ Hb Hcov).
  - intros i Hi Hne.
    destruct (Hall (BitArray.value (Id.bits i))) as (b & Hb & Hcov); [lia|done|].
    apply list_elem_of_lookup_1 in Hb as [k Hk].
    exists k, b. split; [done|]. split; [by apply withinRnage_covers|].
    intros k' b' Hk' Hw. apply withinRnage_covers in Hw.
    by apply (Hone k' k b' b (BitArray.value (Id.bits i))).
Qed.

Lemma init_partitions_id_space_witness :
  exists bs,
    RoutingTable.init 161 0 sample_local_node
    = RoutingTable.Ok (RoutingTable.mk sample_local_node bs) /\
    length bs = 160%nat /\
    (forall i j bi bj x,
        bs !! i = Some bi -> bs !! j = Some bj -> i <> j ->
        ~ (covers bi x /\ covers bj x)) /\
    (forall x,
        (x = BitArray.value (Id.bits (Node.id sample_local_node))
         \/ exists b, b ∈ bs /\ covers b x)
        <-> 0 <= x < 2 ^ 160) /\
    (forall b, b ∈ bs ->
               ~ covers b (BitArray.value (Id.bits (Node.id sample_local_node)))) /\
    (forall i : Id.t,
        0 <= BitArray.value (Id.bits i) < 2 ^ 160 ->
        BitArray.value (Id.bits i)
        <> BitArray.value (Id.bits (Node.id sample_local_node)) ->
        exists k b,
          bs !! k = Some b /\ Bucket.withinRnage i b = true /\
          forall k' b', bs !! k' = Some b' ->
                        Bucket.withinRnage i b' = true -> k' = k).
Proof.
  apply (init_partitions_id_space 161 0 sample_local_node).
  - reflexivity.
  - split; [discriminate | reflexivity].
  - lia.
Defined.

(** The table of two-bit ids drawn in the comment of [initBuckets]
    scales up: around the local id [0] the first bucket is the upper
    half of the id space and the last one is the single id [1]. *)
Example initBuckets_local_zero :
  match RoutingTable.initBuckets 161 0 (Id.mk 1 (BitArray.mk 160 0)) with
  | RoutingTable.Ok bs =>
      head bs = Some (Bucket.mk [] 8 0 (BitArray.mk 160 (2 ^ 159))
                                (BitArray.mk 160 (2 ^ 160 - 1)))
      /\ last bs = Some (Bucket.mk [] 8 0 (BitArray.mk 160 1) (BitArray.mk 160 1))
  | _ => False
  end.
Proof. vm_compute. split; reflexivity. Qed.

(** ** The transaction registry *)

Section TranscationFacts.

Import TranscationManager.

Implicit Types (m : TranscationManager.t) (tid : TranscationManager.Tid).

Lemma map_has_delete {V} (k : Tid) (l : list (Tid * V)) :
  map_has k (map_delete k l) = false.
Proof.
  unfold map_has. induction l as [|[k' v] l IH]; simpl; [done|].
  destruct (tid_eqb k' k) eqn:Hk; simpl; [done|]. by rewrite Hk.
Qed.

Lemma tid_eqb_refl (x : Tid) : tid_eqb x x = true.
Proof. destruct x; simpl; [apply String.eqb_refl | done]. Qed.

Lemma set_has_add (x : Tid) (s : list Tid) : set_has x (set_add x s) = true.
Proof.
  unfold set_add. destruct (set_has x s) eqn:Hs; [done|].
  unfold set_has. rewrite existsb_app. simpl.
  by rewrite tid_eqb_refl, orb_true_r.
Qed.

(** [finish] on a borrowed, unexpired TID returns it to the pool. *)
Lemma finish_valid now tid m :
  isValid now tid m = true ->
  finish now tid m = putbackTid tid m /\
  map_has tid (transcations (finish now tid m)) = false /\
  set_has tid (tidPool (finish now tid m)) = true.
Proof.
  intros Hvalid. unfold finish. rewrite Hvalid. simpl.
  unfold isValid in Hvalid. apply andb_true_iff in Hvalid as [Hhas _].
  unfold putbackTid. rewrite Hhas. simpl.
  split; [done|]. split; [apply map_has_delete | apply set_has_add].
Qed.

(** C6, as the code has it. For a TID that is in the borrowed map and
    whose expiry time has passed, [finish(tid)] changes nothing: the TID
    stays in the borrowed map and the free pool is as before. *)
Theorem finish_expired_unchanged now tid m :
  map_has tid (transcations m) = true ->
  isExpiredTid now tid m = true ->
  finish now tid m = m /\
  map_has tid (transcations (finish now tid m)) = true /\
  tidPool (finish now tid m) = tidPool m.
Proof.
  intros Hhas Hexpired. unfold finish, isValid.
  rewrite Hhas, Hexpired. simpl. done.
Qed.

Lemma fresh_manager_new :
  fresh_manager = TranscationManager.new (fun i => i) None.
Proof. vm_compute. reflexivity. Qed.

Example fresh_manager_pool :
  length (tidPool fresh_manager) = 3844%nat /\
  transcations fresh_manager = [] /\
  expiredTime fresh_manager = 86400000 /\
  fst (create 0 None fresh_manager) = Some "00"%string.
Proof. vm_compute. repeat split; reflexivity. Qed.

Lemma finish_expired_unchanged_witness :
  finish 86400001 (Some "00"%string) borrowed_once = borrowed_once /\
  map_has (Some "00"%string)
          (transcations (finish 86400001 (Some "00"%string) borrowed_once)) = true /\
  tidPool (finish 86400001 (Some "00"%string) borrowed_once)
  = tidPool borrowed_once.
Proof.
  apply (finish_expired_unchanged 86400001 (Some "00"%string) borrowed_once).
  - vm_compute. reflexivity.
  - vm_compute. reflexivity.
Defined.

(** C6 as stated fails: the TID ["00"] borrowed at time 0 is past its
    expiry at time 86400001, and [finish] neither removes it from the
    borrowed map nor returns it to the free pool. *)
Lemma finish_expired_not_reclaimed :
  let tid := Some "00"%string in
  let now := 86400001 in
  map_has tid (transcations borrowed_once) = true /\
  isExpiredTid now tid borrowed_once = true /\
  ~ (map_has tid (transcations (finish now tid borrowed_once)) = false /\
     set_has tid (tidPool (finish now tid borrowed_once)) = true).
Proof.
  split; [vm_compute; reflexivity|]. split; [vm_compute; reflexivity|].
  intros [Hgone _]. revert Hgone. vm_compute. discriminate.
Qed.

End TranscationFacts.

Section TranscationCapacity.

Import TranscationManager.

Lemma ID_COUNT_MAX_value : ID_COUNT_MAX = 60 /\ ID_COUNT_HALF = 30.
Proof. split; reflexivity. Qed.

(** Whenever [ID_COUNT_MAX] or more TIDs are borrowed and none of them
    has expired, [borrowTid] goes through [forcePutback]. *)
Lemma borrowTid_forces_putback now m :
  map_size (transcations m) >= ID_COUNT_MAX ->
  clearExpiredTid now m = m ->
  borrowTid now m =
    let m' := forcePutback m in
    let tid := match tidPool m' with [] => None | x :: _ => x end in
    (tid, mk (set_delete tid (tidPool m')) (transcations m') (expiredTime m')).
Proof.
  intros Hsize Hclear. unfold borrowTid.
  pose proof ID_COUNT_MAX_value as [Hmax Hhalf].
  destruct (Z.gtb_spec (map_size (transcations m)) ID_COUNT_HALF); [|lia].
  rewrite Hclear.
  destruct (Z.geb_spec (map_size (transcations m)) ID_COUNT_MAX); [done|lia].
Qed.

(** C2. The pool holds 3844 TIDs, but [ID_COUNT_MAX] is
    [62 ^ 2 = 62 XOR 2 = 60]: of 61 back-to-back [create] calls, all
    within the 24 hour expiry window, the 61st finds 60 TIDs borrowed,
    none expired, and forcibly reclaims the 30 oldest of them, while
    3784 TIDs are still free. Afterwards 31 transactions are
    outstanding, not 61, and the TID of the first request, still
    unexpired, is no longer valid. *)
Theorem create_61st_forces_reclaim :
  let m60 := create_many 60 0 fresh_manager in
  let m61 := snd (create 60 None m60) in
  length (tidPool fresh_manager) = 3844%nat /\
  ID_COUNT_MAX = 60 /\
  length (borrowed m60) = 60%nat /\
  forallb (fun tid => isValid 60 tid m60) (borrowed m60) = true /\
  length (tidPool m60) = 3784%nat /\
  length (borrowed m61) = 31%nat /\
  isValid 60 (Some "00"%string) m60 = true /\
  isValid 60 (Some "00"%string) m61 = false /\
  set_has (Some "00"%string) (tidPool m61) = true.
Proof. vm_compute. repeat split; reflexivity. Qed.

End TranscationCapacity.

(** ** The error handler *)

Section ErrorHandlerFacts.

Import TranscationManager.

(** Whatever the message, the error handler leaves the registry as it
    was: it returns early on a valid TID, and [finish] refuses the
    others. *)
Lemma error_handler_keeps_registry now response address port tm :
  ErrorResponseHandler.manager
    (ErrorResponseHandler.handle now response address port tm) = tm.
Proof.
  unfold ErrorResponseHandler.handle.
  destruct (negb (Js.truthy (Message.t_ response))
            || isValid now (Some (Message.t_ response)) tm) eqn:Hguard;
    [done|].
  apply orb_false_iff in Hguard as [_ Hinvalid].
  unfold finish. rewrite Hinvalid. simpl.
  by destruct (Message.e response) as [[code msg]|].
Qed.

(** On a valid TID the handler returns at its guard: the transaction is
    not finished and the error code and message are not logged. *)
Lemma error_handler_valid_tid now response address port tm :
  isValid now (Some (Message.t_ response)) tm = true ->
  ErrorResponseHandler.handle now response address port tm =
    ErrorResponseHandler.mkOutcome tm
      [Log warn "received invalid error"; Log warn "received invalid error"]
      RequestHandler.Returned.
Proof.
  intros Hvalid. unfold ErrorResponseHandler.handle.
  by rewrite Hvalid, orb_true_r.
Qed.

(** C4. The guard of the handler, [!tid || isValid(tid)], returns on
    the valid TIDs: for the error message answering the outstanding,
    unexpired transaction ["00"], the handler logs neither code nor
    message and does not finish the transaction. Afterwards ["00"] is
    still borrowed, still valid, and not in the free pool. *)
Theorem error_handler_valid_tid_not_finished :
  let out := ErrorResponseHandler.handle 1000 error_201 "10.0.0.1" 6881
                                         borrowed_once in
  isValid 1000 (Some "00"%string) borrowed_once = true /\
  ErrorResponseHandler.manager out = borrowed_once /\
  ErrorResponseHandler.logs out =
    [Log warn "received invalid error"; Log warn "received invalid error"] /\
  isValid 1000 (Some "00"%string) (ErrorResponseHandler.manager out) = true /\
  set_has (Some "00"%string) (tidPool (ErrorResponseHandler.manager out)) = false.
Proof. vm_compute. repeat split; reflexivity. Qed.

End ErrorHandlerFacts.

(** ** The info-hash store *)

Section InfoHashFacts.

Import InfoHashManager.

Implicit Types (m : InfoHashManager.t) (peer : Peer.t).

Lemma set_has_set_add peer ps : set_has peer (set_add peer ps) = true.
Proof.
  unfold set_add. destruct (set_has peer ps) eqn:Hhas; [done|].
  unfold set_has. rewrite existsb_app. simpl.
  by rewrite Pos.eqb_refl, orb_true_r.
Qed.

(** A call that no guard rejects stores the peer under the info-hash,
    and writes the token when none is stored. *)
Lemma add_accepted infoHash peer token m :
  rejected infoHash token m = false ->
  add infoHash peer token m =
    mk (<[infoHash := set_add peer (default [] (infoHashes m !! infoHash))]>
          (infoHashes m))
       (if no_token (tokenMap m !! infoHash)
        then <[infoHash := token]> (tokenMap m) else tokenMap m).
Proof.
  unfold rejected, add. intros H.
  apply orb_false_iff in H as [H Hfull]. apply orb_false_iff in H as [Hmax Hmis].
  rewrite Hmax, Hmis, Hfull. by destruct (infoHashes m !! infoHash).
Qed.

(** A call that a guard rejects returns the store it was given. *)
Lemma add_guard_returns infoHash peer token m :
  rejected infoHash token m = true -> add infoHash peer token m = m.
Proof.
  unfold rejected, add. intros Hrej.
  destruct (Z.of_nat (size (infoHashes m)) >=? MAX_INFO_HASH_NUM); [done|].
  destruct (token_mismatch (tokenMap m !! infoHash) token); [done|].
  destruct (peers_full (infoHashes m !! infoHash)); done.
Qed.

Lemma at_bound_rejected infoHash token m :
  MAX_INFO_HASH_NUM <= Z.of_nat (size (infoHashes m)) ->
  rejected infoHash token m = true.
Proof.
  intros Hbound. unfold rejected.
  destruct (Z.geb_spec (Z.of_nat (size (infoHashes m))) MAX_INFO_HASH_NUM);
    [done | lia].
Qed.

(** C10. A call to [add] that one of the guards rejects (the global
    bound on info-hashes, a stored token other than the supplied one, a
    peer set that holds 100 members already) returns the store as it
    was: no peer is inserted, no token is written, no entry is
    created. *)
Theorem add_rejected_unchanged infoHash peer token m :
  Z.of_nat (size (infoHashes m)) >= MAX_INFO_HASH_NUM
  \/ token_mismatch (tokenMap m !! infoHash) token = true
  \/ peers_full (infoHashes m !! infoHash) = true ->
  add infoHash peer token m = m /\
  infoHashes (add infoHash peer token m) = infoHashes m /\
  tokenMap (add infoHash peer token m) = tokenMap m.
Proof.
  intros Hrej.
  enough (add infoHash peer token m = m) as -> by done.
  apply add_guard_returns. unfold rejected.
  destruct Hrej as [Hmax|[-> | ->]].
  - rewrite (proj2 (Z.geb_le _ _)) by lia. done.
  - by rewrite orb_true_r.
  - by rewrite orb_true_r.
Qed.

Lemma add_rejected_unchanged_witness :
  add hash_1 peer_2 "bb" store_1 = store_1 /\
  infoHashes (add hash_1 peer_2 "bb" store_1) = infoHashes store_1 /\
  tokenMap (add hash_1 peer_2 "bb" store_1) = tokenMap store_1.
Proof.
  apply (add_rejected_unchanged hash_1 peer_2 "bb" store_1).
  right. left. vm_compute. reflexivity.
Defined.

(** *** A store at the global bound *)

Lemma fill_contents (n : nat) :
  Z.of_nat n <= MAX_INFO_HASH_NUM ->
  size (infoHashes (fill n)) = n /\
  (forall i, infoHashes (fill n) !! nth_hash i
             = if decide (i < n)%nat then Some [nth_peer i] else None) /\
  (forall i, tokenMap (fill n) !! nth_hash i
             = if decide (i < n)%nat then Some "tk"%string else None).
Proof.
  induction n as [|n IH]; intros Hn.
  - split; [done|].
    split; intros i; cbn [fill empty infoHashes tokenMap];
      rewrite lookup_empty; (case_decide; [lia | done]).
  - destruct IH as (Hsize & Hpeers & Htokens); [lia|].
    assert (infoHashes (fill n) !! nth_hash n = None) as Hnone_p.
    { rewrite Hpeers. case_decide; [lia | done]. }
    assert (tokenMap (fill n) !! nth_hash n = None) as Hnone_t.
    { rewrite Htokens. case_decide; [lia | done]. }
    change (fill (S n)) with (add (nth_hash n) (nth_peer n) "tk" (fill n)).
    rewrite add_accepted.
    2:{ unfold rejected. rewrite Hnone_p, Hnone_t, Hsize. simpl.
        destruct (Z.geb_spec (Z.of_nat n) MAX_INFO_HASH_NUM); [lia | done]. }
    rewrite Hnone_p, Hnone_t. cbn [infoHashes tokenMap no_token default].
    split; [|split].
    + rewrite map_size_insert_None by done. by rewrite Hsize.
    + intros i. destruct (decide (i = n)) as [->|Hne].
      * rewrite lookup_insert_eq. case_decide; [done | lia].
      * rewrite lookup_insert_ne.
        2:{ unfold nth_hash. intros Heq%(inj pretty). done. }
        rewrite Hpeers. repeat case_decide; try done; lia.
    + intros i. destruct (decide (i = n)) as [->|Hne].
      * rewrite lookup_insert_eq. case_decide; [done | lia].
      * rewrite lookup_insert_ne.
        2:{ unfold nth_hash. intros Heq%(inj pretty). done. }
        rewrite Htokens. repeat case_decide; try done; lia.
Qed.

End InfoHashFacts.

Section GlobalBound.

Import InfoHashManager.

Lemma fill_at_bound (n : nat) :
  Z.of_nat n = MAX_INFO_HASH_NUM ->
  Z.of_nat (size (infoHashes (fill n))) = MAX_INFO_HASH_NUM /\
  infoHashes (fill n) !! nth_hash 0 = Some [nth_peer 0] /\
  tokenMap (fill n) !! nth_hash 0 = Some "tk"%string.
Proof.
  intros Hn.
  assert (0 < n)%nat as Hpos by (unfold MAX_INFO_HASH_NUM in Hn; lia).
  destruct (fill_contents n) as (Hsize & Hpeers & Htokens); [lia|].
  rewrite Hsize, Hpeers, Htokens.
  split; [exact Hn|]. case_decide; [split; reflexivity | lia].
Qed.

Lemma full_store_contents :
  Z.of_nat (size (infoHashes full_store)) = MAX_INFO_HASH_NUM /\
  infoHashes full_store !! nth_hash 0 = Some [nth_peer 0] /\
  tokenMap full_store !! nth_hash 0 = Some "tk"%string.
Proof.
  apply fill_at_bound. apply Z2Nat.id. discriminate.
Qed.

(** C5, as the code has it. [add] is rejected on account of the global
    bound whenever the store holds at least 1,048,576 info-hashes,
    whether the info-hash is present or not: the store stays as it was.
    Below the bound, a call with no token mismatch and fewer than 100
    stored peers stores the peer under the info-hash. *)
Theorem add_global_bound infoHash peer token m :
  (MAX_INFO_HASH_NUM <= Z.of_nat (size (infoHashes m)) ->
   add infoHash peer token m = m) /\
  (Z.of_nat (size (infoHashes m)) < MAX_INFO_HASH_NUM ->
   token_mismatch (tokenMap m !! infoHash) token = false ->
   peers_full (infoHashes m !! infoHash) = false ->
   exists ps,
     infoHashes (add infoHash peer token m) !! infoHash = Some ps /\
     ps = set_add peer (default [] (infoHashes m !! infoHash)) /\
     set_has peer ps = true).
Proof.
  split.
  - intros Hbound. by apply add_guard_returns, at_bound_rejected.
  - intros Hbelow Hmis Hfull. rewrite add_accepted.
    + eexists. split; [apply lookup_insert_eq|].
      split; [done | apply set_has_set_add].
    + unfold rejected. rewrite Hmis, Hfull.
      destruct (Z.geb_spec (Z.of_nat (size (infoHashes m))) MAX_INFO_HASH_NUM);
        [lia | done].
Qed.

Lemma add_global_bound_witness :
  add (nth_hash 0) peer_2 "tk" full_store = full_store /\
  exists ps,
    infoHashes (add hash_1 peer_2 "aa" store_1) !! hash_1 = Some ps /\
    ps = set_add peer_2 (default [] (infoHashes store_1 !! hash_1)) /\
    set_has peer_2 ps = true.
Proof.
  split.
  - apply (proj1 (add_global_bound (nth_hash 0) peer_2 "tk" full_store)).
    apply Z.eq_le_incl, eq_sym, (proj1 full_store_contents).
  - apply (proj2 (add_global_bound hash_1 peer_2 "aa" store_1));
      vm_compute; reflexivity.
Defined.

(** C5 as stated fails: in a store at the bound, the info-hash
    [nth_hash 0] is present with the token ["tk"] and a single peer, and
    [add] with that token does not insert the peer. *)
Lemma add_at_bound_present_hash_not_inserted :
  Z.of_nat (size (infoHashes full_store)) = 1048576 /\
  infoHashes full_store !! nth_hash 0 = Some [nth_peer 0] /\
  tokenMap full_store !! nth_hash 0 = Some "tk"%string /\
  ~ (exists ps,
       infoHashes (add (nth_hash 0) peer_2 "tk" full_store) !! nth_hash 0
       = Some ps /\ peer_2 ∈ ps).
Proof.
  destruct full_store_contents as (Hsize & Hpeers & Htoken).
  split; [exact Hsize|]. split; [exact Hpeers|]. split; [exact Htoken|].
  intros (ps & Hps & Hin).
  assert (add (nth_hash 0) peer_2 "tk" full_store = full_store) as Hadd.
  { apply add_guard_returns, at_bound_rejected.
    apply Z.eq_le_incl, eq_sym, Hsize. }
  rewrite Hadd, Hpeers in Hps. injection Hps as <-.
  apply list_elem_of_singleton in Hin. discriminate Hin.
Qed.

End GlobalBound.

(** ** The announce_peer query *)

Section AnnouncePeer.

Import RequestHandler.

(** The handler never reads [a.token]: two queries that differ in it
    only are handled alike. *)
Lemma announce_ignores_args_token t y q e i tg ih ip p tok tok' reqNode tid w :
  handleAnnouncePeerQueryRequest
    (Message.mk t y q (Some (Message.mkArgs i tg ih ip p tok)) e) reqNode tid w
  = handleAnnouncePeerQueryRequest
      (Message.mk t y q (Some (Message.mkArgs i tg ih ip p tok')) e) reqNode tid w.
Proof. reflexivity. Qed.

(** What the handler compares with the stored token is the transaction
    id [t]: when they differ, the reply is error 203 and the store is as
    before. *)
Lemma announce_tid_mismatch reqMsg reqNode tid w infoHash p :
  (a ← Message.a reqMsg; Message.info_hash a) = Some infoHash ->
  Id.isValidId (Some infoHash) = true ->
  (a ← Message.a reqMsg; Message.port a) = Some p ->
  Js.truthyZ p = true ->
  Js.truthy (Message.t_ reqMsg) = true ->
  InfoHashManager.token_mismatch
    (InfoHashManager.findToken (BytesUtil.bytes2HexStr infoHash) (store w))
    (Message.t_ reqMsg) = true ->
  sent (handleAnnouncePeerQueryRequest reqMsg reqNode tid w)
  = [send reqNode (Message.responseError tid Message.PROTOCOL "token not match")]
  /\ world (handleAnnouncePeerQueryRequest reqMsg reqNode tid w) = w.
Proof.
  intros Hih Hvalid Hport Hp Ht Hmis. unfold handleAnnouncePeerQueryRequest.
  rewrite Hih, Hvalid, Hport, Hp, Ht. simpl. by rewrite Hmis.
Qed.

(** C1. The handler takes the token from the transaction id
    ([reqMsg.t]), not from the query arguments: the store holds the
    token ["aa"] for the info-hash, the query supplies the token ["bb"]
    in its arguments, under the transaction id ["aa"]; the handler
    replies with the announce_peer response, not with error 203, and the
    announcing peer is stored for the info-hash. *)
Theorem announce_token_mismatch_accepted :
  BytesUtil.bytes2HexStr (twenty x01) = hash_1 /\
  InfoHashManager.findToken hash_1 (store announce_world) = Some "aa"%string /\
  (a ← Message.a announce_query; Message.token a) = Some "bb"%string /\
  exists out,
    handle 100 announce_query "10.0.0.7" 51413 announce_world = Some out /\
    sent out = [Message.mkSent 51413 "10.0.0.7" (Message.responseAnnouncePeer "aa")] /\
    completion out = Returned /\
    InfoHashManager.find hash_1 (store (world out))
    = Some [peer_1; Peer.mk 11 6881 "10.0.0.7"].
Proof.
  split; [reflexivity|]. split; [vm_compute; reflexivity|].
  split; [reflexivity|].
  eexists. split; [vm_compute; reflexivity|].
  repeat split; vm_compute; reflexivity.
Qed.

End AnnouncePeer.

(** ** Buckets: capacity, removal, refresh and the closest members *)

Section BucketMore.

Implicit Types (b : Bucket.t) (n node : Node.t) (ns : list Node.t).

Lemma find_same_member n ns :
  n ∈ ns -> exists k, Bucket.find_same (Node.id n) ns = Some k /\ (k < length ns)%nat.
Proof.
  induction 1 as [n ns|n m ns _ IH]; simpl; unfold Id.same.
  - rewrite Pos.eqb_refl. exists 0%nat. split; [done | lia].
  - destruct (Pos.eqb _ _); [exists 0%nat; split; [done | lia]|].
    destruct IH as (k & -> & Hk). exists (S k). split; [done | lia].
Qed.

Lemma find_same_distinct ns k m i :
  NoDup (id_objects ns) -> ns !! k = Some m ->
  Id.obj (Node.id m) = Id.obj i -> Bucket.find_same i ns = Some k.
Proof.
  revert k. induction ns as [|n ns IH]; intros k Hnd Hk Hobj; [done|].
  simpl in Hnd. apply NoDup_cons in Hnd as [Hnotin Hnd]. simpl. unfold Id.same.
  destruct k as [|k]; simpl in Hk.
  - injection Hk as ->. by rewrite Hobj, Pos.eqb_refl.
  - destruct (Pos.eqb_spec (Id.obj (Node.id n)) (Id.obj i)) as [Heq|_].
    + exfalso. apply Hnotin. rewrite Heq, <- Hobj.
      apply list_elem_of_fmap. exists m. split; [done|].
      by eapply list_elem_of_lookup_2.
    + by rewrite (IH k Hnd Hk Hobj).
Qed.

Lemma ids_alter_update now p a k ns :
  map Node.id (alter (Node.update now p a) k ns) = map Node.id ns.
Proof.
  revert k. induction ns as [|n ns IH]; intros [|k]; simpl; try done.
  f_equal. apply IH.
Qed.

(** What [add] returns on a bucket of positive capacity that is within
    its capacity. *)
Lemma add_shape now node b :
  0 < Bucket.capacity b ->
  Bucket.size b <= Bucket.capacity b ->
  exists r b',
    Bucket.add now node b = Some (r, b') /\
    Bucket.size b' <= Bucket.capacity b' /\
    Bucket.capacity b' = Bucket.capacity b /\
    Bucket.start b' = Bucket.start b /\
    Bucket.end_ b' = Bucket.end_ b /\
    Forall (fun m => Node.id m = Node.id node
                     \/ Node.id m ∈ map Node.id (Bucket.nodes b))
           (Bucket.nodes b').
Proof.
  intros Hcap Hsize. destruct b as [ns cap upd s e].
  unfold Bucket.add, Bucket.size, Bucket.isFull, Bucket.oldest, Bucket.remove in *.
  simpl in *.
  destruct (Bucket.find_same (Node.id node) ns) as [k|] eqn:Hfind.
  - eexists _, _. split; [done|]. simpl. rewrite length_alter.
    repeat split; try done.
    apply Forall_forall. intros m Hm. right.
    rewrite <- (ids_alter_update now (Node.port node) (Node.addr node) k ns).
    apply list_elem_of_fmap. by exists m.
  - unfold Bucket.size. simpl.
    destruct (Z.geb_spec (Z.of_nat (length ns)) cap) as [Hfull|Hroom].
    + destruct (decide (ns = [])) as [->|Hnil]; [simpl in *; lia|].
      destruct (exists_last Hnil) as (front & tail & ->).
      rewrite last_snoc.
      destruct (find_same_member tail (front ++ [tail])) as (k & -> & Hk);
        [apply elem_of_app; right; by apply list_elem_of_singleton|].
      eexists _, _. split; [done|]. simpl.
      rewrite length_delete by by apply lookup_lt_is_Some_2.
      repeat split; try lia.
      constructor; [by left|].
      apply Forall_forall. intros m Hm. right.
      apply list_elem_of_fmap. exists m. split; [done|].
      eapply elem_of_sublist; [exact Hm | apply sublist_delete].
    + eexists _, _. split; [done|]. simpl. repeat split; try lia.
      constructor; [by left|].
      apply Forall_forall. intros m Hm. right.
      apply list_elem_of_fmap. by exists m.
Qed.

(** X1. [add] on a bucket of positive capacity that is within its
    capacity and whose members hold distinct [Id] objects does not
    throw, and the bucket it leaves is again within its capacity, with
    members on distinct [Id] objects; capacity and range are as
    before. *)
Theorem add_keeps_bucket_bounds now node b :
  0 < Bucket.capacity b ->
  Bucket.size b <= Bucket.capacity b ->
  distinct_objects b ->
  exists r b',
    Bucket.add now node b = Some (r, b') /\
    Bucket.size b' <= Bucket.capacity b' /\
    distinct_objects b' /\
    Bucket.capacity b' = Bucket.capacity b /\
    Bucket.start b' = Bucket.start b /\
    Bucket.end_ b' = Bucket.end_ b.
Proof.
  intros Hcap Hsize Hnd.
  destruct (add_shape now node b Hcap Hsize)
    as (r & b' & Hadd & ? & ? & ? & ? & _).
  exists r, b'. repeat split; try done.
  by apply (add_distinct_objects now node b r b').
Qed.

Lemma add_keeps_bucket_bounds_witness :
  exists r b',
    Bucket.add 30 new_node full_bucket = Some (r, b') /\
    Bucket.size b' <= Bucket.capacity b' /\
    distinct_objects b' /\
    Bucket.capacity b' = Bucket.capacity full_bucket /\
    Bucket.start b' = Bucket.start full_bucket /\
    Bucket.end_ b' = Bucket.end_ full_bucket.
Proof.
  apply (add_keeps_bucket_bounds 30 new_node full_bucket);
    [done | vm_compute; congruence | compute_done].
Defined.

Lemma remove_filter i ns :
  NoDup (id_objects ns) ->
  match Bucket.find_same i ns with
  | Some k => delete k ns
  | None => ns
  end = List.filter (fun m => negb (Id.same (Node.id m) i)) ns
  /\ existsb (fun m => Id.same (Node.id m) i) ns
     = match Bucket.find_same i ns with Some _ => true | None => false end.
Proof.
  induction ns as [|n ns IH]; intros Hnd; [done|].
  simpl in Hnd. apply NoDup_cons in Hnd as [Hnotin Hnd]. simpl.
  destruct (Id.same (Node.id n) i) eqn:Hsame; simpl.
  - split; [|done]. symmetry. apply forallb_filter_id.
    apply forallb_forall. intros m Hm. apply negb_true_iff.
    unfold Id.same in *. apply Pos.eqb_eq in Hsame. apply Pos.eqb_neq.
    intros Heq. apply Hnotin. rewrite Hsame, <- Heq.
    apply list_elem_of_fmap. exists m. split; [done|]. by apply list_elem_of_In.
  - destruct (IH Hnd) as [Hdel Hex].
    destruct (Bucket.find_same i ns); simpl; rewrite <- Hdel; done.
Qed.

(** X2. In a bucket whose members hold distinct [Id] objects, [remove]
    deletes exactly the member that holds the [Id] object of the given
    node, keeps the others in their order, and returns whether there
    was such a member. A node with an equal id in another [Id] object
    is not removed. *)
Theorem remove_deletes_the_object now node b :
  distinct_objects b ->
  Bucket.remove now node b =
    (existsb (fun m => Id.same (Node.id m) (Node.id node)) (Bucket.nodes b),
     Bucket.set_nodes
       (List.filter (fun m => negb (Id.same (Node.id m) (Node.id node)))
                    (Bucket.nodes b))
       (Bucket.touch now b)).
Proof.
  intros Hnd. unfold Bucket.remove. simpl.
  destruct (remove_filter (Node.id node) (Bucket.nodes b) Hnd) as [Hdel Hex].
  rewrite Hex, <- Hdel. by destruct (Bucket.find_same _ _).
Qed.

Lemma remove_deletes_the_object_witness :
  Bucket.remove 60 stranger_node full_bucket = (false, Bucket.touch 60 full_bucket)
  /\ Bucket.remove 60 new_node
       (Bucket.mk (new_node :: Bucket.nodes full_bucket) 8 20
                  (BitArray.mk 160 8) (BitArray.mk 160 15))
     = (true, Bucket.mk (Bucket.nodes full_bucket) 8 60
                        (BitArray.mk 160 8) (BitArray.mk 160 15)).
Proof.
  split.
  - rewrite (remove_deletes_the_object 60 stranger_node full_bucket);
      [reflexivity | compute_done].
  - rewrite remove_deletes_the_object; [reflexivity | compute_done].
Defined.

(** X3. When a member holds the [Id] object of the added node, [add]
    returns [false] and refreshes that member in place: it takes the
    port and the address of the added node and [activedAt = now]; no
    member moves and none is added. *)
Theorem add_refreshes_member now node b k m :
  distinct_objects b ->
  Bucket.nodes b !! k = Some m ->
  Id.obj (Node.id m) = Id.obj (Node.id node) ->
  exists b',
    Bucket.add now node b = Some (false, b') /\
    Bucket.nodes b' =
      <[k := Node.mk (Node.id m) (Node.port node) (Node.addr node) now]>
        (Bucket.nodes b).
Proof.
  intros Hnd Hk Hobj. unfold Bucket.add. simpl.
  rewrite (find_same_distinct _ k m _ Hnd Hk Hobj).
  eexists. split; [done|]. simpl.
  apply list_eq. intros j. rewrite list_lookup_alter, list_lookup_insert.
  - destruct (decide (k = j)) as [->|Hne].
    + rewrite decide_True by (split; [done | by eapply lookup_lt_Some]).
      by rewrite Hk.
    + rewrite decide_False by tauto. done.
Qed.

Lemma add_refreshes_member_witness :
  exists b',
    Bucket.add 70 (Node.mk (Node.id old_member) 7000 "10.0.0.77" 0)
               one_member_bucket = Some (false, b') /\
    Bucket.nodes b' =
      <[0%nat := Node.mk (Node.id old_member) 7000 "10.0.0.77" 70]>
        (Bucket.nodes one_member_bucket).
Proof.
  apply (add_refreshes_member 70 (Node.mk (Node.id old_member) 7000 "10.0.0.77" 0)
           one_member_bucket 0 old_member); [compute_done | done | done].
Defined.

Lemma closer_is_distance target a c :
  ((if BitArray.lessThan
          (BitArray.xor (Id.bits (Node.id a)) (Id.bits target))
          (BitArray.xor (Id.bits (Node.id c)) (Id.bits target))
    then -1 else 1) <? 0)
  = (distance target a <? distance target c).
Proof.
  unfold distance, BitArray.lessThan, BitArray.toBigInt. simpl.
  by destruct (Z.lxor _ _ <? Z.lxor _ _).
Qed.

(** X4. For a count [0 <= count], [cloestNodes] returns the
    [min(count, size)] members closest to the target, and it reorders
    the bucket itself: afterwards the member list of the bucket is
    sorted by ascending XOR-distance to the target (the same members,
    no longer in order of last activity), and the result is its
    prefix. *)
Theorem cloestNodes_sorts_the_bucket target count b :
  0 <= count ->
  let result := fst (Bucket.cloestNodes target count b) in
  let b' := snd (Bucket.cloestNodes target count b) in
  Z.of_nat (length result) = Z.min count (Bucket.size b) /\
  result = take (length result) (Bucket.nodes b') /\
  StronglySorted (fun x y => distance target x <= distance target y)
                 (Bucket.nodes b') /\
  Bucket.nodes b' ≡ₚ Bucket.nodes b.
Proof.
  intros Hcount. unfold Bucket.cloestNodes. simpl.
  set (cmp := fun a b' : Node.t => _).
  assert (Js.sort cmp (Bucket.nodes b) ≡ₚ Bucket.nodes b) as Hperm
    by apply sort_Permutation.
  assert (length (Js.sort cmp (Bucket.nodes b)) = length (Bucket.nodes b))
    as Hlen by by rewrite Hperm.
  unfold Js.slice0, Bucket.size. rewrite Hlen.
  destruct (Z.ltb_spec (Z.min count (Z.of_nat (length (Bucket.nodes b)))) 0);
    [lia|].
  split; [rewrite length_take, Hlen; lia|].
  split; [|split; [|done]].
  - rewrite length_take, Hlen. f_equal. lia.
  - apply (sort_StronglySorted (distance target) cmp).
    intros x y. apply closer_is_distance.
Qed.

Lemma cloestNodes_sorts_the_bucket_witness :
  let target := Id.mk 6 (BitArray.mk 160 11) in
  let result := fst (Bucket.cloestNodes target 1 full_bucket) in
  let b' := snd (Bucket.cloestNodes target 1 full_bucket) in
  Z.of_nat (length result) = Z.min 1 (Bucket.size full_bucket) /\
  result = take (length result) (Bucket.nodes b') /\
  StronglySorted (fun x y => distance target x <= distance target y)
                 (Bucket.nodes b') /\
  Bucket.nodes b' ≡ₚ Bucket.nodes full_bucket.
Proof.
  apply (cloestNodes_sorts_the_bucket (Id.mk 6 (BitArray.mk 160 11)) 1 full_bucket).
  lia.
Defined.

End BucketMore.

(** ** The routing table under [add], [findNode] and [getRandomNode] *)

Section RoutingTableMore.

Implicit Types (b : Bucket.t) (bs : list Bucket.t) (rt : RoutingTable.t)
  (n node : Node.t).

Local Abbreviation rng :=
  (fun b : Bucket.t => (Bucket.start b, Bucket.end_ b, Bucket.capacity b)).

Lemma withinRnage_same_range i b b' :
  Bucket.start b' = Bucket.start b -> Bucket.end_ b' = Bucket.end_ b ->
  Bucket.withinRnage i b' = Bucket.withinRnage i b.
Proof. unfold Bucket.withinRnage. by intros -> ->. Qed.

Lemma bucket_add_ok now node b :
  bucket_ok b -> Bucket.withinRnage (Node.id node) b = true ->
  exists r b',
    Bucket.add now node b = Some (r, b') /\ bucket_ok b' /\ rng b' = rng b.
Proof.
  intros (Hcap & Hsize & Hnd & Hin) Hnode.
  destruct (add_shape now node b Hcap Hsize)
    as (r & b' & Hadd & Hsize' & Hc & Hs & He & Hids).
  exists r, b'. split; [done|]. split; [|by rewrite Hc, Hs, He].
  split; [lia|]. split; [done|].
  split; [by apply (add_distinct_objects now node b r b')|].
  rewrite Forall_forall in Hids, Hin |- *. intros m Hm.
  rewrite (withinRnage_same_range _ b b') by done.
  destruct (Hids m Hm) as [->|Hold]; [done|].
  apply list_elem_of_fmap in Hold as (m0 & -> & Hm0). by apply Hin.
Qed.

Lemma add_to_ok now node bs :
  Forall bucket_ok bs ->
  exists r bs',
    RoutingTable.add_to now node bs = Some (r, bs') /\
    Forall bucket_ok bs' /\ map rng bs' = map rng bs.
Proof.
  induction 1 as [|b bs Hb Hbs IH]; simpl.
  - by exists false, [].
  - destruct (Bucket.withinRnage (Node.id node) b) eqn:Hin.
    + destruct (bucket_add_ok now node b Hb Hin) as (r & b' & -> & Hb' & Hr).
      exists r, (b' :: bs). split; [done|]. split; [by constructor|].
      simpl. by rewrite Hr.
    + destruct IH as (r & bs' & -> & Hbs' & Hr).
      exists r, (b :: bs'). split; [done|]. split; [by constructor|].
      simpl. by rewrite Hr.
Qed.

(** X5. On a table whose buckets are within their (positive) capacity,
    hold their members on distinct [Id] objects and hold only ids of
    their own range, [add] does not throw and leaves such a table; the
    ranges and capacities of the buckets and the local node are as
    before. *)
Theorem add_keeps_table now node rt :
  table_ok rt ->
  exists r rt',
    RoutingTable.add now node rt = Some (r, rt') /\
    table_ok rt' /\
    ranges rt' = ranges rt /\
    RoutingTable.localNode rt' = RoutingTable.localNode rt.
Proof.
  intros Hok. unfold RoutingTable.add.
  destruct (add_to_ok now node (RoutingTable.buckets rt) Hok)
    as (r & bs' & -> & Hok' & Hr).
  by exists r, (RoutingTable.mk (RoutingTable.localNode rt) bs').
Qed.

Lemma add_keeps_table_witness :
  exists r rt',
    RoutingTable.add 5 (Node.mk (Id.mk 7 (BitArray.mk 160 5)) 6885 "10.0.0.6" 0)
                     small_table = Some (r, rt') /\
    table_ok rt' /\
    ranges rt' = ranges small_table /\
    RoutingTable.localNode rt' = RoutingTable.localNode small_table.
Proof.
  apply add_keeps_table.
  repeat constructor; try done; compute_done.
Defined.

Lemma addNodes_ok now nodes : forall rt,
  table_ok rt ->
  exists rt',
    RoutingTable.addNodes now nodes rt = Some rt' /\
    table_ok rt' /\ ranges rt' = ranges rt.
Proof.
  induction nodes as [|node nodes IH]; intros rt Hok; simpl.
  - by exists rt.
  - destruct (add_to_ok now node (RoutingTable.buckets rt) Hok)
      as (r & bs' & Hadd & Hok' & Hr).
    unfold RoutingTable.add. rewrite Hadd.
    destruct (IH (RoutingTable.mk (RoutingTable.localNode rt) bs') Hok')
      as (rt' & -> & Hok'' & Hr').
    exists rt'. split; [done|]. split; [done|].
    rewrite Hr'. exact Hr.
Qed.

Lemma generateBuckets_fresh now localId fuel : forall s e bs,
  RoutingTable.generateBuckets fuel now localId s e = RoutingTable.Ok bs ->
  Forall (fun b => Bucket.nodes b = [] /\ Bucket.capacity b = 8) bs.
Proof.
  assert (forall cap s e b, Bucket.new now cap s e = Some b ->
                            Bucket.nodes b = [] /\ Bucket.capacity b = cap)
    as Hnew.
  { intros cap s e b. unfold Bucket.new. repeat case_match; try done.
    by intros [= <-]. }
  induction fuel as [|fuel IH]; intros s e bs; [done|].
  rewrite generateBuckets_unfold. intros Hgen.
  repeat case_match; simplify_eq; try constructor; eauto.
Qed.

Lemma population_elem rt n :
  n ∈ population rt <->
  exists b, b ∈ RoutingTable.buckets rt /\ n ∈ Bucket.nodes b.
Proof.
  unfold population. rewrite list_elem_of_In, in_concat. split.
  - intros (l & Hl & Hn). apply in_map_iff in Hl as (b & <- & Hb).
    exists b. by rewrite !list_elem_of_In.
  - intros (b & Hb & Hn). exists (Bucket.nodes b).
    rewrite <- !list_elem_of_In. split; [|done].
    apply list_elem_of_fmap. eauto.
Qed.

Lemma nodeCount_bound c bs :
  Forall (fun b => Bucket.size b <= c) bs ->
  Z.of_nat (length (concat (map Bucket.nodes bs))) <= c * Z.of_nat (length bs).
Proof.
  induction 1 as [|b bs Hb _ IH]; simpl; [lia|].
  rewrite length_app. unfold Bucket.size in Hb. lia.
Qed.

Lemma rng_elem bs bs' b' :
  map rng bs' = map rng bs -> b' ∈ bs' -> exists b, b ∈ bs /\ rng b = rng b'.
Proof.
  intros Hr Hb'.
  assert (rng b' ∈ map rng bs) as Hin
    by (rewrite <- Hr; apply list_elem_of_fmap; eauto).
  apply list_elem_of_fmap in Hin as (b & Heq & Hb). eauto.
Qed.

(** X6. A table initialised around a 160-bit local id and then filled
    by [addNodes] with any nodes (no call throws) keeps the 160 ranges
    of its buckets, never holds more than 8 * 160 = 1280 nodes, holds
    every node in a bucket whose range contains the id of the node, and
    never holds a node with the id of the local node. *)
Theorem table_after_addNodes (fuel : nat) (now : Z) (ln : Node.t)
    (now' : Z) (nodes : list Node.t) :
  BitArray.length (Id.bits (Node.id ln)) = 160 ->
  0 <= BitArray.value (Id.bits (Node.id ln)) < 2 ^ 160 ->
  (160 < fuel)%nat ->
  exists rt0 rt',
    RoutingTable.init fuel now ln = RoutingTable.Ok rt0 /\
    RoutingTable.addNodes now' nodes rt0 = Some rt' /\
    ranges rt' = ranges rt0 /\
    length (RoutingTable.buckets rt') = 160%nat /\
    RoutingTable.nodeCount rt' <= 1280 /\
    table_ok rt' /\
    (forall n, n ∈ population rt' ->
               BitArray.value (Id.bits (Node.id n))
               <> BitArray.value (Id.bits (Node.id ln))).
Proof.
  intros Hlen Hlocal Hfuel.
  destruct (generateBuckets_partitions now (Node.id ln) Hlen 160 fuel 0)
    as (bs & Hgen & Hlength & Hin & _ & _); [done | done | done | lia |].
  pose proof (generateBuckets_fresh _ _ _ _ _ _ Hgen) as Hfresh.
  set (rt0 := RoutingTable.mk ln bs).
  assert (table_ok rt0) as Hok0.
  { unfold table_ok. simpl. eapply Forall_impl; [exact Hfresh|].
    intros b [Hnodes Hcap]. unfold bucket_ok, distinct_objects, Bucket.size.
    rewrite Hnodes, Hcap. simpl. repeat split; try lia; constructor. }
  destruct (addNodes_ok now' nodes rt0 Hok0) as (rt' & Hadd & Hok' & Hr).
  assert (length (RoutingTable.buckets rt') = 160%nat) as Hlen'.
  { rewrite <- Hlength. change bs with (RoutingTable.buckets rt0).
    rewrite <- (length_map rng (RoutingTable.buckets rt')).
    rewrite <- (length_map rng (RoutingTable.buckets rt0)).
    by f_equal. }
  exists rt0, rt'. split.
  { unfold RoutingTable.init.
    assert (RoutingTable.initBuckets fuel now (Node.id ln) = RoutingTable.Ok bs)
      as -> by exact Hgen.
    done. }
  split; [exact Hadd|]. split; [exact Hr|]. split; [exact Hlen'|].
  split; [|split; [exact Hok'|]].
  - rewrite nodeCount_population. unfold population.
    pose proof (nodeCount_bound 8 (RoutingTable.buckets rt')) as Hbound.
    rewrite Hlen' in Hbound. change (8 * Z.of_nat 160) with 1280 in Hbound.
    apply Hbound. apply Forall_forall. intros b' Hb'.
    destruct (rng_elem _ _ b' Hr Hb') as (b & Hb & Heq).
    unfold table_ok in Hok'. rewrite Forall_forall in Hok', Hfresh.
    destruct (Hok' b' Hb') as (_ & Hsize & _).
    destruct (Hfresh b Hb) as [_ Hcap].
    injection Heq as _ _ Hc. lia.
  - intros n Hn. apply population_elem in Hn as (b' & Hb' & Hn).
    destruct (rng_elem _ _ b' Hr Hb') as (b & Hb & Heq).
    unfold table_ok in Hok'. rewrite Forall_forall in Hok'.
    destruct (Hok' b' Hb') as (_ & _ & _ & Hrange).
    rewrite Forall_forall in Hrange.
    pose proof (Hrange n Hn) as Hw. apply withinRnage_covers in Hw.
    injection Heq as Hs He _.
    assert (covers b (BitArray.value (Id.bits (Node.id n)))) as Hcov
      by (unfold covers in *; by rewrite Hs, He).
    by destruct (Hin b _ Hb Hcov).
Qed.

Lemma table_after_addNodes_witness :
  exists rt0 rt',
    RoutingTable.init 161 0 sample_local_node = RoutingTable.Ok rt0 /\
    RoutingTable.addNodes 9 [node_1; far_node; node_1; sample_local_node] rt0
    = Some rt' /\
    ranges rt' = ranges rt0 /\
    length (RoutingTable.buckets rt') = 160%nat /\
    RoutingTable.nodeCount rt' <= 1280 /\
    table_ok rt' /\
    (forall n, n ∈ population rt' ->
               BitArray.value (Id.bits (Node.id n))
               <> BitArray.value (Id.bits (Node.id sample_local_node))).
Proof.
  apply (table_after_addNodes 161 0 sample_local_node 9
           [node_1; far_node; node_1; sample_local_node]).
  - reflexivity.
  - split; [discriminate | reflexivity].
  - lia.
Defined.

Lemma isEmpty_nil b : Bucket.isEmpty b = true <-> Bucket.nodes b = [].
Proof.
  unfold Bucket.isEmpty, Bucket.size. rewrite Z.eqb_eq.
  destruct (Bucket.nodes b); simpl; split; (done || lia).
Qed.

Lemma findNode_in_finds i bs b n :
  b ∈ bs -> n ∈ Bucket.nodes b -> Id.equals (Node.id n) i = true ->
  exists n', RoutingTable.findNode_in i bs = Some n'
             /\ Id.equals (Node.id n') i = true.
Proof.
  intros Hb Hn Heq. induction bs as [|b0 bs IH]; [by apply elem_of_nil in Hb|].
  simpl. apply elem_of_cons in Hb.
  destruct (Bucket.isEmpty b0) eqn:Hempty.
  - apply isEmpty_nil in Hempty. destruct Hb as [->|Hb]; [|by apply IH].
    rewrite Hempty in Hn. by apply elem_of_nil in Hn.
  - destruct (List.find _ (Bucket.nodes b0)) as [n'|] eqn:Hfind.
    + apply find_some in Hfind as [_ Hn']. eauto.
    + destruct Hb as [->|Hb]; [|by apply IH].
      apply list_elem_of_In in Hn.
      pose proof (find_none _ _ Hfind n Hn) as Hnone. simpl in Hnone. congruence.
Qed.

Lemma add_to_inserted now node bs bs' :
  RoutingTable.add_to now node bs = Some (true, bs') ->
  exists b', b' ∈ bs' /\ Node.updateActivedAt now node ∈ Bucket.nodes b'.
Proof.
  revert bs'. induction bs as [|b bs IH]; intros bs'; simpl; [done|].
  destruct (Bucket.withinRnage (Node.id node) b).
  - destruct (Bucket.add now node b) as [[r b']|] eqn:Hadd; [|done].
    intros [= -> <-]. exists b'. split; [left|].
    unfold Bucket.add in Hadd. simpl in Hadd.
    destruct (Bucket.find_same _ _); [done|].
    repeat case_match; simplify_eq; simpl; left.
  - destruct (RoutingTable.add_to now node bs) as [[r bs'']|]; [|done].
    intros [= -> <-]. destruct (IH bs'' eq_refl) as (b' & Hb' & Hn).
    exists b'. split; [by right | done].
Qed.

(** X7. A node that [add] reports as inserted is found by [findNode]
    under its id: the lookup returns a node with an equal id. *)
Theorem add_then_findNode now node rt rt' :
  RoutingTable.add now node rt = Some (true, rt') ->
  exists n,
    RoutingTable.findNode (Node.id node) rt' = Some n /\
    Id.equals (Node.id n) (Node.id node) = true.
Proof.
  unfold RoutingTable.add, RoutingTable.findNode.
  destruct (RoutingTable.add_to now node (RoutingTable.buckets rt))
    as [[r bs']|] eqn:Hadd; [|done].
  intros [= -> <-]. simpl.
  destruct (add_to_inserted _ _ _ _ Hadd) as (b' & Hb' & Hn).
  apply (findNode_in_finds _ _ b' _ Hb' Hn).
  apply BitArray_equals_refl.
Qed.

Lemma add_then_findNode_witness :
  exists n,
    RoutingTable.findNode (Id.mk 7 (BitArray.mk 160 5))
      (RoutingTable.mk (RoutingTable.localNode small_table)
         [Bucket.mk [far_node] 8 0 (BitArray.mk 160 (2 ^ 159)) (BitArray.ones 160);
          Bucket.mk [] 8 0 (BitArray.mk 160 8) (BitArray.mk 160 15);
          Bucket.mk [Node.mk (Id.mk 7 (BitArray.mk 160 5)) 6885 "10.0.0.6" 5; node_4]
                    8 5 (BitArray.mk 160 4) (BitArray.mk 160 7);
          Bucket.mk [node_2] 8 0 (BitArray.mk 160 2) (BitArray.mk 160 3);
          Bucket.mk [node_1] 8 0 (BitArray.mk 160 1) (BitArray.mk 160 1)])
    = Some n /\
    Id.equals (Node.id n) (Id.mk 7 (BitArray.mk 160 5)) = true.
Proof.
  apply (add_then_findNode 5
           (Node.mk (Id.mk 7 (BitArray.mk 160 5)) 6885 "10.0.0.6" 0) small_table).
  reflexivity.
Defined.

(** X8. [getRandomNode] draws nothing at random: it returns the first
    node of [getAllNodes()], the head of the first bucket that is not
    empty, and nothing exactly when the table holds no node. *)
Theorem getRandomNode_is_first rt :
  RoutingTable.getRandomNode rt = head (RoutingTable.getAllNodes rt) /\
  (RoutingTable.getRandomNode rt = None <-> RoutingTable.nodeCount rt = 0).
Proof.
  rewrite getAllNodes_population, nodeCount_population.
  unfold RoutingTable.getRandomNode, population.
  assert (RoutingTable.getRandomNode_in (RoutingTable.buckets rt)
          = head (concat (map Bucket.nodes (RoutingTable.buckets rt)))) as ->.
  { induction (RoutingTable.buckets rt) as [|b bs IH]; simpl; [done|].
    destruct (Bucket.isEmpty b) eqn:Hempty.
    - apply isEmpty_nil in Hempty. by rewrite Hempty.
    - unfold Bucket.latest. destruct (Bucket.nodes b) eqn:Hnodes; [|done].
      apply isEmpty_nil in Hnodes. congruence. }
  split; [done|].
  destruct (concat _); simpl; split; (done || lia).
Qed.

End RoutingTableMore.

(** ** Removing the nodes of an address *)

Section RemoveByIp.

Implicit Types (b bo bc : Bucket.t) (bs : list Bucket.t) (n m : Node.t).

Local Abbreviation rng :=
  (fun b : Bucket.t => (Bucket.start b, Bucket.end_ b, Bucket.capacity b)).

(** At most one bucket of [bs] holds the id [i] in its range. *)
Local Abbreviation one_cover i bs :=
  (forall j k bj bk,
      bs !! j = Some bj -> bs !! k = Some bk ->
      Bucket.withinRnage i bj = true -> Bucket.withinRnage i bk = true ->
      j = k).

Lemma remove_from_pointwise now n bs :
  one_cover (Node.id n) bs ->
  RoutingTable.remove_from now n bs
  = map (fun b => if Bucket.withinRnage (Node.id n) b
                  then snd (Bucket.remove now n b) else b) bs.
Proof.
  induction bs as [|b bs IH]; intros Hone; simpl; [done|].
  destruct (Bucket.withinRnage (Node.id n) b) eqn:Hb.
  - f_equal. rewrite <- (map_id bs) at 1. apply map_ext_in. intros b' Hb'.
    destruct (Bucket.withinRnage (Node.id n) b') eqn:Hcov; [|done].
    apply list_elem_of_In, list_elem_of_lookup_1 in Hb' as [k Hk].
    by specialize (Hone 0%nat (S k) b b' eq_refl Hk Hb Hcov).
  - f_equal. apply IH. intros j k bj bk Hj Hk Hcj Hck.
    by specialize (Hone (S j) (S k) bj bk Hj Hk Hcj Hck) as [= ->].
Qed.

Lemma remove_nodes now n b :
  distinct_objects b ->
  (Bucket.start (snd (Bucket.remove now n b)),
   Bucket.end_ (snd (Bucket.remove now n b)),
   Bucket.capacity (snd (Bucket.remove now n b)))
  = (Bucket.start b, Bucket.end_ b, Bucket.capacity b) /\
  Bucket.nodes (snd (Bucket.remove now n b))
  = List.filter (fun m => negb (Id.same (Node.id m) (Node.id n)))
                (Bucket.nodes b).
Proof.
  intros Hnd. unfold Bucket.remove. simpl.
  destruct (remove_filter (Node.id n) (Bucket.nodes b) Hnd) as [<- _].
  by destruct (Bucket.find_same _ _).
Qed.

Lemma filter_filter_and {A} (f g : A -> bool) (l : list A) :
  List.filter f (List.filter g l) = List.filter (fun x => g x && f x) l.
Proof.
  induction l as [|x l IH]; simpl; [done|].
  destruct (g x); simpl; [destruct (f x)|]; by rewrite IH.
Qed.

Lemma filter_sublist {A} (f : A -> bool) (l : list A) :
  List.filter f l `sublist_of` l.
Proof.
  induction l as [|x l IH]; simpl; [done|].
  destruct (f x); by constructor.
Qed.

Lemma concat_map_filter {A B} (f : B -> bool) (g : A -> list B) (l : list A) :
  concat (map (fun a => List.filter f (g a)) l)
  = List.filter f (concat (map g l)).
Proof.
  induction l as [|a l IH]; simpl; [done|].
  by rewrite List.filter_app, IH.
Qed.

Section WithAddress.

Variables (now : Z) (ip : string).

Local Abbreviation keeps := (keeps ip).
Local Abbreviation pruned := (pruned ip).

Lemma pruned_step l n bo bc :
  distinct_objects bo -> pruned l bo bc ->
  pruned (l ++ [n]) bo
    (if String.eqb (Node.addr n) ip
     then (if Bucket.withinRnage (Node.id n) bc
           then snd (Bucket.remove now n bc) else bc)
     else bc).
Proof.
  intros Hnd [Hr Hnodes].
  assert (Bucket.withinRnage (Node.id n) bc = Bucket.withinRnage (Node.id n) bo)
    as Hw by (injection Hr as Hs He _; by apply withinRnage_same_range).
  assert (distinct_objects bc) as Hndc.
  { unfold distinct_objects, id_objects in *. rewrite Hnodes.
    eapply sublist_NoDup; [exact Hnd|].
    apply (fmap_sublist (fun n => Id.obj (Node.id n))), filter_sublist. }
  assert (forall m, keeps (l ++ [n]) bo m
                    = keeps l bo m
                      && negb (String.eqb (Node.addr n) ip
                               && Bucket.withinRnage (Node.id n) bo
                               && Id.same (Node.id m) (Node.id n))) as Hkeeps.
  { intros m. unfold keeps. rewrite existsb_app. simpl.
    rewrite orb_false_r. apply negb_orb. }
  rewrite Hw.
  destruct (String.eqb (Node.addr n) ip) eqn:Haddr;
    [destruct (Bucket.withinRnage (Node.id n) bo) eqn:Hcov|].
  - destruct (remove_nodes now n bc Hndc) as [Hr' Hn'].
    split; [by rewrite Hr'|]. rewrite Hn', Hnodes, filter_filter_and.
    apply filter_ext. intros m. by rewrite Hkeeps.
  - split; [exact Hr|]. rewrite Hnodes. apply filter_ext. intros m.
    rewrite Hkeeps. simpl. by rewrite andb_true_r.
  - split; [exact Hr|]. rewrite Hnodes. apply filter_ext. intros m.
    rewrite Hkeeps. simpl. by rewrite andb_true_r.
Qed.

Lemma pruned_nil bo : pruned [] bo bo.
Proof.
  split; [done|]. symmetry. apply forallb_filter_id.
  by apply forallb_forall.
Qed.

Lemma removeByIp_fold orig :
  Forall distinct_objects orig ->
  (forall j k bj bk x,
      orig !! j = Some bj -> orig !! k = Some bk ->
      covers bj x -> covers bk x -> j = k) ->
  forall l lp cur ln,
    Forall2 (pruned lp) orig cur ->
    Forall2 (pruned (lp ++ l)) orig
      (RoutingTable.buckets
         (fold_left
            (fun rt node => if String.eqb (Node.addr node) ip
                            then RoutingTable.remove now node rt else rt)
            l (RoutingTable.mk ln cur))).
Proof.
  intros Hnd Hdisj. induction l as [|n l IH]; intros lp cur ln Hcur; simpl.
  - by rewrite app_nil_r.
  - assert (one_cover (Node.id n) cur) as Hone.
    { intros j k bj bk Hj Hk Hcj Hck.
      destruct (Forall2_lookup_r _ _ _ _ _ Hcur Hj) as (boj & Hoj & Hrj & _).
      destruct (Forall2_lookup_r _ _ _ _ _ Hcur Hk) as (bok & Hok & Hrk & _).
      injection Hrj as Hsj Hej _. injection Hrk as Hsk Hek _.
      rewrite (withinRnage_same_range _ boj bj) in Hcj by done.
      rewrite (withinRnage_same_range _ bok bk) in Hck by done.
      apply withinRnage_covers in Hcj, Hck.
      by apply (Hdisj j k boj bok _ Hoj Hok Hcj Hck). }
    set (cur' := map (fun bc =>
                        if String.eqb (Node.addr n) ip
                        then (if Bucket.withinRnage (Node.id n) bc
                              then snd (Bucket.remove now n bc) else bc)
                        else bc) cur).
    assert ((if String.eqb (Node.addr n) ip
             then RoutingTable.remove now n (RoutingTable.mk ln cur)
             else RoutingTable.mk ln cur) = RoutingTable.mk ln cur') as ->.
    { unfold cur', RoutingTable.remove. simpl.
      destruct (String.eqb (Node.addr n) ip).
      - by rewrite remove_from_pointwise.
      - by rewrite map_id. }
    replace (lp ++ n :: l) with ((lp ++ [n]) ++ l) by by rewrite <- app_assoc.
    apply IH. unfold cur'. apply Forall2_fmap_r.
    clear -Hnd Hcur. induction Hcur as [|bo bc orig cur Hp _ IH]; [done|].
    inversion Hnd; subst. constructor; [by apply pruned_step | by apply IH].
Qed.

Lemma NoDup_map_eq {A B} (f : A -> B) (l : list A) x y :
  NoDup (map f l) -> x ∈ l -> y ∈ l -> f x = f y -> x = y.
Proof.
  induction l as [|a l IH]; simpl; intros Hnd Hx Hy Hf; [by inversion Hx|].
  apply NoDup_cons in Hnd as [Ha Hnd].
  apply elem_of_cons in Hx as [->|Hx], Hy as [->|Hy]; [done| | |by apply IH].
  - destruct Ha. rewrite Hf. by apply list_elem_of_fmap_2.
  - destruct Ha. rewrite <- Hf. by apply list_elem_of_fmap_2.
Qed.

Lemma keeps_population rt bo m :
  table_ok rt -> disjoint_ranges rt ->
  bo ∈ RoutingTable.buckets rt -> m ∈ Bucket.nodes bo ->
  keeps (population rt) bo m = negb (String.eqb (Node.addr m) ip).
Proof.
  intros Hok Hdisj Hbo Hm. unfold keeps. f_equal.
  assert (bucket_ok bo) as (_ & _ & Hnd & Hin)
      by (unfold table_ok in Hok; rewrite Forall_forall in Hok; by apply Hok).
  rewrite Forall_forall in Hin.
  destruct (String.eqb (Node.addr m) ip) eqn:Ham.
  - apply existsb_exists. exists m. split.
    + apply list_elem_of_In, population_elem. eauto.
    + rewrite Ham, (Hin m Hm). unfold Id.same. by rewrite Pos.eqb_refl.
  - apply not_true_is_false. intros Hex.
    apply existsb_exists in Hex as (n & Hn & Hc).
    apply andb_true_iff in Hc as [Hc Hsame].
    apply andb_true_iff in Hc as [Han Hw].
    apply list_elem_of_In, population_elem in Hn as (bn & Hbn & Hnbn).
    assert (bucket_ok bn) as (_ & _ & _ & Hinn)
        by (unfold table_ok in Hok; rewrite Forall_forall in Hok; by apply Hok).
    rewrite Forall_forall in Hinn. specialize (Hinn n Hnbn).
    apply list_elem_of_lookup in Hbo as [j Hj], Hbn as [k Hk].
    apply withinRnage_covers in Hw, Hinn.
    assert (k = j) as -> by exact (Hdisj k j bn bo _ Hk Hj Hinn Hw).
    assert (bn = bo) as -> by congruence.
    assert (m = n) as ->.
    { apply (NoDup_map_eq (fun n => Id.obj (Node.id n)) (Bucket.nodes bo));
        [exact Hnd|done|done|]. by apply Pos.eqb_eq. }
    congruence.
Qed.

Lemma removeByIp_pruned rt :
  table_ok rt -> disjoint_ranges rt ->
  Forall2 (pruned (population rt)) (RoutingTable.buckets rt)
          (RoutingTable.buckets (RoutingTable.removeByIp now ip rt)).
Proof.
  intros Hok Hdisj. unfold RoutingTable.removeByIp.
  rewrite getAllNodes_population. destruct rt as [ln bs].
  apply (removeByIp_fold bs) with (lp := []).
  - unfold table_ok in Hok. simpl in Hok.
    eapply Forall_impl; [exact Hok|]. by intros b (_ & _ & Hnd & _).
  - exact Hdisj.
  - apply Forall2_same_length_lookup_2; [done|].
    intros i x y Hx Hy. simpl in Hx. rewrite Hx in Hy.
    injection Hy as <-. apply pruned_nil.
Qed.

(** X9. [removeByIp(ip)] removes every node whose address is [ip] and no
    other node: in a table whose buckets have pairwise disjoint ranges,
    members inside their ranges and no [Id] object held twice in a
    bucket, the population afterwards is the population before without
    the nodes of that address, in the same order, and every bucket keeps
    its range and capacity. *)
Theorem removeByIp_removes_the_address rt :
  table_ok rt -> disjoint_ranges rt ->
  population (RoutingTable.removeByIp now ip rt)
  = List.filter (fun m => negb (String.eqb (Node.addr m) ip)) (population rt)
  /\ ranges (RoutingTable.removeByIp now ip rt) = ranges rt.
Proof.
  intros Hok Hdisj. pose proof (removeByIp_pruned rt Hok Hdisj) as HP.
  unfold population, ranges.
  rewrite <- concat_map_filter.
  assert (forall bs cur,
             (forall b, b ∈ bs -> b ∈ RoutingTable.buckets rt) ->
             Forall2 (pruned (population rt)) bs cur ->
             map Bucket.nodes cur
             = map (fun a => List.filter
                               (fun m => negb (String.eqb (Node.addr m) ip))
                               (Bucket.nodes a)) bs
             /\ map rng cur = map rng bs) as Hgen.
  { intros bs cur Hsub H2.
    induction H2 as [|bo bc bs cur [Hr Hn] _ IH]; [done|]. simpl.
    destruct IH as [IH1 IH2];
      [intros b Hb; apply Hsub; by apply list_elem_of_further|].
    split; [|by rewrite Hr, IH2].
    rewrite Hn, IH1. f_equal. apply filter_ext_in. intros m Hm.
    apply keeps_population; [done|done| |by apply list_elem_of_In].
    apply Hsub, list_elem_of_here. }
  destruct (Hgen _ _ (fun b H => H) HP) as [H1 H2].
  by rewrite H1, H2.
Qed.

End WithAddress.

Lemma shared_addr_table_ok : table_ok shared_addr_table.
Proof.
  repeat constructor; try done; compute_done.
Qed.

Lemma shared_addr_table_disjoint : disjoint_ranges shared_addr_table.
Proof.
  intros [|[|i]] [|[|j]] bi bj x Hi Hj; simpl in Hi, Hj; try done.
  all: injection Hi as <-; injection Hj as <-; unfold covers; simpl; lia.
Qed.

Lemma removeByIp_removes_the_address_witness :
  table_ok shared_addr_table /\ disjoint_ranges shared_addr_table /\
  (population (RoutingTable.removeByIp 50 "10.0.0.1" shared_addr_table)
   = List.filter (fun m => negb (String.eqb (Node.addr m) "10.0.0.1"))
                 (population shared_addr_table)
   /\ ranges (RoutingTable.removeByIp 50 "10.0.0.1" shared_addr_table)
      = ranges shared_addr_table).
Proof.
  split; [exact shared_addr_table_ok|].
  split; [exact shared_addr_table_disjoint|].
  exact (removeByIp_removes_the_address 50 "10.0.0.1" shared_addr_table
           shared_addr_table_ok shared_addr_table_disjoint).
Defined.

End RemoveByIp.

(** ** The registry of transaction ids: what [create] and [finish] keep *)

Section TranscationRegistry.

Import TranscationManager.

Implicit Types (m : TranscationManager.t) (tid : TranscationManager.Tid).

Lemma tid_eqb_eq (a b : Tid) : tid_eqb a b = true <-> a = b.
Proof.
  destruct a as [x|], b as [y|]; simpl; try (split; congruence).
  rewrite String.eqb_eq. split; congruence.
Qed.

Lemma tid_eqb_neq (a b : Tid) : tid_eqb a b = false <-> a <> b.
Proof.
  rewrite <- tid_eqb_eq. destruct (tid_eqb a b); split; congruence.
Qed.

Lemma set_has_elem (x : Tid) (s : list Tid) : set_has x s = true <-> x ∈ s.
Proof.
  unfold set_has. rewrite existsb_exists. split.
  - intros (y & Hy & Heq). apply tid_eqb_eq in Heq as ->.
    by apply list_elem_of_In.
  - intros Hx. exists x. split; [by apply list_elem_of_In | apply tid_eqb_refl].
Qed.

Lemma set_add_fresh (x : Tid) (s : list Tid) : x ∉ s -> set_add x s = s ++ [x].
Proof.
  intros Hx. unfold set_add. destruct (set_has x s) eqn:Hs; [|done].
  by apply set_has_elem in Hs.
Qed.

Lemma set_add_NoDup (x : Tid) (s : list Tid) : NoDup s -> NoDup (set_add x s).
Proof.
  intros Hs. unfold set_add. destruct (set_has x s) eqn:Hx; [done|].
  apply NoDup_app. split; [done|]. split; [|apply NoDup_singleton].
  intros y Hy Hy'. apply list_elem_of_singleton in Hy' as ->.
  apply set_has_elem in Hy. congruence.
Qed.

Lemma set_add_elem (x y : Tid) (s : list Tid) :
  x ∈ set_add y s <-> x = y \/ x ∈ s.
Proof.
  unfold set_add. destruct (set_has y s) eqn:Hy.
  - apply set_has_elem in Hy. split; [auto|]. by intros [->|].
  - rewrite elem_of_app, list_elem_of_singleton. tauto.
Qed.

Lemma without_elem (x y : Tid) (s : list Tid) :
  x ∈ List.filter (fun z => negb (tid_eqb z y)) s <-> x <> y /\ x ∈ s.
Proof.
  rewrite !list_elem_of_In, filter_In, negb_true_iff, tid_eqb_neq. tauto.
Qed.

Lemma without_fresh (y : Tid) (s : list Tid) :
  y ∉ s -> List.filter (fun z => negb (tid_eqb z y)) s = s.
Proof.
  intros Hy. apply forallb_filter_id, forallb_forall. intros x Hx.
  apply negb_true_iff, tid_eqb_neq. intros ->.
  by apply Hy, list_elem_of_In.
Qed.

Lemma without_Permutation (y : Tid) (s : list Tid) :
  NoDup s -> y ∈ s ->
  y :: List.filter (fun z => negb (tid_eqb z y)) s ≡ₚ s.
Proof.
  induction 1 as [|x s Hx Hs IH]; intros Hy; [by inversion Hy|]. simpl.
  destruct (tid_eqb x y) eqn:Hxy; simpl.
  - apply tid_eqb_eq in Hxy as ->. by rewrite without_fresh.
  - apply tid_eqb_neq in Hxy. apply elem_of_cons in Hy as [->|Hy]; [done|].
    rewrite Permutation_swap. by rewrite IH.
Qed.

Lemma map_has_elem {V} (k : Tid) (l : list (Tid * V)) :
  map_has k l = true <-> k ∈ map fst l.
Proof.
  unfold map_has. induction l as [|[k' v] l IH]; simpl.
  - split; [done|]. by intros H%elem_of_nil.
  - rewrite elem_of_cons. destruct (tid_eqb k' k) eqn:Hk.
    + apply tid_eqb_eq in Hk as ->. tauto.
    + apply tid_eqb_neq in Hk. rewrite IH. split; [tauto|].
      intros [->|]; done.
Qed.

Lemma map_delete_keys {V} (k : Tid) (l : list (Tid * V)) :
  map fst (map_delete k l)
  = List.filter (fun z => negb (tid_eqb z k)) (map fst l).
Proof.
  unfold map_delete. induction l as [|[k' v] l IH]; simpl; [done|].
  destruct (tid_eqb k' k); simpl; by rewrite IH.
Qed.

Lemma map_get_set {V} (k : Tid) (v : V) (l : list (Tid * V)) :
  map_get k (map_set k v l) = Some v.
Proof.
  induction l as [|[k' v'] l IH]; simpl; [by rewrite tid_eqb_refl|].
  destruct (tid_eqb k' k) eqn:Hk; simpl; by rewrite Hk.
Qed.

Lemma map_set_fresh {V} (k : Tid) (v : V) (l : list (Tid * V)) :
  k ∉ map fst l -> map_set k v l = l ++ [(k, v)].
Proof.
  induction l as [|[k' v'] l IH]; simpl; intros Hk; [done|].
  apply not_elem_of_cons in Hk as [Hk Hl].
  destruct (tid_eqb k' k) eqn:Heq; [by apply tid_eqb_eq in Heq|].
  by rewrite IH.
Qed.

Lemma map_set_keys {V} (k : Tid) (v : V) (l : list (Tid * V)) :
  k ∈ map fst l -> map fst (map_set k v l) = map fst l.
Proof.
  induction l as [|[k' v'] l IH]; simpl; intros Hk; [by inversion Hk|].
  destruct (tid_eqb k' k) eqn:Heq; simpl; [done|].
  apply tid_eqb_neq in Heq. apply elem_of_cons in Hk as [->|Hk]; [done|].
  by rewrite IH.
Qed.

Lemma map_get_member {V} (k : Tid) (v : V) (l : list (Tid * V)) :
  NoDup (map fst l) -> (k, v) ∈ l -> map_get k l = Some v.
Proof.
  induction l as [|[k' v'] l IH]; simpl; intros Hnd Hin; [by inversion Hin|].
  apply NoDup_cons in Hnd as [Hk' Hnd].
  apply elem_of_cons in Hin as [Heq|Hin].
  - injection Heq as <- <-. by rewrite tid_eqb_refl.
  - destruct (tid_eqb k' k) eqn:Heq; [|by apply IH].
    apply tid_eqb_eq in Heq as ->. destruct Hk'.
    apply list_elem_of_fmap. by exists (k, v).
Qed.

(** [putbackTid] moves one TID from the borrowed map to the pool, or
    does nothing. *)
Lemma putbackTid_ok tid m :
  registry_ok m -> reclaims m (putbackTid tid m).
Proof.
  intros (Hp & Hk & Hd). unfold reclaims, putbackTid.
  destruct (map_has tid (transcations m)) eqn:Hhas; simpl; [|done].
  apply map_has_elem in Hhas.
  assert (tid ∉ tidPool m) as Hfresh by (intros Hin; by apply (Hd tid)).
  unfold registry_ok, borrowed_tids. simpl.
  rewrite map_delete_keys, (set_add_fresh _ _ Hfresh).
  split; [split; [|split]|split; [|split; [|split]]].
  - apply NoDup_app. split; [done|]. split; [|apply NoDup_singleton].
    intros x Hx Hx'. by apply list_elem_of_singleton in Hx' as ->.
  - by apply NoDup_ListNoDup, List.NoDup_filter, NoDup_ListNoDup.
  - intros x Hx Hx'. apply without_elem in Hx' as [Hne Hx'].
    apply elem_of_app in Hx as [Hx|Hx]; [by apply (Hd x)|].
    by apply list_elem_of_singleton in Hx.
  - rewrite <- app_assoc. simpl. apply Permutation_app_head.
    by apply without_Permutation.
  - done.
  - intros _. by destruct (tidPool m).
  - unfold map_size, map_delete. pose proof (filter_length_le
      (fun kv : Tid * Transcation => negb (tid_eqb (fst kv) tid))
      (transcations m)). lia.
Qed.

Lemma tid_eqb_sym (a b : Tid) : tid_eqb a b = tid_eqb b a.
Proof.
  destruct (tid_eqb b a) eqn:H.
  - apply tid_eqb_eq in H as ->. apply tid_eqb_refl.
  - apply tid_eqb_neq. apply tid_eqb_neq in H. congruence.
Qed.

(** A loop of [putbackTid] over entries of the borrowed map: the
    entries leave the map and their TIDs join the pool, in the order of
    the loop. *)
Lemma putback_all (l : list (Tid * Transcation)) : forall m,
  registry_ok m -> NoDup (map fst l) ->
  (forall k, k ∈ map fst l -> k ∈ borrowed_tids m) ->
  registry_ok (fold_left (fun m kv => putbackTid (fst kv) m) l m) /\
  transcations (fold_left (fun m kv => putbackTid (fst kv) m) l m)
  = List.filter (fun kv => negb (set_has (fst kv) (map fst l)))
                (transcations m) /\
  tidPool (fold_left (fun m kv => putbackTid (fst kv) m) l m)
  = tidPool m ++ map fst l /\
  expiredTime (fold_left (fun m kv => putbackTid (fst kv) m) l m)
  = expiredTime m.
Proof.
  induction l as [|[k v] l IH]; intros m Hok Hnd Hsub; simpl.
  - split; [done|]. split; [|by rewrite app_nil_r].
    symmetry. by apply forallb_filter_id, forallb_forall.
  - apply NoDup_cons in Hnd as [Hk Hnd].
    assert (k ∈ borrowed_tids m) as Hkm by apply Hsub, list_elem_of_here.
    destruct (putbackTid_ok k m Hok) as (Hok1 & _ & Het1 & _).
    assert (putbackTid k m
            = mk (tidPool m ++ [k]) (map_delete k (transcations m))
                 (expiredTime m)) as Hm1.
    { unfold putbackTid. apply map_has_elem in Hkm. rewrite Hkm. simpl.
      rewrite set_add_fresh; [done|].
      destruct Hok as (_ & _ & Hd). intros Hin. apply (Hd k Hin).
      by apply map_has_elem. }
    destruct (IH (putbackTid k m) Hok1 Hnd) as (Hok2 & Htr & Hpool & Het).
    { intros k' Hk'. rewrite Hm1. unfold borrowed_tids. simpl.
      rewrite map_delete_keys. apply without_elem.
      split; [intros ->; done|]. by apply Hsub, list_elem_of_further. }
    split; [done|]. rewrite Htr, Hpool, Het, Hm1. simpl.
    split; [|split; [by rewrite <- app_assoc|done]].
    unfold map_delete. rewrite filter_filter_and. apply filter_ext.
    intros [k' v']. simpl. rewrite (tid_eqb_sym k k').
    by destruct (tid_eqb k' k), (set_has k' (map fst l)).
Qed.

Lemma set_has_keys (kv : Tid * Transcation) (l l' : list (Tid * Transcation)) :
  NoDup (map fst l) -> l' `sublist_of` l -> kv ∈ l ->
  set_has (fst kv) (map fst l') = true <-> kv ∈ l'.
Proof.
  intros Hnd Hsub Hkv. rewrite set_has_elem, list_elem_of_fmap. split.
  - intros (kv' & Heq & Hin).
    assert (kv = kv') as ->; [|done].
    apply (NoDup_map_eq fst l); [done|done| |done].
    by apply (elem_of_sublist _ _ _ Hin).
  - intros Hin. by exists kv.
Qed.

Lemma reclaims_refl m : registry_ok m -> reclaims m m.
Proof.
  intros Hok. split; [done|]. split; [done|]. split; [done|].
  split; [done|lia].
Qed.

Lemma reclaims_trans m1 m2 m3 :
  reclaims m1 m2 -> reclaims m2 m3 -> reclaims m1 m3.
Proof.
  intros (_ & Hp1 & He1 & Hn1 & Hs1) (Hok & Hp2 & He2 & Hn2 & Hs2).
  split; [done|]. split; [by rewrite Hp2|]. split; [congruence|].
  split; [auto | lia].
Qed.

Lemma putback_loop_ok (l : list (Tid * Transcation)) : forall m,
  registry_ok m ->
  reclaims m (fold_left (fun m kv => putbackTid (fst kv) m) l m).
Proof.
  induction l as [|kv l IH]; intros m Hok; simpl; [by apply reclaims_refl|].
  pose proof (putbackTid_ok (fst kv) m Hok) as H1.
  eapply reclaims_trans; [exact H1|]. apply IH, H1.
Qed.

Lemma clearExpiredTid_ok now m :
  registry_ok m -> reclaims m (clearExpiredTid now m).
Proof. apply putback_loop_ok. Qed.

Lemma forcePutback_ok m : registry_ok m -> reclaims m (forcePutback m).
Proof. apply putback_loop_ok. Qed.

Lemma isExpiredTid_member now m k v :
  NoDup (borrowed_tids m) -> (k, v) ∈ transcations m ->
  isExpiredTid now k m = (expiredAt v <? now).
Proof.
  intros Hnd Hin. unfold isExpiredTid. by rewrite (map_get_member k v).
Qed.

Lemma filter_Permutation_list {A} (f : A -> bool) (l l' : list A) :
  l ≡ₚ l' -> List.filter f l ≡ₚ List.filter f l'.
Proof.
  induction 1 as [|x l l' _ IH|x y l|l1 l2 l3 _ IH1 _ IH2]; simpl.
  - done.
  - destruct (f x); by rewrite IH.
  - destruct (f x), (f y); try done. apply Permutation_swap.
  - by rewrite IH1.
Qed.

Lemma filter_none {A} (f : A -> bool) (l : list A) :
  (forall x, x ∈ l -> f x = false) -> List.filter f l = [].
Proof.
  induction l as [|x l IH]; simpl; intros Hl; [done|].
  rewrite (Hl x) by apply list_elem_of_here.
  apply IH. intros y Hy. by apply Hl, list_elem_of_further.
Qed.

Lemma filter_all {A} (f : A -> bool) (l : list A) :
  (forall x, x ∈ l -> f x = true) -> List.filter f l = l.
Proof.
  intros Hl. apply forallb_filter_id, forallb_forall. intros x Hx.
  by apply Hl, list_elem_of_In.
Qed.

Lemma small_registry_ok : registry_ok small_registry.
Proof.
  unfold registry_ok, borrowed_tids. simpl.
  split; [compute_done|]. split; [compute_done|].
  apply Forall_forall. compute_done.
Qed.

(** X10. [clearExpiredTid] reclaims the expired transactions and no
    other: in a well-formed registry, the borrowed map afterwards is the
    map before without the entries whose expiry time has passed, in the
    same order, and the TIDs of those entries are appended to the pool
    in the order of the map. *)
Theorem clearExpiredTid_reclaims_the_expired now m :
  registry_ok m ->
  transcations (clearExpiredTid now m)
  = List.filter (fun kv => negb (expiredAt (snd kv) <? now)) (transcations m) /\
  tidPool (clearExpiredTid now m)
  = tidPool m
    ++ map fst (List.filter (fun kv => expiredAt (snd kv) <? now)
                            (transcations m)).
Proof.
  intros Hok. pose proof Hok as (_ & Hk & _). unfold clearExpiredTid.
  set (l := List.filter (fun kv => isExpiredTid now (fst kv) m) (transcations m)).
  assert (l = List.filter (fun kv => expiredAt (snd kv) <? now) (transcations m))
    as Hl.
  { apply filter_ext_in. intros [k v] Hin.
    by apply isExpiredTid_member, list_elem_of_In. }
  assert (l `sublist_of` transcations m) as Hsub by apply filter_sublist.
  destruct (putback_all l m Hok) as (_ & Htr & Hpool & _).
  - apply (sublist_NoDup (map fst l) (borrowed_tids m)); [done|].
    by apply fmap_sublist.
  - intros k Hin. eapply elem_of_sublist; [exact Hin|]. by apply fmap_sublist.
  - rewrite Htr, Hpool. split; [|by rewrite Hl].
    apply filter_ext_in. intros kv Hin. f_equal.
    apply Bool.eq_iff_eq_true.
    rewrite (set_has_keys kv (transcations m) l Hk Hsub)
      by by apply list_elem_of_In.
    rewrite Hl, list_elem_of_In, filter_In. tauto.
Qed.

Lemma clearExpiredTid_reclaims_the_expired_witness :
  registry_ok small_registry /\
  transcations (clearExpiredTid 200 small_registry)
  = List.filter (fun kv => negb (expiredAt (snd kv) <? 200))
                (transcations small_registry) /\
  tidPool (clearExpiredTid 200 small_registry)
  = tidPool small_registry
    ++ map fst (List.filter (fun kv => expiredAt (snd kv) <? 200)
                            (transcations small_registry)).
Proof.
  split; [exact small_registry_ok|].
  exact (clearExpiredTid_reclaims_the_expired 200 small_registry
           small_registry_ok).
Defined.

(** The entries [forcePutback] keeps are the sorted entries past the
    first half. *)
Lemma forcePutback_kept m :
  registry_ok m ->
  let sorted := Js.sort (fun a b => expiredAt (snd a) - expiredAt (snd b))
                        (transcations m) in
  let n := Z.to_nat ((map_size (transcations m) + 1) / 2) in
  transcations (forcePutback m)
  = List.filter (fun kv => negb (set_has (fst kv) (map fst (take n sorted))))
                (transcations m) /\
  transcations (forcePutback m) ≡ₚ drop n sorted /\
  tidPool (forcePutback m) = tidPool m ++ map fst (take n sorted) /\
  NoDup (map fst sorted).
Proof.
  intros Hok sorted n. pose proof Hok as (_ & Hk & _).
  assert (sorted ≡ₚ transcations m) as Hperm by apply sort_Permutation.
  assert (NoDup (map fst sorted)) as Hnd.
  { by rewrite Hperm. }
  assert (take n sorted `sublist_of` sorted) as Hsub by apply sublist_take.
  unfold forcePutback. fold sorted. fold n.
  destruct (putback_all (take n sorted) m Hok) as (_ & Htr & Hpool & _).
  - eapply sublist_NoDup; [exact Hnd|]. by apply fmap_sublist.
  - intros k Hin. unfold borrowed_tids.
    rewrite <- (fmap_Permutation fst _ _ Hperm).
    eapply elem_of_sublist; [exact Hin|]. by apply fmap_sublist.
  - split; [done|]. split; [|done].
    rewrite Htr, <- (filter_Permutation_list _ _ _ Hperm).
    set (g := fun kv : Tid * Transcation =>
                negb (set_has (fst kv) (map fst (take n sorted)))).
    transitivity (List.filter g (take n sorted ++ drop n sorted));
      [by rewrite take_drop|].
    rewrite List.filter_app, filter_none, filter_all; [done| |].
    + intros kv Hkv. apply negb_true_iff, not_true_is_false.
      rewrite (set_has_keys kv sorted (take n sorted) Hnd Hsub).
      * intros Hin. rewrite <- (take_drop n sorted), fmap_app in Hnd.
        apply NoDup_app in Hnd as (_ & Hdis & _).
        apply (Hdis (fst kv)); by apply list_elem_of_fmap_2.
      * rewrite <- (take_drop n sorted). apply elem_of_app. by right.
    + intros kv Hkv. apply negb_false_iff, set_has_elem.
      by apply list_elem_of_fmap_2.
Qed.

Lemma forcePutback_size m :
  registry_ok m ->
  map_size (transcations (forcePutback m)) = map_size (transcations m) / 2.
Proof.
  intros Hok. destruct (forcePutback_kept m Hok) as (_ & Hperm & _).
  unfold map_size at 1. rewrite Hperm, length_drop.
  rewrite (Permutation_length (sort_Permutation _ (transcations m))).
  unfold map_size. set (len := length (transcations m)).
  assert (0 <= (Z.of_nat len + 1) / 2 <= Z.of_nat len
          /\ Z.of_nat len - (Z.of_nat len + 1) / 2 = Z.of_nat len / 2) as [Hr He].
  { pose proof (Z.div_mod (Z.of_nat len + 1) 2).
    pose proof (Z.mod_pos_bound (Z.of_nat len + 1) 2).
    pose proof (Z.div_mod (Z.of_nat len) 2).
    pose proof (Z.mod_pos_bound (Z.of_nat len) 2). lia. }
  lia.
Qed.

(** X11. [forcePutback] reclaims the half of the borrowed TIDs that
    expires first: in a well-formed registry, half of the transactions
    (rounded down) stay borrowed, in their order; every transaction that
    is reclaimed expires no later than every transaction that stays; and
    the TID of every reclaimed transaction is in the pool. *)
Theorem forcePutback_reclaims_the_oldest_half m :
  registry_ok m ->
  map_size (transcations (forcePutback m)) = map_size (transcations m) / 2 /\
  transcations (forcePutback m) `sublist_of` transcations m /\
  (forall kv kv',
      kv ∈ transcations m -> kv ∉ transcations (forcePutback m) ->
      kv' ∈ transcations (forcePutback m) ->
      fst kv ∈ tidPool (forcePutback m) /\
      expiredAt (snd kv) <= expiredAt (snd kv')).
Proof.
  intros Hok. destruct (forcePutback_kept m Hok) as (Htr & Hperm & Hpool & Hnd).
  set (cmp := fun a b : Tid * Transcation => expiredAt (snd a) - expiredAt (snd b))
    in *.
  set (n := Z.to_nat ((map_size (transcations m) + 1) / 2)) in *.
  assert (Js.sort cmp (transcations m) ≡ₚ transcations m) as Hsort
    by apply sort_Permutation.
  split; [|split].
  - by apply forcePutback_size.
  - rewrite Htr. apply filter_sublist.
  - intros kv kv' Hin Hout Hkept.
    assert (kv ∈ take n (Js.sort cmp (transcations m))) as Htake.
    { apply (set_has_keys kv (Js.sort cmp (transcations m))); [done| |by rewrite Hsort|].
      - apply sublist_take.
      - apply not_false_iff_true. intros Hf. apply Hout.
        rewrite Htr. apply list_elem_of_In, filter_In.
        split; [by apply list_elem_of_In|]. by rewrite Hf. }
    split.
    + rewrite Hpool. apply elem_of_app. right. by apply list_elem_of_fmap_2.
    + rewrite Hperm in Hkept.
      destruct (StronglySorted_take_drop (fun kv => expiredAt (snd kv)) n
                  (Js.sort cmp (transcations m))) as [_ Hle].
      * apply (sort_StronglySorted _ cmp). intros a b. unfold cmp.
        destruct (Z.ltb_spec (expiredAt (snd a) - expiredAt (snd b)) 0),
          (Z.ltb_spec (expiredAt (snd a)) (expiredAt (snd b))); (done || lia).
      * by apply Hle.
Qed.

Lemma forcePutback_reclaims_the_oldest_half_witness :
  registry_ok small_registry /\
  map_size (transcations (forcePutback small_registry))
  = map_size (transcations small_registry) / 2 /\
  transcations (forcePutback small_registry)
    `sublist_of` transcations small_registry /\
  (forall kv kv',
      kv ∈ transcations small_registry ->
      kv ∉ transcations (forcePutback small_registry) ->
      kv' ∈ transcations (forcePutback small_registry) ->
      fst kv ∈ tidPool (forcePutback small_registry) /\
      expiredAt (snd kv) <= expiredAt (snd kv')).
Proof.
  split; [exact small_registry_ok|].
  exact (forcePutback_reclaims_the_oldest_half small_registry
           small_registry_ok).
Defined.

Lemma map_set_size {V} (k : Tid) (v : V) (l : list (Tid * V)) :
  map_size (map_set k v l) <= map_size l + 1.
Proof.
  unfold map_size. induction l as [|[k' v'] l IH]; simpl; [lia|].
  destruct (tid_eqb k' k); simpl; lia.
Qed.

(** The two reclamation steps of [borrowTid]. *)
Lemma borrowTid_reclaims now m :
  registry_ok m ->
  exists m2,
    reclaims m m2 /\
    (map_size (transcations m) <= ID_COUNT_MAX ->
     map_size (transcations m2) < ID_COUNT_MAX) /\
    (map_size (transcations m) <= ID_COUNT_HALF -> m2 = m) /\
    borrowTid now m
    = (match tidPool m2 with [] => None | x :: _ => x end,
       mk (set_delete (match tidPool m2 with [] => None | x :: _ => x end)
                      (tidPool m2))
          (transcations m2) (expiredTime m2)).
Proof.
  intros Hok. destruct ID_COUNT_MAX_value as [Hmax Hhalf].
  set (m1 := if map_size (transcations m) >? ID_COUNT_HALF
             then clearExpiredTid now m else m).
  exists (if map_size (transcations m1) >=? ID_COUNT_MAX
          then forcePutback m1 else m1).
  assert (reclaims m m1) as H1.
  { unfold m1. destruct (map_size (transcations m) >? ID_COUNT_HALF);
      [by apply clearExpiredTid_ok | by apply reclaims_refl]. }
  pose proof H1 as (Hok1 & _ & _ & _ & Hs1).
  split; [|split; [|split; [|done]]].
  - eapply reclaims_trans; [exact H1|].
    destruct (map_size (transcations m1) >=? ID_COUNT_MAX);
      [by apply forcePutback_ok | by apply reclaims_refl].
  - intros Hle.
    destruct (Z.geb_spec (map_size (transcations m1)) ID_COUNT_MAX) as [Hge|Hlt];
      [|done].
    rewrite (forcePutback_size m1 Hok1), Hmax in *.
    apply Z.div_lt_upper_bound; lia.
  - intros Hle. unfold m1.
    destruct (Z.gtb_spec (map_size (transcations m)) ID_COUNT_HALF) as [Hgt|_];
      [lia|].
    destruct (Z.geb_spec (map_size (transcations m)) ID_COUNT_MAX) as [Hge|_];
      [lia|done].
Qed.

(** [create] in a registry that has a free TID: after the reclamation
    steps, the first TID of the pool is borrowed. *)
Lemma create_borrows now d m :
  registry_ok m -> tidPool m <> [] ->
  exists x rest m2,
    reclaims m m2 /\ tidPool m2 = x :: rest /\
    (map_size (transcations m) <= ID_COUNT_MAX ->
     map_size (transcations m2) < ID_COUNT_MAX) /\
    (map_size (transcations m) <= ID_COUNT_HALF -> m2 = m) /\
    create now d m
    = (x, mk rest
             (transcations m2 ++ [(x, mkTranscation (now + expiredTime m) d)])
             (expiredTime m)).
Proof.
  intros Hok Hne.
  destruct (borrowTid_reclaims now m Hok) as (m2 & Hrec & Hsz & Hsame & Hb).
  pose proof Hrec as ((Hp & Hk & Hd) & _ & He & Hne2 & _).
  destruct (tidPool m2) as [|x rest] eqn:Hpool; [by destruct (Hne2 Hne)|].
  exists x, rest, m2. split; [done|]. split; [done|]. split; [done|].
  split; [done|]. unfold create. rewrite Hb. simpl.
  apply NoDup_cons in Hp as [Hx Hp].
  rewrite tid_eqb_refl. simpl. unfold set_delete in *.
  rewrite (without_fresh x rest Hx), He, map_set_fresh; [done|].
  apply Hd, list_elem_of_here.
Qed.

Lemma finish_ok now tid m : registry_ok m -> reclaims m (finish now tid m).
Proof.
  intros Hok. unfold finish.
  destruct (isValid now tid m); simpl;
    [by apply putbackTid_ok | by apply reclaims_refl].
Qed.

(** The registry after the first TID of the pool is borrowed. *)
Lemma borrowed_ok x rest tr et v :
  registry_ok (mk (x :: rest) tr et) ->
  registry_ok (mk rest (tr ++ [(x, v)]) et) /\
  rest ++ map fst (tr ++ [(x, v)]) ≡ₚ (x :: rest) ++ map fst tr.
Proof.
  unfold registry_ok, borrowed_tids. simpl. intros (Hp & Hk & Hd).
  apply NoDup_cons in Hp as [Hx Hp]. rewrite fmap_app. simpl.
  split; [split; [done|split]|].
  - apply NoDup_app. split; [done|]. split; [|apply NoDup_singleton].
    intros y Hy Hy'. apply list_elem_of_singleton in Hy' as ->.
    apply (Hd x); [apply list_elem_of_here | done].
  - intros y Hy Hy'. apply elem_of_app in Hy' as [Hy'|Hy'].
    + apply (Hd y); [by apply list_elem_of_further | done].
    + by apply list_elem_of_singleton in Hy' as ->.
  - rewrite app_assoc, <- Permutation_cons_append. done.
Qed.

(** X12. [create] in a well-formed registry with a free TID borrows a
    TID that is free after the reclamation steps: the registry stays
    well formed, the TID returned has left the pool and is mapped to the
    data with the expiry time [now + expiredTime], no TID is lost or
    made up, and the TID returned is one the registry held. *)
Theorem create_borrows_a_free_tid now d m tid m' :
  registry_ok m -> tidPool m <> [] ->
  create now d m = (tid, m') ->
  registry_ok m' /\
  (tid ∉ tidPool m') /\
  map_get tid (transcations m') = Some (mkTranscation (now + expiredTime m) d) /\
  tidPool m' ++ borrowed_tids m' ≡ₚ tidPool m ++ borrowed_tids m /\
  tid ∈ tidPool m ++ borrowed_tids m.
Proof.
  intros Hok Hne Hc.
  destruct (create_borrows now d m Hok Hne)
    as (x & rest & m2 & Hrec & Hpool & _ & _ & Hc').
  rewrite Hc in Hc'. injection Hc' as -> ->.
  destruct Hrec as (Hok2 & Hperm & _).
  destruct m2 as [pool2 tr2 et2]. simpl in *. subst pool2.
  destruct (borrowed_ok x rest tr2 (expiredTime m)
              (mkTranscation (now + expiredTime m) d)) as [Hok' Hperm'];
    [exact Hok2|].
  split; [done|]. split.
  { destruct Hok2 as (Hp & _). by apply NoDup_cons in Hp as [Hx _]. }
  split.
  { rewrite <- map_set_fresh; [apply map_get_set|].
    destruct Hok2 as (_ & _ & Hd). apply (Hd x), list_elem_of_here. }
  unfold borrowed_tids in *. simpl in *.
  split; [by rewrite Hperm'|].
  rewrite <- Hperm. apply list_elem_of_here.
Qed.

Lemma create_borrows_a_free_tid_witness :
  registry_ok small_registry /\ tidPool small_registry <> [] /\
  create 50 None small_registry
  = (Some "00"%string,
     mk [Some "01"; Some "02"]%string
        (transcations small_registry
           ++ [(Some "00"%string, mkTranscation 1050 None)]) 1000) /\
  registry_ok (snd (create 50 None small_registry)) /\
  Some "00"%string ∉ tidPool (snd (create 50 None small_registry)).
Proof.
  assert (create 50 None small_registry
          = (Some "00"%string,
             mk [Some "01"; Some "02"]%string
                (transcations small_registry
                   ++ [(Some "00"%string, mkTranscation 1050 None)]) 1000))
    as Hc by reflexivity.
  split; [exact small_registry_ok|]. split; [done|]. split; [exact Hc|].
  destruct (create_borrows_a_free_tid 50 None small_registry _ _
              small_registry_ok ltac:(done) Hc) as (H1 & H2 & _).
  rewrite Hc. by split.
Defined.

(** *** The pool the constructor builds *)

Lemma set_add_all (l : list Tid) : forall acc,
  NoDup (acc ++ l) -> fold_left (fun s x => set_add x s) l acc = acc ++ l.
Proof.
  induction l as [|x l IH]; intros acc Hnd; simpl; [by rewrite app_nil_r|].
  assert (x ∉ acc) as Hx.
  { apply NoDup_app in Hnd as (_ & Hd & _). intros Hin.
    apply (Hd x Hin), list_elem_of_here. }
  rewrite (set_add_fresh x acc Hx), IH; rewrite <- app_assoc; done.
Qed.

Lemma collection_fold (cs ds : list ascii) : forall acc,
  fold_left
    (fun acc i =>
       fold_left
         (fun acc j => set_add (Some (String i (String j EmptyString))) acc)
         ds acc)
    cs acc
  = fold_left (fun s x => set_add x s)
      (flat_map
         (fun i => map (fun j => Some (String i (String j EmptyString))) ds) cs)
      acc.
Proof.
  induction cs as [|c cs IH]; intros acc; simpl; [done|].
  rewrite IH, fold_left_app. f_equal.
  clear. revert acc. induction ds as [|j ds IH]; intros acc; simpl; [done|].
  apply IH.
Qed.

Lemma pairs_NoDup (cs ds : list ascii) :
  NoDup cs -> NoDup ds ->
  NoDup (flat_map
           (fun i => map (fun j => Some (String i (String j EmptyString))) ds)
           cs).
Proof.
  induction 1 as [|c cs Hc Hcs IH]; intros Hds; simpl; [constructor|].
  apply NoDup_app. split; [|split; [|by apply IH]].
  - apply NoDup_fmap_2; [|done]. by intros j j' [= ->].
  - intros x Hx Hx'. apply list_elem_of_fmap in Hx as (j & -> & Hj).
    apply list_elem_of_In, in_flat_map in Hx' as (i & Hi & Hx').
    apply in_map_iff in Hx' as (j' & Heq & _). injection Heq as -> _.
    by apply Hc, list_elem_of_In.
Qed.

Lemma two_chars_NoDup : NoDup two_chars.
Proof. apply pairs_NoDup; compute_done. Qed.

Lemma two_chars_length : length two_chars = 3844%nat.
Proof. vm_compute. reflexivity. Qed.

Lemma two_chars_elem (x : Tid) :
  x ∈ two_chars <->
  exists a b, a ∈ chars /\ b ∈ chars
              /\ x = Some (String a (String b EmptyString)).
Proof.
  unfold two_chars. rewrite list_elem_of_In, in_flat_map. split.
  - intros (a & Ha & Hx). apply in_map_iff in Hx as (b & <- & Hb).
    exists a, b. by rewrite !list_elem_of_In.
  - intros (a & b & Ha & Hb & ->). exists a.
    split; [by apply list_elem_of_In|].
    apply in_map_iff. exists b. split; [done | by apply list_elem_of_In].
Qed.

Lemma collection_two_chars : collection = two_chars.
Proof.
  unfold collection. rewrite collection_fold.
  apply (set_add_all _ []). apply two_chars_NoDup.
Qed.

Lemma insert_Permutation_cons {A} (l : list A) : forall j x y,
  l !! j = Some y -> y :: <[j := x]> l ≡ₚ x :: l.
Proof.
  induction l as [|a l IH]; intros [|j] x y Hj; simpl in *; try done.
  - injection Hj as ->. apply Permutation_swap.
  - rewrite Permutation_swap, (IH j x y Hj). apply Permutation_swap.
Qed.

Lemma swap_Permutation {A} (i j : nat) (l : list A) : swap i j l ≡ₚ l.
Proof.
  unfold swap.
  destruct (l !! i) as [x|] eqn:Hi; [|done].
  destruct (l !! j) as [y|] eqn:Hj; [|done].
  apply (Permutation_cons_inv (a := y)).
  rewrite (insert_Permutation_cons (<[i := y]> l) j x y).
  - by apply insert_Permutation_cons.
  - destruct (decide (i = j)) as [->|Hne].
    + apply list_lookup_insert_eq. by apply lookup_lt_Some in Hj.
    + by rewrite list_lookup_insert_ne.
Qed.

Lemma shuffle_Permutation {A} (draw : nat -> nat) (l : list A) :
  shuffle draw l ≡ₚ l.
Proof.
  unfold shuffle. generalize (seq 0 (length l)). intros rounds.
  revert l. induction rounds as [|i rounds IH]; intros l; simpl; [done|].
  by rewrite IH, swap_Permutation.
Qed.

Lemma initIdPool_Permutation (draw : nat -> nat) :
  initIdPool draw ≡ₚ two_chars.
Proof.
  unfold initIdPool.
  assert (shuffle draw collection ≡ₚ two_chars) as Hperm
    by (rewrite shuffle_Permutation; by rewrite collection_two_chars).
  rewrite (set_add_all _ []); [done|]. simpl.
  rewrite Hperm. apply two_chars_NoDup.
Qed.

(** X13. Whatever numbers the shuffle draws, the constructor builds a
    pool that holds every two-character string over [CHARS] exactly
    once, 3844 TIDs in all and nothing else, and no transaction. *)
Theorem new_pool_holds_every_tid_once (draw : nat -> nat) (e : option Z) :
  NoDup (tidPool (new draw e)) /\
  length (tidPool (new draw e)) = 3844%nat /\
  (forall tid,
      tid ∈ tidPool (new draw e) <->
      exists a b, a ∈ chars /\ b ∈ chars
                  /\ tid = Some (String a (String b EmptyString))) /\
  transcations (new draw e) = [].
Proof.
  pose proof (initIdPool_Permutation draw) as Hperm.
  change (tidPool (new draw e)) with (initIdPool draw).
  split; [rewrite Hperm; apply two_chars_NoDup|].
  split; [rewrite Hperm; apply two_chars_length|].
  split; [|done]. intros tid. rewrite Hperm. apply two_chars_elem.
Qed.

(** *** Runs of [create] and [finish] *)

Lemma pool_not_empty m :
  tidPool m ++ borrowed_tids m ≡ₚ two_chars ->
  map_size (transcations m) <= ID_COUNT_MAX ->
  tidPool m <> [].
Proof.
  intros Hperm Hs Hnil. apply Permutation_length in Hperm.
  rewrite Hnil, two_chars_length in Hperm. unfold borrowed_tids in Hperm.
  simpl in Hperm. rewrite length_map in Hperm.
  destruct ID_COUNT_MAX_value as [Hmax _]. unfold map_size in Hs. lia.
Qed.

Lemma call_keeps c m :
  registry_ok m ->
  tidPool m ++ borrowed_tids m ≡ₚ two_chars ->
  map_size (transcations m) <= ID_COUNT_MAX ->
  registry_ok (call m c) /\
  tidPool (call m c) ++ borrowed_tids (call m c) ≡ₚ two_chars /\
  map_size (transcations (call m c)) <= ID_COUNT_MAX.
Proof.
  intros Hok Hperm Hs. destruct c as [now d|now tid]; unfold call.
  - destruct (create_borrows now d m Hok (pool_not_empty m Hperm Hs))
      as (x & rest & m2 & Hrec & Hpool & Hsz & _ & ->).
    destruct Hrec as (Hok2 & Hperm2 & _). specialize (Hsz Hs).
    destruct m2 as [pool2 tr2 et2]. simpl in Hpool, Hsz. subst pool2.
    destruct (borrowed_ok x rest tr2 (expiredTime m)
                (mkTranscation (now + expiredTime m) d)) as [Hok' Hperm'];
      [exact Hok2|].
    split; [exact Hok'|]. unfold borrowed_tids in *. simpl in *.
    split; [by rewrite Hperm', Hperm2|].
    unfold map_size in *. rewrite length_app. simpl. lia.
  - destruct (finish_ok now tid m Hok) as (Hok' & Hperm' & _ & _ & Hs').
    split; [done|]. split; [by rewrite Hperm' | lia].
Qed.

Lemma run_keeps cs : forall m,
  registry_ok m ->
  tidPool m ++ borrowed_tids m ≡ₚ two_chars ->
  map_size (transcations m) <= ID_COUNT_MAX ->
  registry_ok (run cs m) /\
  tidPool (run cs m) ++ borrowed_tids (run cs m) ≡ₚ two_chars /\
  map_size (transcations (run cs m)) <= ID_COUNT_MAX.
Proof.
  induction cs as [|c cs IH]; intros m Hok Hperm Hs; [done|].
  destruct (call_keeps c m Hok Hperm Hs) as (Hok' & Hperm' & Hs').
  by apply (IH (call m c)).
Qed.

Lemma new_keeps draw e :
  registry_ok (new draw e) /\
  tidPool (new draw e) ++ borrowed_tids (new draw e) ≡ₚ two_chars /\
  map_size (transcations (new draw e)) <= ID_COUNT_MAX.
Proof.
  pose proof (initIdPool_Permutation draw) as Hperm.
  unfold registry_ok, borrowed_tids.
  change (tidPool (new draw e)) with (initIdPool draw).
  change (transcations (new draw e)) with (@nil (Tid * Transcation)).
  split; [split; [|split]|split].
  - rewrite Hperm. apply two_chars_NoDup.
  - constructor.
  - intros tid _ Hin. by apply elem_of_nil in Hin.
  - by rewrite app_nil_r.
  - by destruct ID_COUNT_MAX_value as [-> _].
Qed.

(** X14. The registry never runs dry. After any run of [create] and
    [finish] calls on a new registry, whatever the shuffle drew: no TID
    is free twice, borrowed twice or both; the free and the borrowed
    TIDs together are the 3844 two-character strings; at most 60
    transactions are outstanding; and the next [create] returns a
    two-character string, never [undefined]. *)
Theorem registry_never_runs_dry draw e cs now d :
  registry_ok (run cs (new draw e)) /\
  tidPool (run cs (new draw e)) ++ borrowed_tids (run cs (new draw e))
    ≡ₚ two_chars /\
  map_size (transcations (run cs (new draw e))) <= 60 /\
  exists s, fst (create now d (run cs (new draw e))) = Some s
            /\ Some s ∈ two_chars.
Proof.
  destruct (new_keeps draw e) as (Hok0 & Hperm0 & Hs0).
  destruct (run_keeps cs (new draw e) Hok0 Hperm0 Hs0) as (Hok & Hperm & Hs).
  generalize dependent (run cs (new draw e)). intros m Hok Hperm Hs.
  split; [done|]. split; [done|].
  split; [by destruct ID_COUNT_MAX_value as [<- _]|].
  destruct (create_borrows now d m Hok (pool_not_empty m Hperm Hs))
    as (x & rest & m2 & (_ & Hperm2 & _) & Hpool & _ & _ & ->). simpl.
  assert (x ∈ two_chars) as Hx.
  { rewrite <- Hperm, <- Hperm2, Hpool. apply list_elem_of_here. }
  pose proof Hx as Hx'. apply two_chars_elem in Hx' as (a & b & _ & _ & ->).
  eauto.
Qed.

Lemma putback_loop_expiredTime (l : list (Tid * Transcation)) : forall m,
  expiredTime (fold_left (fun m kv => putbackTid (fst kv) m) l m)
  = expiredTime m.
Proof.
  induction l as [|kv l IH]; intros m; simpl; [done|]. rewrite IH.
  unfold putbackTid. by destruct (map_has (fst kv) (transcations m)).
Qed.

Lemma borrowTid_expiredTime now m :
  expiredTime (snd (borrowTid now m)) = expiredTime m.
Proof.
  unfold borrowTid. simpl.
  destruct (map_size (transcations m) >? ID_COUNT_HALF).
  - destruct (_ >=? ID_COUNT_MAX);
      unfold forcePutback, clearExpiredTid;
      by rewrite ?putback_loop_expiredTime.
  - destruct (_ >=? ID_COUNT_MAX); unfold forcePutback;
      by rewrite ?putback_loop_expiredTime.
Qed.

(** X15. [getData] gives back what [create] stored until the
    transaction expires: on every registry, at a time no later than
    [now + expiredTime] the data passed to [create] is returned for the
    TID [create] returned, and past that time [undefined]. *)
Theorem getData_after_create now now' d m :
  getData now' (fst (create now d m)) (snd (create now d m))
  = if now + expiredTime m <? now' then None else d.
Proof.
  pose proof (borrowTid_expiredTime now m) as Het.
  unfold create. destruct (borrowTid now m) as [tid m1]. simpl in *.
  unfold getData, isValid, isExpiredTid, map_has. simpl.
  rewrite map_get_set. simpl. rewrite Het.
  by destruct (now + expiredTime m <? now').
Qed.

(** X16. A transaction that is created and finished before it expires
    leaves the registry as it was, but for the place of its TID in the
    pool: with at most [ID_COUNT_HALF] transactions outstanding,
    [create] returns the first TID of the pool, and [finish] puts it
    back at the end of the pool and restores the borrowed map. *)
Theorem create_then_finish_restores now now' d m x rest :
  registry_ok m -> tidPool m = x :: rest ->
  map_size (transcations m) <= ID_COUNT_HALF ->
  now' <= now + expiredTime m ->
  fst (create now d m) = x /\
  finish now' x (snd (create now d m))
  = mk (rest ++ [x]) (transcations m) (expiredTime m).
Proof.
  intros Hok Hpool Hs Hnow.
  destruct (create_borrows now d m Hok) as
    (x' & rest' & m2 & _ & Hpool2 & _ & Hsame & ->); [by rewrite Hpool|].
  rewrite (Hsame Hs), Hpool in Hpool2. injection Hpool2 as <- <-.
  rewrite (Hsame Hs). simpl. split; [done|].
  destruct Hok as (Hp & Hk & Hd). rewrite Hpool in Hp, Hd.
  apply NoDup_cons in Hp as [Hx Hp].
  assert (x ∉ borrowed_tids m) as Hxk by apply Hd, list_elem_of_here.
  set (v := mkTranscation (now + expiredTime m) d).
  assert (map_get x (transcations m ++ [(x, v)]) = Some v) as Hget
    by (rewrite <- map_set_fresh; [apply map_get_set | done]).
  unfold finish, isValid, isExpiredTid, putbackTid, map_has. simpl.
  rewrite Hget. simpl.
  destruct (Z.ltb_spec (now + expiredTime m) now') as [Hlt|_]; [lia|]. simpl.
  rewrite (set_add_fresh x rest Hx). f_equal.
  unfold map_delete. rewrite List.filter_app. simpl.
  rewrite tid_eqb_refl. simpl. rewrite app_nil_r.
  apply filter_all. intros [k w] Hin. simpl.
  apply negb_true_iff, tid_eqb_neq. intros ->. apply Hxk.
  by apply (list_elem_of_fmap_2 fst) in Hin.
Qed.

Lemma create_then_finish_restores_witness :
  registry_ok small_registry /\
  tidPool small_registry = [Some "00"; Some "01"; Some "02"]%string /\
  map_size (transcations small_registry) <= ID_COUNT_HALF /\
  50 <= 40 + expiredTime small_registry /\
  fst (create 40 None small_registry) = Some "00"%string /\
  finish 50 (Some "00"%string) (snd (create 40 None small_registry))
  = mk ([Some "01"; Some "02"]%string ++ [Some "00"%string])
       (transcations small_registry) (expiredTime small_registry).
Proof.
  assert (map_size (transcations small_registry) <= ID_COUNT_HALF) as Hs
    by (vm_compute; discriminate).
  assert (50 <= 40 + expiredTime small_registry) as Hnow
    by (vm_compute; discriminate).
  split; [exact small_registry_ok|]. split; [reflexivity|].
  split; [exact Hs|]. split; [exact Hnow|].
  exact (create_then_finish_restores 40 50 None small_registry
           (Some "00"%string) [Some "01"; Some "02"]%string
           small_registry_ok eq_refl Hs Hnow).
Defined.

End TranscationRegistry.

(** ** The info-hash store: bounds, tokens, removal *)

Section InfoHashStore.

Import InfoHashManager.

Implicit Types (m : InfoHashManager.t) (peer : Peer.t).

Lemma set_add_objects peer ps :
  NoDup (map Peer.obj ps) -> NoDup (map Peer.obj (set_add peer ps)).
Proof.
  unfold set_add. destruct (set_has peer ps) eqn:Hhas; [done|].
  intros Hnd. rewrite map_app. apply NoDup_app.
  split; [done|]. split; [|apply NoDup_singleton].
  intros o Ho Ho'. apply list_elem_of_singleton in Ho' as ->.
  apply list_elem_of_fmap in Ho as (q & Heq & Hq).
  assert (set_has peer ps = true) as Hyes; [|congruence].
  unfold set_has. apply existsb_exists. exists q.
  split; [by apply list_elem_of_In | by apply Pos.eqb_eq].
Qed.

Lemma set_add_length peer ps :
  set_add peer ps <> [] /\
  (length ps <= length (set_add peer ps) <= S (length ps))%nat.
Proof.
  unfold set_add. destruct (set_has peer ps) eqn:Hhas.
  - split; [|lia]. intros ->. discriminate Hhas.
  - rewrite length_app. simpl. split; [|lia]. by destruct ps.
Qed.

Lemma add_ok infoHash peer token m :
  store_ok m -> store_ok (add infoHash peer token m).
Proof.
  intros (Hsize & Hpeers & Hdom).
  destruct (rejected infoHash token m) eqn:Hrej;
    [by rewrite add_guard_returns|].
  rewrite add_accepted by done. unfold rejected in Hrej.
  apply orb_false_iff in Hrej as [Hrej Hfull].
  apply orb_false_iff in Hrej as [Hmax Hmis].
  rewrite Z.geb_leb in Hmax. apply Z.leb_gt in Hmax.
  split; [|split]; simpl.
  - rewrite map_size_insert.
    destruct (infoHashes m !! infoHash); simpl; [done | lia].
  - intros h ps. destruct (decide (h = infoHash)) as [->|Hne].
    + rewrite lookup_insert_eq. intros [= <-].
      destruct (set_add_length peer (default [] (infoHashes m !! infoHash)))
        as [Hne Hlen].
      split; [done|].
      destruct (infoHashes m !! infoHash) as [ps0|] eqn:Hps0; simpl in *.
      * rewrite Z.geb_leb in Hfull. apply Z.leb_gt in Hfull.
        split; [lia|]. apply set_add_objects. by apply (Hpeers infoHash).
      * split; [unfold MAX_PEER_NUM_EACH_INFO_HASH; lia|].
        apply NoDup_singleton.
    + rewrite lookup_insert_ne by done. apply Hpeers.
  - intros h. rewrite lookup_insert_is_Some.
    destruct (no_token (tokenMap m !! infoHash)) eqn:Hnt.
    + rewrite lookup_insert_is_Some, Hdom. tauto.
    + rewrite Hdom. split; [|by destruct (decide (infoHash = h)); auto].
      intros [<-|[_ Hh]]; [|done].
      destruct (tokenMap m !! infoHash); [by eexists | done].
Qed.

Lemma addList_ok infoHash peers token : forall m,
  store_ok m -> store_ok (addList infoHash peers token m).
Proof.
  unfold addList. induction peers as [|peer peers IH]; intros m Hok; [done|].
  simpl. by apply IH, add_ok.
Qed.

Lemma remove_ok infoHash m : store_ok m -> store_ok (remove infoHash m).
Proof.
  intros (Hsize & Hpeers & Hdom). unfold remove.
  destruct (infoHashes m !! infoHash) as [ps|] eqn:Hps; [|done].
  split; [|split]; simpl.
  - rewrite map_size_delete_Some by by rewrite Hps. lia.
  - intros h ps'. destruct (decide (h = infoHash)) as [->|Hne].
    + by rewrite lookup_delete_eq.
    + rewrite lookup_delete_ne by done. apply Hpeers.
  - intros h. rewrite !lookup_delete_is_Some, Hdom. tauto.
Qed.

Lemma empty_ok : store_ok empty.
Proof.
  split; [|split]; simpl.
  - rewrite map_size_empty. unfold MAX_INFO_HASH_NUM. lia.
  - intros h ps. by rewrite lookup_empty.
  - intros h. by rewrite !lookup_empty.
Qed.

(** X17. The store stays within its bounds. After any run of [add],
    [addList] and [remove] calls on the empty store: at most 1,048,576
    info-hashes are stored; every stored info-hash has at least one and
    at most 100 peers, no [Peer] object twice; and a token is kept for
    the stored info-hashes and for no other. *)
Theorem store_stays_within_its_bounds (cs : list StoreCall) :
  store_ok (store_run cs empty).
Proof.
  pose proof empty_ok as Hempty.
  unfold store_run. revert Hempty. generalize empty.
  induction cs as [|c cs IH]; intros m Hok; [done|]. simpl.
  apply IH. destruct c as [h p t|h ps t|h]; simpl.
  - by apply add_ok.
  - by apply addList_ok.
  - by apply remove_ok.
Qed.

Lemma add_keeps_token h tk infoHash peer token m :
  findToken h m = Some tk -> Js.truthy tk = true ->
  findToken h (add infoHash peer token m) = Some tk.
Proof.
  unfold findToken. intros Htk Htruthy.
  destruct (rejected infoHash token m) eqn:Hrej;
    [by rewrite add_guard_returns|].
  rewrite add_accepted by done. simpl.
  destruct (no_token (tokenMap m !! infoHash)) eqn:Hnt; [|done].
  destruct (decide (infoHash = h)) as [->|Hne].
  - rewrite Htk in Hnt. simpl in Hnt. by rewrite Htruthy in Hnt.
  - by rewrite lookup_insert_ne.
Qed.

Lemma addList_keeps_token h tk infoHash peers token : forall m,
  findToken h m = Some tk -> Js.truthy tk = true ->
  findToken h (addList infoHash peers token m) = Some tk.
Proof.
  unfold addList. induction peers as [|peer peers IH]; intros m Htk Ht; [done|].
  simpl. apply IH; [|done]. by apply add_keeps_token.
Qed.

(** X18. The first token of an info-hash is the token it keeps. Once a
    non-empty token is stored for an info-hash, no run of [add],
    [addList] and [remove] calls that does not remove this info-hash
    changes it, and afterwards a peer announced for the info-hash with
    another token is not stored. *)
Theorem token_is_fixed h tk m (cs : list StoreCall) :
  findToken h m = Some tk -> Js.truthy tk = true ->
  Forall (fun c => c <> Remove h) cs ->
  findToken h (store_run cs m) = Some tk /\
  (forall peer token,
      token <> tk ->
      add h peer token (store_run cs m) = store_run cs m).
Proof.
  intros Htk Htruthy Hcs.
  assert (findToken h (store_run cs m) = Some tk) as Hrun.
  { unfold store_run. revert m Htk.
    induction Hcs as [|c cs Hc _ IH]; intros m Htk; [done|]. simpl.
    apply IH. destruct c as [h' p t|h' ps t|h']; simpl.
    - by apply add_keeps_token.
    - by apply addList_keeps_token.
    - unfold remove. destruct (infoHashes m !! h'); [|done].
      unfold findToken in *. simpl. rewrite lookup_delete_ne; [done|].
      intros ->. by apply Hc. }
  split; [done|]. intros peer token Hne. apply add_guard_returns.
  unfold rejected. unfold findToken in Hrun. rewrite Hrun. simpl.
  rewrite Htruthy. simpl.
  destruct (String.eqb_spec tk token) as [->|_]; [done|].
  by rewrite orb_true_r.
Qed.

Lemma token_is_fixed_witness :
  findToken hash_1 store_1 = Some "aa"%string /\
  Js.truthy "aa" = true /\
  Forall (fun c => c <> Remove hash_1)
         [Add hash_1 peer_2 "bb"; Remove "00"; AddList "01" [peer_2] "cc"] /\
  findToken hash_1
    (store_run [Add hash_1 peer_2 "bb"; Remove "00"; AddList "01" [peer_2] "cc"]
               store_1) = Some "aa"%string /\
  (forall peer token,
      token <> "aa"%string ->
      add hash_1 peer token
          (store_run [Add hash_1 peer_2 "bb"; Remove "00";
                      AddList "01" [peer_2] "cc"] store_1)
      = store_run [Add hash_1 peer_2 "bb"; Remove "00";
                   AddList "01" [peer_2] "cc"] store_1).
Proof.
  assert (findToken hash_1 store_1 = Some "aa"%string) as Htk
    by (vm_compute; reflexivity).
  assert (Forall (fun c => c <> Remove hash_1)
            [Add hash_1 peer_2 "bb"; Remove "00"; AddList "01" [peer_2] "cc"])
    as Hcs by (repeat constructor; discriminate).
  split; [exact Htk|]. split; [reflexivity|]. split; [exact Hcs|].
  exact (token_is_fixed hash_1 "aa" store_1 _ Htk eq_refl Hcs).
Defined.

(** X19. [remove] undoes the first announce of an info-hash: when the
    store is within its bounds and below the bound on info-hashes, and
    holds nothing for the info-hash, [add] followed by [remove] gives
    the store back as it was. *)
Theorem add_then_remove_restores infoHash peer token m :
  store_ok m ->
  Z.of_nat (size (infoHashes m)) < MAX_INFO_HASH_NUM ->
  find infoHash m = None ->
  find infoHash (add infoHash peer token m) = Some [peer] /\
  findToken infoHash (add infoHash peer token m) = Some token /\
  remove infoHash (add infoHash peer token m) = m.
Proof.
  intros (_ & _ & Hdom) Hsize Hnone. unfold find in Hnone.
  assert (tokenMap m !! infoHash = None) as Htok.
  { apply eq_None_not_Some. rewrite <- Hdom, Hnone. by intros [? ?]. }
  rewrite add_accepted.
  2:{ unfold rejected. rewrite Hnone, Htok. simpl.
      destruct (Z.geb_spec (Z.of_nat (size (infoHashes m))) MAX_INFO_HASH_NUM);
        [lia | done]. }
  rewrite Hnone, Htok. unfold find, findToken, remove. simpl.
  rewrite !lookup_insert_eq. split; [done|]. split; [done|].
  rewrite !delete_insert_id by done. by destruct m.
Qed.

Lemma add_then_remove_restores_witness :
  store_ok store_1 /\
  Z.of_nat (size (infoHashes store_1)) < MAX_INFO_HASH_NUM /\
  find "02" store_1 = None /\
  find "02" (add "02" peer_2 "cc" store_1) = Some [peer_2] /\
  findToken "02" (add "02" peer_2 "cc" store_1) = Some "cc"%string /\
  remove "02" (add "02" peer_2 "cc" store_1) = store_1.
Proof.
  assert (store_ok store_1) as Hok.
  { apply add_ok, empty_ok. }
  assert (Z.of_nat (size (infoHashes store_1)) < MAX_INFO_HASH_NUM) as Hs
    by (vm_compute; reflexivity).
  assert (find "02" store_1 = None) as Hn by (vm_compute; reflexivity).
  split; [exact Hok|]. split; [exact Hs|]. split; [exact Hn|].
  exact (add_then_remove_restores "02" peer_2 "cc" store_1 Hok Hs Hn).
Defined.

End InfoHashStore.

(** ** The handlers: what every path does *)

Section HandlerPaths.

Import RequestHandler.

(** A node built by [handle] has the port and the address of the
    datagram. *)
Lemma Node_new_fields now i p a n :
  Node.new now i p a = Some n ->
  Node.port n = p /\ Node.addr n = a /\ Peer.isNetPort p = true.
Proof.
  unfold Node.new. destruct (Peer.isNetPort p); [|done].
  by intros [= <-].
Qed.

(** Every path of [handleAnnouncePeerQueryRequest]: at most one message
    leaves, for the port and address of the requesting node; it is the
    announce_peer response or an error 203 under the transaction id; and
    on every path but the one that sends the response the world is as
    before. *)
Lemma announce_paths reqMsg reqNode tid w :
  let out := handleAnnouncePeerQueryRequest reqMsg reqNode tid w in
  (exists text,
      sent out = [send reqNode (Message.responseError tid Message.PROTOCOL text)]
      /\ world out = w /\ completion out = Returned)
  \/ (sent out = [] /\ world out = w /\ completion out = Thrown)
  \/ (sent out = [send reqNode (Message.responseAnnouncePeer tid)]
      /\ completion out = Returned).
Proof.
  unfold handleAnnouncePeerQueryRequest.
  destruct (Id.isValidId _); simpl; [|left; by eexists].
  destruct (match _ with Some p => Js.truthyZ p | None => false end); simpl;
    [|left; by eexists].
  destruct (Js.truthy (Message.t_ reqMsg)); simpl; [|left; by eexists].
  destruct (InfoHashManager.token_mismatch _ _); [left; by eexists|].
  destruct (Peer.new _ _ _); simpl; [right; by right | right; by left].
Qed.

(** X20. [handle] answers the sender of the datagram, once at most. For
    an announce_peer query or a query of no known kind, from any
    address and port: at most one message is sent, to that address and
    port; it carries the transaction id of the query and is either the
    announce_peer response or an error with code 203; and the info-hash
    store changes on no path but the one that sends the announce_peer
    response. *)
Theorem handle_answers_the_sender now reqMsg addr port w out :
  handle now reqMsg addr port w = Some out ->
  (length (sent out) <= 1)%nat /\
  (forall s, s ∈ sent out ->
     Message.to_port s = port /\ Message.to_addr s = addr /\
     (Message.reply s = Message.responseAnnouncePeer (Message.t_ reqMsg)
      \/ exists text,
           Message.reply s
           = Message.responseError (Message.t_ reqMsg) 203 text)) /\
  (store (world out) <> store w ->
   sent out = [Message.mkSent port addr
                 (Message.responseAnnouncePeer (Message.t_ reqMsg))]).
Proof.
  unfold handle. intros Hout.
  destruct (Id.isValidId _); simpl in Hout.
  2:{ injection Hout as <-. simpl. split; [lia|]. split; [|done].
      intros s Hs. apply list_elem_of_singleton in Hs as ->. simpl. eauto. }
  destruct (_ ≫= Id.fromUnit8Array (next_obj w)) as [i|].
  2:{ injection Hout as <-. simpl. split; [lia|]. split; [|done].
      intros s Hs. by apply elem_of_nil in Hs. }
  destruct (Node.new now i port addr) as [reqNode|] eqn:Hnode.
  2:{ injection Hout as <-. simpl. split; [lia|]. split; [|done].
      intros s Hs. by apply elem_of_nil in Hs. }
  apply Node_new_fields in Hnode as (Hp & Ha & _).
  destruct (Message.q reqMsg) as [[| | |]|]; try discriminate Hout.
  2:{ injection Hout as <-. simpl. split; [lia|]. split; [|done].
      intros s Hs. by apply elem_of_nil in Hs. }
  injection Hout as <-.
  pose proof (announce_paths reqMsg reqNode (Message.t_ reqMsg)
                (mkWorld (Pos.succ (next_obj w)) (store w))) as Hpaths.
  simpl in Hpaths. unfold send in Hpaths. rewrite Hp, Ha in Hpaths.
  destruct Hpaths as [(text & -> & -> & _)|[(-> & -> & _)|(-> & _)]].
  - split; [simpl; lia|]. split; [|done].
    intros s Hs. apply list_elem_of_singleton in Hs as ->. simpl. eauto.
  - split; [simpl; lia|]. split; [|done].
    intros s Hs. by apply elem_of_nil in Hs.
  - split; [simpl; lia|]. split; [|done].
    intros s Hs. apply list_elem_of_singleton in Hs as ->. simpl. eauto.
Qed.

Lemma handle_answers_the_sender_witness :
  exists out,
    handle 100 announce_query "10.0.0.7" 51413 announce_world = Some out /\
    (length (sent out) <= 1)%nat /\
    (forall s, s ∈ sent out ->
       Message.to_port s = 51413 /\ Message.to_addr s = "10.0.0.7"%string /\
       (Message.reply s
        = Message.responseAnnouncePeer (Message.t_ announce_query)
        \/ exists text,
             Message.reply s
             = Message.responseError (Message.t_ announce_query) 203 text)) /\
    (store (world out) <> store announce_world ->
     sent out = [Message.mkSent 51413 "10.0.0.7"
                   (Message.responseAnnouncePeer (Message.t_ announce_query))]).
Proof.
  eexists. split; [vm_compute; reflexivity|].
  apply (handle_answers_the_sender 100). vm_compute. reflexivity.
Defined.

Lemma implied_port_choice (args : Message.Args) (sender p : Z) :
  (if (match Message.implied_port args with
       | Some ip => if Js.truthyZ ip then ip else 0
       | None => 0
       end) =? 1
   then sender else p)
  = if decide (Message.implied_port args = Some 1) then sender else p.
Proof.
  destruct (decide (Message.implied_port args = Some 1)) as [Hip|Hip].
  - rewrite Hip. reflexivity.
  - destruct (Message.implied_port args) as [ip|]; [|done].
    unfold Js.truthyZ. destruct (Z.eqb_spec ip 0) as [->|Hne]; simpl; [done|].
    destruct (Z.eqb_spec ip 1) as [->|Hne1]; [done|done].
Qed.

(** X21. The peer an announce stores. For an announce_peer query with a
    valid info-hash, a port other than 0 and a non-empty transaction id
    that the store does not reject: the download port is the port of
    the sender when [implied_port] is 1 and the port of the query
    otherwise; if it is a port number, a new [Peer] with this port and
    the address of the sender is stored under the info-hash and the
    announce_peer response is sent; if it is not (a query port above
    65535, say), the handler throws: nothing is sent and nothing is
    stored. *)
Theorem announce_stores_the_download_port reqMsg reqNode tid w args infoHash p :
  Message.a reqMsg = Some args ->
  Message.info_hash args = Some infoHash ->
  Id.isValidId (Some infoHash) = true ->
  Message.port args = Some p -> p <> 0 ->
  Message.t_ reqMsg <> ""%string ->
  rejected (BytesUtil.bytes2HexStr infoHash) (Message.t_ reqMsg) (store w)
  = false ->
  let downloadPort :=
    if decide (Message.implied_port args = Some 1)
    then Node.port reqNode else p in
  let out := handleAnnouncePeerQueryRequest reqMsg reqNode tid w in
  (Peer.isNetPort downloadPort = true ->
   sent out = [send reqNode (Message.responseAnnouncePeer tid)] /\
   next_obj (world out) = Pos.succ (next_obj w) /\
   InfoHashManager.find (BytesUtil.bytes2HexStr infoHash) (store (world out))
   = Some (InfoHashManager.set_add
             (Peer.mk (next_obj w) downloadPort (Node.addr reqNode))
             (default [] (InfoHashManager.find
                            (BytesUtil.bytes2HexStr infoHash) (store w))))) /\
  (Peer.isNetPort downloadPort = false ->
   sent out = [] /\ completion out = Thrown /\ world out = w).
Proof.
  intros Ha Hih Hvalid Hport Hp Ht Hrej downloadPort out.
  assert (Js.truthyZ p = true) as Hp'
    by (unfold Js.truthyZ; by destruct (Z.eqb_spec p 0)).
  assert (Js.truthy (Message.t_ reqMsg) = true) as Ht'
    by (unfold Js.truthy; by destruct (String.eqb_spec (Message.t_ reqMsg) "")).
  pose proof Hrej as Hrej'. unfold rejected in Hrej'.
  apply orb_false_iff in Hrej' as [Hrej' _].
  apply orb_false_iff in Hrej' as [_ Hmis].
  unfold out, handleAnnouncePeerQueryRequest. rewrite Ha. simpl.
  rewrite Hih, Hvalid, Hport, Hp', Ht'. simpl.
  unfold InfoHashManager.findToken. rewrite Hmis.
  rewrite implied_port_choice. fold downloadPort. unfold Peer.new.
  split; intros Hnet; rewrite Hnet; simpl; [|done].
  split; [done|]. split; [done|].
  rewrite add_accepted by done. unfold InfoHashManager.find. simpl.
  by rewrite lookup_insert_eq.
Qed.

Lemma announce_stores_the_download_port_witness :
  let args := Message.mkArgs (Some (twenty x07)) None (Some (twenty x01))
                             (Some 1) (Some 70000) None in
  let reqMsg := Message.mk "aa" Message.QUERY (Some Message.ANNOUNCE_PEER)
                           (Some args) None in
  let reqNode := Node.mk (Id.mk 10 (BitArray.mk 160 7)) 51413 "10.0.0.7" 100 in
  let out := handleAnnouncePeerQueryRequest reqMsg reqNode "aa"
               announce_world in
  sent out = [send reqNode (Message.responseAnnouncePeer "aa")] /\
  next_obj (world out) = 11%positive /\
  InfoHashManager.find hash_1 (store (world out))
  = Some [peer_1; Peer.mk 10 51413 "10.0.0.7"].
Proof.
  intros args reqMsg reqNode out.
  assert (rejected (BytesUtil.bytes2HexStr (twenty x01)) "aa"
                   (store announce_world) = false) as Hrej
    by (vm_compute; reflexivity).
  destruct (announce_stores_the_download_port reqMsg reqNode "aa"
              announce_world args (twenty x01) 70000
              eq_refl eq_refl eq_refl eq_refl ltac:(discriminate)
              ltac:(discriminate) Hrej) as [Hstored _].
  destruct (Hstored eq_refl) as (Hsent & Hnext & Hfind).
  split; [exact Hsent|]. split; [exact Hnext|]. exact Hfind.
Defined.

(** X22. What the error handler does with an error message, for every
    message and registry: the registry is left as it was; the error
    code and message are logged exactly when the transaction id is
    non-empty and not valid (unknown or expired) and the message has an
    error body; and the handler throws exactly when such a message has
    no error body. An error that answers a valid transaction is never
    logged. *)
Theorem error_handler_reports_only_invalid_tids now response address port tm :
  ErrorResponseHandler.manager
    (ErrorResponseHandler.handle now response address port tm) = tm /\
  (forall code msg,
      LogReceivedError (Message.t_ response) address port code msg
        ∈ ErrorResponseHandler.logs
            (ErrorResponseHandler.handle now response address port tm)
      <-> Message.t_ response <> ""%string
          /\ TranscationManager.isValid now (Some (Message.t_ response)) tm
             = false
          /\ Message.e response = Some (code, msg)) /\
  (ErrorResponseHandler.completion
     (ErrorResponseHandler.handle now response address port tm) = Thrown
   <-> Message.t_ response <> ""%string
       /\ TranscationManager.isValid now (Some (Message.t_ response)) tm
          = false
       /\ Message.e response = None).
Proof.
  split; [apply error_handler_keeps_registry|].
  unfold ErrorResponseHandler.handle, Js.truthy.
  destruct (String.eqb_spec (Message.t_ response) "") as [Hempty|Hne]; simpl.
  { split; [intros code msg|]; (split; [|by intros (Hne & _)]).
    - intros Hin. repeat (apply elem_of_cons in Hin as [Hin|Hin]; [done|]).
      by apply elem_of_nil in Hin.
    - done. }
  destruct (TranscationManager.isValid now (Some (Message.t_ response)) tm)
    eqn:Hvalid; simpl.
  { split; [intros code msg|]; (split; [|by intros (_ & Hf & _)]).
    - intros Hin. repeat (apply elem_of_cons in Hin as [Hin|Hin]; [done|]).
      by apply elem_of_nil in Hin.
    - done. }
  destruct (Message.e response) as [[code0 msg0]|]; simpl.
  - split; [intros code msg|]; split.
    + intros Hin. apply elem_of_cons in Hin as [Hin|Hin]; [done|].
      apply list_elem_of_singleton in Hin. injection Hin as -> ->. done.
    + intros (_ & _ & [= -> ->]). apply list_elem_of_further, list_elem_of_here.
    + done.
    + by intros (_ & _ & ?).
  - split; [intros code msg|]; split.
    + intros Hin. apply list_elem_of_singleton in Hin. done.
    + by intros (_ & _ & ?).
    + done.
    + done.
Qed.

End HandlerPaths.

(** ** Removing one node from the routing table *)

Section RemoveById.

Implicit Types (b : Bucket.t) (bs : list Bucket.t) (rt : RoutingTable.t)
  (n m : Node.t).

Local Abbreviation rng :=
  (fun b : Bucket.t => (Bucket.start b, Bucket.end_ b, Bucket.capacity b)).

Lemma find_app_list {A} (p : A -> bool) (l1 l2 : list A) :
  List.find p (l1 ++ l2)
  = match List.find p l1 with Some x => Some x | None => List.find p l2 end.
Proof.
  induction l1 as [|x l1 IH]; simpl; [done|]. by destruct (p x).
Qed.

(** [findNode] returns the first node of the population with an equal
    id. *)
Lemma findNode_population i rt :
  RoutingTable.findNode i rt
  = List.find (fun node => Id.equals (Node.id node) i) (population rt).
Proof.
  unfold RoutingTable.findNode, population.
  induction (RoutingTable.buckets rt) as [|b bs IH]; simpl; [done|].
  rewrite find_app_list. destruct (Bucket.isEmpty b) eqn:Hempty.
  - apply isEmpty_nil in Hempty. by rewrite Hempty.
  - by destruct (List.find _ (Bucket.nodes b)).
Qed.

(** [remove(node)] on a member of the table takes this member out of
    the population and leaves every other node in its place. *)
Lemma remove_member now n rt :
  table_ok rt -> disjoint_ranges rt -> n ∈ population rt ->
  exists l1 l2,
    population rt = l1 ++ n :: l2 /\
    population (RoutingTable.remove now n rt) = l1 ++ l2 /\
    (n ∉ l1 ++ l2) /\
    ranges (RoutingTable.remove now n rt) = ranges rt /\
    table_ok (RoutingTable.remove now n rt).
Proof.
  intros Hok Hdisj Hn. unfold table_ok in Hok. rewrite Forall_forall in Hok.
  apply population_elem in Hn as (b0 & Hb0 & Hn).
  destruct (Hok b0 Hb0) as (_ & _ & Hnd0 & Hin0).
  rewrite Forall_forall in Hin0. pose proof (Hin0 n Hn) as Hcov0.
  apply list_elem_of_split in Hb0 as (bs1 & bs2 & Hbs).
  apply list_elem_of_split in Hn as (f1 & f2 & Hf).
  assert (bs0 : RoutingTable.buckets rt !! length bs1 = Some b0)
    by (rewrite Hbs; apply list_lookup_middle; done).
  assert (forall k b, RoutingTable.buckets rt !! k = Some b -> k <> length bs1 ->
                      Bucket.withinRnage (Node.id n) b = false) as Hother.
  { intros k b Hk Hne. apply not_true_is_false. intros Hcov.
    apply Hne. apply (Hdisj k (length bs1) b b0
                   (BitArray.value (Id.bits (Node.id n))) Hk bs0);
      by apply withinRnage_covers. }
  assert (forall b, b ∈ bs1 ++ bs2 ->
                    Bucket.withinRnage (Node.id n) b = false
                    /\ n ∉ Bucket.nodes b) as Hrest.
  { intros b Hb.
    assert (Bucket.withinRnage (Node.id n) b = false) as Hout.
    { apply elem_of_app in Hb as [Hb|Hb];
        apply list_elem_of_lookup in Hb as [k Hk].
      - apply (Hother k); [|apply lookup_lt_Some in Hk; lia].
        rewrite Hbs. by apply lookup_app_l_Some.
      - apply (Hother (length bs1 + S k)%nat); [|lia].
        rewrite Hbs, lookup_app_r by lia.
        by replace (length bs1 + S k - length bs1)%nat with (S k) by lia. }
    split; [done|]. intros Hnb.
    assert (b ∈ RoutingTable.buckets rt) as Hb'.
    { rewrite Hbs. apply elem_of_app in Hb as [Hb|Hb];
        apply elem_of_app; [by left | right; by apply list_elem_of_further]. }
    destruct (Hok b Hb') as (_ & _ & _ & Hin). rewrite Forall_forall in Hin.
    specialize (Hin n Hnb). congruence. }
  assert (forall m, m ∈ f1 ++ f2 ->
                    Id.same (Node.id m) (Node.id n) = false) as Hobj.
  { intros m Hm. apply not_true_is_false. intros Hsame.
    apply Pos.eqb_eq in Hsame.
    unfold distinct_objects, id_objects in Hnd0.
    rewrite Hf, map_app in Hnd0. simpl in Hnd0.
    apply NoDup_app in Hnd0 as (_ & Hd & Hnd2).
    apply NoDup_cons in Hnd2 as [Hn2 _].
    apply elem_of_app in Hm as [Hm|Hm].
    - apply (Hd (Id.obj (Node.id m)));
        [by apply (list_elem_of_fmap_2 (fun n => Id.obj (Node.id n)))|].
      rewrite Hsame. apply list_elem_of_here.
    - apply Hn2. rewrite <- Hsame.
      by apply (list_elem_of_fmap_2 (fun n => Id.obj (Node.id n))). }
  exists (concat (map Bucket.nodes bs1) ++ f1),
         (f2 ++ concat (map Bucket.nodes bs2)).
  assert (RoutingTable.buckets (RoutingTable.remove now n rt)
          = bs1 ++ snd (Bucket.remove now n b0) :: bs2) as Hbs'.
  { unfold RoutingTable.remove. simpl. rewrite remove_from_pointwise.
    - rewrite Hbs, map_app. simpl. rewrite Hcov0. f_equal; [|f_equal].
      + rewrite <- (map_id bs1) at 2. apply map_ext_in. intros b Hb.
        destruct (Hrest b) as [-> _]; [|done].
        apply elem_of_app. left. by apply list_elem_of_In.
      + rewrite <- (map_id bs2) at 2. apply map_ext_in. intros b Hb.
        destruct (Hrest b) as [-> _]; [|done].
        apply elem_of_app. right. by apply list_elem_of_In.
    - intros j k bj bk Hj Hk Hcj Hck.
      apply (Hdisj j k bj bk (BitArray.value (Id.bits (Node.id n))) Hj Hk);
        by apply withinRnage_covers. }
  destruct (remove_nodes now n b0 Hnd0) as [Hrng Hnodes].
  assert (Bucket.nodes (snd (Bucket.remove now n b0)) = f1 ++ f2) as Hnodes'.
  { rewrite Hnodes, Hf, List.filter_app. simpl.
    unfold Id.same at 2. rewrite Pos.eqb_refl. simpl.
    rewrite !filter_all; [done| |]; intros m Hm; apply negb_true_iff, Hobj,
      elem_of_app; auto. }
  split; [|split; [|split; [|split]]].
  5:{ unfold table_ok. rewrite Hbs'. apply Forall_forall. intros b Hb.
      apply elem_of_app in Hb as [Hb|Hb].
      { apply Hok. rewrite Hbs. apply elem_of_app. by left. }
      apply elem_of_cons in Hb as [->|Hb].
      2:{ apply Hok. rewrite Hbs. apply elem_of_app. right.
          by apply list_elem_of_further. }
      destruct (Hok b0) as (Hcap & Hsize & _ & _);
        [rewrite Hbs; apply elem_of_app; right; apply list_elem_of_here|].
      injection Hrng as Hs He Hc.
      split; [by rewrite Hc|]. split.
      { rewrite Hc. unfold Bucket.size in *. rewrite Hnodes'.
        rewrite Hf in Hsize. rewrite !length_app in *. simpl in Hsize. lia. }
      split; [by apply remove_distinct_objects|].
      rewrite Hnodes'. apply Forall_forall. intros m Hm.
      rewrite (withinRnage_same_range _ b0) by done.
      apply Hin0. rewrite Hf. rewrite elem_of_app in Hm.
      rewrite elem_of_app, elem_of_cons. tauto. }
  - unfold population. rewrite Hbs, map_app, concat_app. simpl.
    by rewrite Hf, <- !app_assoc.
  - unfold population. rewrite Hbs', map_app, concat_app. simpl.
    by rewrite Hnodes', <- !app_assoc.
  - intros Hin. rewrite <- app_assoc in Hin.
    assert (n ∈ concat (map Bucket.nodes (bs1 ++ bs2)) \/ n ∈ f1 ++ f2)
      as [Hin'|Hin'].
    { rewrite map_app, concat_app. rewrite !elem_of_app in Hin.
      rewrite !elem_of_app. tauto. }
    + apply list_elem_of_In, in_concat in Hin' as (l & Hl & Hnl).
      apply in_map_iff in Hl as (b & <- & Hb).
      destruct (Hrest b) as [_ Hno]; [by apply list_elem_of_In|].
      by apply Hno, list_elem_of_In.
    + specialize (Hobj n Hin'). unfold Id.same in Hobj.
      by rewrite Pos.eqb_refl in Hobj.
  - unfold ranges. rewrite Hbs', Hbs, !map_app. simpl. by rewrite Hrng.
Qed.

(** X23. [removeByNodeId] removes the node [findNode] returns for the
    id, and nothing else. In a table whose buckets have pairwise
    disjoint ranges, members inside their ranges and no [Id] object held
    twice in a bucket: if no node has an equal id the table is
    unchanged; otherwise the first node with an equal id leaves the
    population, every other node keeps its place, and every bucket keeps
    its range and capacity. *)
Theorem removeByNodeId_removes_the_found_node now nodeId rt :
  table_ok rt -> disjoint_ranges rt ->
  match RoutingTable.findNode nodeId rt with
  | None => RoutingTable.removeByNodeId now nodeId rt = rt
  | Some n =>
      Id.equals (Node.id n) nodeId = true /\
      exists l1 l2,
        population rt = l1 ++ n :: l2 /\
        population (RoutingTable.removeByNodeId now nodeId rt) = l1 ++ l2 /\
        (n ∉ l1 ++ l2) /\
        ranges (RoutingTable.removeByNodeId now nodeId rt) = ranges rt
  end.
Proof.
  intros Hok Hdisj. rewrite findNode_population.
  unfold RoutingTable.removeByNodeId. rewrite getAllNodes_population.
  destruct (List.find _ (population rt)) as [n|] eqn:Hfind; [|done].
  apply find_some in Hfind as [Hin Heq]. split; [done|].
  destruct (remove_member now n rt Hok Hdisj) as (l1 & l2 & H1 & H2 & H3 & H4 & _);
    [by apply list_elem_of_In|].
  by exists l1, l2.
Qed.

Lemma removeByNodeId_removes_the_found_node_witness :
  table_ok shared_addr_table /\ disjoint_ranges shared_addr_table /\
  match RoutingTable.findNode (Id.mk 20 (BitArray.mk 160 12))
                              shared_addr_table with
  | None =>
      RoutingTable.removeByNodeId 50 (Id.mk 20 (BitArray.mk 160 12))
                                  shared_addr_table = shared_addr_table
  | Some n =>
      Id.equals (Node.id n) (Id.mk 20 (BitArray.mk 160 12)) = true /\
      exists l1 l2,
        population shared_addr_table = l1 ++ n :: l2 /\
        population (RoutingTable.removeByNodeId
                      50 (Id.mk 20 (BitArray.mk 160 12)) shared_addr_table)
        = l1 ++ l2 /\
        (n ∉ l1 ++ l2) /\
        ranges (RoutingTable.removeByNodeId
                  50 (Id.mk 20 (BitArray.mk 160 12)) shared_addr_table)
        = ranges shared_addr_table
  end.
Proof.
  split; [exact shared_addr_table_ok|].
  split; [exact shared_addr_table_disjoint|].
  exact (removeByNodeId_removes_the_found_node
           50 (Id.mk 20 (BitArray.mk 160 12)) shared_addr_table
           shared_addr_table_ok shared_addr_table_disjoint).
Defined.

Lemma ranges_disjoint rt rt' :
  ranges rt' = ranges rt -> disjoint_ranges rt -> disjoint_ranges rt'.
Proof.
  unfold ranges. intros Hr Hdisj i j bi bj x Hi Hj Hci Hcj.
  assert (forall k b', RoutingTable.buckets rt' !! k = Some b' ->
                       exists b, RoutingTable.buckets rt !! k = Some b
                                 /\ rng b = rng b') as Hsame.
  { intros k b' Hk.
    assert (map rng (RoutingTable.buckets rt) !! k = Some (rng b')) as Hl
      by (rewrite <- Hr, list_lookup_fmap, Hk; done).
    rewrite list_lookup_fmap in Hl.
    destruct (RoutingTable.buckets rt !! k) as [b|]; [|done].
    exists b. split; [done|]. by apply (inj Some). }
  destruct (Hsame i bi Hi) as (bi' & Hi' & Hri).
  destruct (Hsame j bj Hj) as (bj' & Hj' & Hrj).
  injection Hri as Hsi Hei _. injection Hrj as Hsj Hej _.
  apply (Hdisj i j bi' bj' x Hi' Hj'); unfold covers in *;
    by rewrite ?Hsi, ?Hei, ?Hsj, ?Hej.
Qed.

Lemma population_NoDup rt :
  table_ok rt -> disjoint_ranges rt -> NoDup (population rt).
Proof.
  unfold table_ok, disjoint_ranges, population.
  induction (RoutingTable.buckets rt) as [|b bs IH]; intros Hok Hdisj; simpl;
    [constructor|].
  apply Forall_cons in Hok as [(_ & _ & Hnd & Hin) Hok].
  apply NoDup_app. split; [|split].
  - unfold distinct_objects, id_objects in Hnd.
    by apply (NoDup_fmap_1 (fun n => Id.obj (Node.id n))).
  - intros m Hm Hm'. apply list_elem_of_In, in_concat in Hm' as (l & Hl & Hml).
    apply in_map_iff in Hl as (b' & <- & Hb').
    apply list_elem_of_In, list_elem_of_lookup in Hb' as [k Hk].
    rewrite Forall_forall in Hin. rewrite Forall_forall in Hok.
    assert (b' ∈ bs) as Hb'' by by eapply list_elem_of_lookup_2.
    destruct (Hok b' Hb'') as (_ & _ & _ & Hin').
    rewrite Forall_forall in Hin'.
    specialize (Hin m Hm). specialize (Hin' m (proj2 (list_elem_of_In _ _) Hml)).
    apply withinRnage_covers in Hin, Hin'.
    by specialize (Hdisj 0%nat (S k) b b' _ eq_refl Hk Hin Hin').
  - apply IH; [done|]. intros i j bi bj x Hi Hj Hci Hcj.
    by specialize (Hdisj (S i) (S j) bi bj x Hi Hj Hci Hcj) as [= ->].
Qed.

(** [removeNodes] on distinct members of the table takes them out of
    the population and leaves the other nodes in their order. *)
Lemma removeNodes_members now (gone : list Node.t) : forall rt,
  table_ok rt -> disjoint_ranges rt -> NoDup gone ->
  (forall m, m ∈ gone -> m ∈ population rt) ->
  gone ++ population (RoutingTable.removeNodes now gone rt) ≡ₚ population rt /\
  population (RoutingTable.removeNodes now gone rt)
    `sublist_of` population rt /\
  ranges (RoutingTable.removeNodes now gone rt) = ranges rt.
Proof.
  induction gone as [|n gone IH]; intros rt Hok Hdisj Hnd Hsub; [done|].
  apply NoDup_cons in Hnd as [Hn Hnd].
  destruct (remove_member now n rt Hok Hdisj) as
    (l1 & l2 & Hpop & Hpop' & _ & Hr & Hok'); [apply Hsub, list_elem_of_here|].
  change (RoutingTable.removeNodes now (n :: gone) rt)
    with (RoutingTable.removeNodes now gone (RoutingTable.remove now n rt)).
  destruct (IH (RoutingTable.remove now n rt)) as (Hperm & Hsl & Hr');
    [done|by apply (ranges_disjoint rt)|done| |].
  { intros m Hm. rewrite Hpop'.
    assert (m ∈ l1 ++ n :: l2) as Hin
      by (rewrite <- Hpop; by apply Hsub, list_elem_of_further).
    rewrite elem_of_app, elem_of_cons in Hin. rewrite elem_of_app.
    destruct Hin as [?|[->|?]]; auto. done. }
  split; [|split].
  - simpl. rewrite Hperm, Hpop', Hpop. apply Permutation_middle.
  - etrans; [exact Hsl|]. rewrite Hpop', Hpop.
    apply sublist_app; [done|]. by apply sublist_cons.
  - by rewrite Hr'.
Qed.

(** X24. [removeClosestNode] removes what [findClosestNodes] returns
    for the id of the target with its default count: the eight nodes
    closest to the target, or all nodes if the table holds fewer, not
    the closest node alone. In a table whose buckets have pairwise
    disjoint ranges, members inside their ranges and no [Id] object held
    twice in a bucket, these nodes leave the population, the other nodes
    stay in their order, and the node count drops by [min(nodeCount, 8)]. *)
Theorem removeClosestNode_removes_eight now target rt :
  table_ok rt -> disjoint_ranges rt ->
  RoutingTable.findClosestNodes (Node.id target) 8 rt
    ++ population (RoutingTable.removeClosestNode now target rt)
    ≡ₚ population rt /\
  population (RoutingTable.removeClosestNode now target rt)
    `sublist_of` population rt /\
  RoutingTable.nodeCount (RoutingTable.removeClosestNode now target rt)
  = RoutingTable.nodeCount rt - Z.min (RoutingTable.nodeCount rt) 8 /\
  ranges (RoutingTable.removeClosestNode now target rt) = ranges rt.
Proof.
  intros Hok Hdisj. unfold RoutingTable.removeClosestNode.
  set (gone := RoutingTable.findClosestNodes (Node.id target) 8 rt).
  pose proof (population_NoDup rt Hok Hdisj) as Hnd.
  assert (Js.sort (RoutingTable.closer (Node.id target)) (population rt)
          ≡ₚ population rt) as Hsort by apply sort_Permutation.
  assert (gone = take (Z.to_nat (Z.min (RoutingTable.nodeCount rt) 8))
                      (Js.sort (RoutingTable.closer (Node.id target))
                               (population rt))) as Hgone.
  { unfold gone, RoutingTable.findClosestNodes, Js.slice0.
    rewrite getAllNodes_population, nodeCount_population.
    rewrite (Permutation_length Hsort).
    destruct (Z.ltb_spec (Z.min (Z.of_nat (length (population rt))) 8) 0);
      [lia|]. f_equal. lia. }
  assert (gone `sublist_of`
            Js.sort (RoutingTable.closer (Node.id target)) (population rt))
    as Hsl by (rewrite Hgone; apply sublist_take).
  destruct (removeNodes_members now gone rt Hok Hdisj) as (Hperm & Hsub & Hr).
  - eapply sublist_NoDup; [|exact Hsl]. by rewrite Hsort.
  - intros m Hm. rewrite <- Hsort. by eapply elem_of_sublist.
  - split; [done|]. split; [done|]. split; [|done].
    rewrite !nodeCount_population.
    apply Permutation_length in Hperm. rewrite length_app in Hperm.
    assert (length gone
            = Z.to_nat (Z.min (Z.of_nat (length (population rt))) 8)) as Hlen.
    { rewrite Hgone, length_take, (Permutation_length Hsort),
        nodeCount_population. lia. }
    lia.
Qed.

Lemma removeClosestNode_removes_eight_witness :
  table_ok shared_addr_table /\ disjoint_ranges shared_addr_table /\
  RoutingTable.findClosestNodes (Node.id stranger_node) 8 shared_addr_table
    ++ population (RoutingTable.removeClosestNode 50 stranger_node
                                                  shared_addr_table)
    ≡ₚ population shared_addr_table /\
  population (RoutingTable.removeClosestNode 50 stranger_node shared_addr_table)
    `sublist_of` population shared_addr_table /\
  RoutingTable.nodeCount
    (RoutingTable.removeClosestNode 50 stranger_node shared_addr_table)
  = RoutingTable.nodeCount shared_addr_table
    - Z.min (RoutingTable.nodeCount shared_addr_table) 8 /\
  ranges (RoutingTable.removeClosestNode 50 stranger_node shared_addr_table)
  = ranges shared_addr_table.
Proof.
  split; [exact shared_addr_table_ok|].
  split; [exact shared_addr_table_disjoint|].
  exact (removeClosestNode_removes_eight 50 stranger_node shared_addr_table
           shared_addr_table_ok shared_addr_table_disjoint).
Defined.

End RemoveById.

(** ** Responses: what the response handler accepts *)

Section Responses.

Import ResponseHandler.

Lemma addRespNode_manager now respNode l0 w :
  manager (world (addRespNode now respNode l0 w)) = manager w.
Proof.
  unfold addRespNode.
  by destruct (RoutingTable.add now respNode (table w)) as [[added rt]|].
Qed.

Lemma finished_is_invalid now now' tid m :
  TranscationManager.isValid now tid m = true ->
  TranscationManager.isValid now' tid (TranscationManager.finish now tid m)
  = false.
Proof.
  intros Hvalid. destruct (finish_valid now tid m Hvalid) as (_ & Hhas & _).
  unfold TranscationManager.isValid. by rewrite Hhas.
Qed.

(** X25. A response is accepted once. When [handle] takes a response
    whose transaction id is valid and whose node id has 20 bytes, the
    transaction is finished, whatever the handler does next; in the
    world it leaves, every response under this transaction id, at any
    time and from any address, is dropped at the validity check and
    leaves registry and routing table as they are. *)
Theorem response_is_accepted_once now tid id addr port w out :
  handle now tid id addr port w = Some out ->
  TranscationManager.isValid now (Some tid) (manager w) = true ->
  Id.isValidId id = true ->
  manager (world out)
  = TranscationManager.finish now (Some tid) (manager w) /\
  forall now' id' addr' port',
    handle now' tid id' addr' port' (world out)
    = Some (mkOutcome (world out)
              [Log warn "received a invalid tid, drop the message"]
              RequestHandler.Returned).
Proof.
  intros Hout Hvalid Hid.
  assert (manager (world out)
          = TranscationManager.finish now (Some tid) (manager w)) as Hm.
  { unfold handle in Hout. rewrite Hvalid, Hid in Hout. simpl in Hout.
    destruct (TranscationManager.getData _ _ _) as [request|];
      [|by injection Hout as <-].
    destruct (_ ≫= Id.fromUnit8Array (next_obj w)) as [i|];
      [|by injection Hout as <-].
    destruct (Node.new now i port addr) as [respNode|];
      [|by injection Hout as <-].
    destruct (TranscationManager.type request); try discriminate Hout;
      injection Hout as <-;
      unfold handlePingResponse, handleAnnouncePeerResponse;
      by rewrite addRespNode_manager. }
  split; [done|]. intros now' id' addr' port'. unfold handle.
  by rewrite Hm, (finished_is_invalid now now' (Some tid) (manager w) Hvalid).
Qed.

Lemma response_is_accepted_once_witness :
  exists out,
    handle 500 "0a" (Some (repeat x00 19 ++ [x05])) "10.0.0.9" 6889
           response_world = Some out /\
    manager (world out)
    = TranscationManager.finish 500 (Some "0a"%string)
                                (manager response_world) /\
    forall now' id' addr' port',
      handle now' "0a" id' addr' port' (world out)
      = Some (mkOutcome (world out)
                [Log warn "received a invalid tid, drop the message"]
                RequestHandler.Returned).
Proof.
  eexists. split; [vm_compute; reflexivity|].
  apply (response_is_accepted_once 500 "0a"
           (Some (repeat x00 19 ++ [x05])) "10.0.0.9" 6889 response_world);
    vm_compute; reflexivity.
Defined.




End Responses.
